(** * BinarySearchTree<T> (bst.h): a shallow embedding and its verification

    The C++ class keeps its nodes on the free store: every [Node] is owned by
    a [std::unique_ptr] held in its parent (or in [root_]) and carries a raw
    back pointer to that parent.  The embedding keeps this picture:

    - a [Node*] is an [option loc] ([None] is [nullptr]);
    - the free store is a finite map from addresses to [Node] records;
      [std::make_unique] takes an address that is not in use and the
      destruction of a [unique_ptr] removes the nodes it owns;
    - a function that dereferences a pointer returns [None] when the pointer
      is null or dangling (undefined behaviour in C++), and also when a loop
      exhausts its fuel; the public operations give their loops one unit of
      fuel more than there are nodes in the store, which is enough on every
      tree;
    - [operator<] of the element type is the method of the class [LessThan];
    - [std::size_t] is a 64-bit unsigned integer with wrap-around;
    - [int] is a 32-bit signed integer: an addition or subtraction whose
      result does not fit is undefined behaviour ([None]), and the
      conversion of a [std::size_t] to [int] keeps the low 32 bits;
    - [std::unordered_map<T,int>] is a finite map keyed by equality of [T];
    - a move assignment [a = std::move(b)] of [T] hands the value of [b]
      over to [a] as it is; [b] is left holding [moved_from] of the two
      values, a method of the class [Movable] (for [int] a move is a copy,
      for a type that moves by exchange [b] takes what [a] held);
    - an operation that involves two trees (copy and move construction,
      assignment, [swap]) sees both as states of the same free store.

    The second half relates a state to the tree it stores ([represents]),
    proves the operations correct against that view, and states the
    properties of the container. *)

From Stdlib Require Import ZArith Lia.
From stdpp Require Import base option list sorting gmap.

Local Open Scope Z_scope.

Set Warnings "-clear-no-such-hyp".

(** Addresses of heap-allocated nodes. *)
Definition loc := positive.

(** [std::size_t] arithmetic. *)
Definition SIZE_MOD : Z := 2 ^ 64.
Definition size_incr (n : Z) : Z := (n + 1) mod SIZE_MOD.
Definition size_decr (n : Z) : Z := (n - 1) mod SIZE_MOD.

(** [int] arithmetic: a result outside the range of the type is undefined. *)
Definition INT_MAX : Z := 2147483647.
Definition INT_MIN : Z := -2147483648.
Definition int_range (z : Z) : option Z :=
  if bool_decide (INT_MIN ≤ z ≤ INT_MAX) then Some z else None.

(** The conversion of a [std::size_t] to [int]. *)
Definition int_of_size_t (n : Z) : Z :=
  (n + 2147483648) mod 4294967296 - 2147483648.

(** [operator<] of the element type: the one capability the container
    requires of [T]. *)
Class LessThan (T : Type) := ltb : T → T → bool.

(** The move assignment of [T], [a = std::move(b)]: [moved_from a b] is what
    [b] holds afterwards, given what [a] and [b] held before; [a] holds what
    [b] held. *)
Class Movable (T : Type) := moved_from : T → T → T.

Section Model.

Context {T : Type} {less : LessThan T} {move : Movable T}.

(** ** Data model *)

(** [struct Node]. *)
Record Node := mkNode {
  data : T;
  left : option loc;
  right : option loc;
  parent : option loc
}.

Definition set_data (v : T) (n : Node) : Node :=
  mkNode v (left n) (right n) (parent n).
Definition set_left (p : option loc) (n : Node) : Node :=
  mkNode (data n) p (right n) (parent n).
Definition set_right (p : option loc) (n : Node) : Node :=
  mkNode (data n) (left n) p (parent n).
Definition set_parent (p : option loc) (n : Node) : Node :=
  mkNode (data n) (left n) (right n) p.

(** The tree object together with the nodes it owns. *)
Record BinarySearchTree := mkBST {
  store : gmap loc Node;
  root_ : option loc;
  tree_size_ : Z
}.

Definition with_store (h : gmap loc Node) (s : BinarySearchTree) :=
  mkBST h (root_ s) (tree_size_ s).
Definition with_size (n : Z) (s : BinarySearchTree) :=
  mkBST (store s) (root_ s) n.

(** [base_iterator]: the node pointer and the back pointer to the container.
    Only one container is in scope, so the back pointer is either that
    container ([true]) or null ([false]). *)
Record base_iterator := mkIt {
  ptr_ : option loc;
  tree_ : bool
}.

(** [operator==] of iterators compares the node pointers only. *)
Definition it_eqb (a b : base_iterator) : bool :=
  bool_decide (ptr_ a = ptr_ b).

(** Loops over the node graph run on fuel; one more than the number of
    allocated nodes is enough for every walk along a path of a tree. *)
Definition fuel_of (h : gmap loc Node) : nat := S (size h).
Arguments fuel_of : simpl never.

(** [std::make_unique<Node>]: a node at an address not in use. *)
Definition alloc (h : gmap loc Node) (n : Node) : gmap loc Node * loc :=
  let p := fresh (dom h) in (<[p := n]> h, p).

(** Destruction of the node a [unique_ptr] owns: the members [right] and
    [left] are destroyed (in reverse order of declaration), which destroys
    the subtrees, and then the node is released. *)
Fixpoint destroy (fuel : nat) (h : gmap loc Node) (p : option loc)
  : option (gmap loc Node) :=
  match p with
  | None => Some h
  | Some q =>
    match fuel with
    | O => None
    | S f =>
      n ← h !! q;
      h1 ← destroy f h (right n);
      h2 ← destroy f h1 (left n);
      Some (delete q h2)
    end
  end.

(** ** Lifecycle and capacity *)

(** [BinarySearchTree()]. *)
Definition empty_tree : BinarySearchTree := mkBST ∅ None 0.

Definition size (s : BinarySearchTree) : Z := tree_size_ s.
Definition empty (s : BinarySearchTree) : bool := tree_size_ s =? 0.

(** ** Private helpers *)

Fixpoint find_node (fuel : nat) (h : gmap loc Node) (current : option loc)
    (key : T) : option (option loc) :=
  match current with
  | None => Some None
  | Some c =>
    match fuel with
    | O => None
    | S f =>
      n ← h !! c;
      if ltb key (data n) then find_node f h (left n) key
      else if ltb (data n) key then find_node f h (right n) key
      else Some (Some c)
    end
  end.

(** [while (node->left) node = node->left.get();] *)
Fixpoint descend_left (fuel : nat) (h : gmap loc Node) (node : loc)
  : option loc :=
  n ← h !! node;
  match left n with
  | None => Some node
  | Some l => match fuel with O => None | S f => descend_left f h l end
  end.

(** [while (node->right) node = node->right.get();] *)
Fixpoint descend_right (fuel : nat) (h : gmap loc Node) (node : loc)
  : option loc :=
  n ← h !! node;
  match right n with
  | None => Some node
  | Some r => match fuel with O => None | S f => descend_right f h r end
  end.

Definition find_min (fuel : nat) (h : gmap loc Node) (node : option loc)
  : option (option loc) :=
  match node with
  | None => Some None
  | Some p => Some <$> descend_left fuel h p
  end.

Definition find_max (fuel : nat) (h : gmap loc Node) (node : option loc)
  : option (option loc) :=
  match node with
  | None => Some None
  | Some p => Some <$> descend_right fuel h p
  end.

(** ** Iterator *)

(** [while (p && ptr_ == p->right.get()) { ptr_ = p; p = p->parent; }],
    returning the final [p]. *)
Fixpoint climb_from_right (fuel : nat) (h : gmap loc Node) (ptr : loc)
    (p : option loc) : option (option loc) :=
  match p with
  | None => Some None
  | Some q =>
    n ← h !! q;
    if bool_decide (right n = Some ptr)
    then match fuel with O => None | S f => climb_from_right f h q (parent n) end
    else Some (Some q)
  end.

(** [while (p && ptr_ == p->left.get()) { ptr_ = p; p = p->parent; }] *)
Fixpoint climb_from_left (fuel : nat) (h : gmap loc Node) (ptr : loc)
    (p : option loc) : option (option loc) :=
  match p with
  | None => Some None
  | Some q =>
    n ← h !! q;
    if bool_decide (left n = Some ptr)
    then match fuel with O => None | S f => climb_from_left f h q (parent n) end
    else Some (Some q)
  end.

(** [successor()]: the new value of [ptr_]. *)
Definition successor (fuel : nat) (h : gmap loc Node) (ptr : option loc)
  : option (option loc) :=
  p ← ptr;
  n ← h !! p;
  match right n with
  | Some r => Some <$> descend_left fuel h r
  | None => climb_from_right fuel h p (parent n)
  end.

(** [predecessor()]. *)
Definition predecessor (fuel : nat) (h : gmap loc Node) (ptr : option loc)
  : option (option loc) :=
  p ← ptr;
  n ← h !! p;
  match left n with
  | Some l => Some <$> descend_right fuel h l
  | None => climb_from_left fuel h p (parent n)
  end.

(** [operator*]. *)
Definition deref (s : BinarySearchTree) (it : base_iterator) : option T :=
  p ← ptr_ it; n ← store s !! p; Some (data n).

(** [operator++()]: the iterator after the step. *)
Definition pre_increment (s : BinarySearchTree) (it : base_iterator)
  : option base_iterator :=
  q ← successor (fuel_of (store s)) (store s) (ptr_ it);
  Some (mkIt q (tree_ it)).

(** [operator++(int)]: the iterator after the step and the returned copy. *)
Definition post_increment (s : BinarySearchTree) (it : base_iterator)
  : option (base_iterator * base_iterator) :=
  q ← successor (fuel_of (store s)) (store s) (ptr_ it);
  Some (mkIt q (tree_ it), it).

(** [operator--()]. *)
Definition pre_decrement (s : BinarySearchTree) (it : base_iterator)
  : option base_iterator :=
  match ptr_ it with
  | None =>
    if tree_ it && negb (empty s)
    then q ← find_max (fuel_of (store s)) (store s) (root_ s);
         Some (mkIt q (tree_ it))
    else Some it
  | Some _ =>
    q ← predecessor (fuel_of (store s)) (store s) (ptr_ it);
    Some (mkIt q (tree_ it))
  end.

(** [operator--(int)]. *)
Definition post_decrement (s : BinarySearchTree) (it : base_iterator)
  : option (base_iterator * base_iterator) :=
  q ← predecessor (fuel_of (store s)) (store s) (ptr_ it);
  Some (mkIt q (tree_ it), it).

Definition begin (s : BinarySearchTree) : option base_iterator :=
  q ← find_min (fuel_of (store s)) (store s) (root_ s);
  Some (mkIt q true).

Definition end_ (s : BinarySearchTree) : base_iterator := mkIt None true.

(** ** Modifiers *)

(** The descent loop of [emplace]: [inl c] when the loop returns from inside
    because node [c] holds an equivalent value, [inr parent] when it runs to
    its end. *)
Fixpoint emplace_loop (fuel : nat) (h : gmap loc Node)
    (current parent : option loc) (val : T) : option (loc + option loc) :=
  match current with
  | None => Some (inr parent)
  | Some c =>
    match fuel with
    | O => None
    | S f =>
      n ← h !! c;
      if ltb val (data n) then emplace_loop f h (left n) (Some c) val
      else if ltb (data n) val then emplace_loop f h (right n) (Some c) val
      else Some (inl c)
    end
  end.

(** [emplace]; [val] is the value constructed from the arguments.  The child
    slot that receives the new node is the null slot the loop stopped at. *)
Definition emplace (val : T) (s : BinarySearchTree)
  : option (BinarySearchTree * (base_iterator * bool)) :=
  match root_ s with
  | None =>
    let '(h, p) := alloc (store s) (mkNode val None None None) in
    Some (mkBST h (Some p) (size_incr (tree_size_ s)), (mkIt (Some p) true, true))
  | Some _ =>
    r ← emplace_loop (fuel_of (store s)) (store s) (root_ s) None val;
    match r with
    | inl c => Some (s, (mkIt (Some c) true, false))
    | inr parent =>
      p ← parent;
      pn ← store s !! p;
      let '(h, new_node) := alloc (store s) (mkNode val None None (Some p)) in
      let h' := if ltb val (data pn)
                then <[p := set_left (Some new_node) pn]> h
                else <[p := set_right (Some new_node) pn]> h in
      Some (mkBST h' (root_ s) (size_incr (tree_size_ s)),
            (mkIt (Some new_node) true, true))
    end
  end.

Definition insert (value : T) (s : BinarySearchTree)
  : option (BinarySearchTree * base_iterator) :=
  '(s', (it, _)) ← emplace value s;
  Some (s', it).

(** A [std::unique_ptr<Node>&]: the owning slot a reference denotes. *)
Inductive link := root_link | left_link (p : loc) | right_link (p : loc).

Definition read_link (s : BinarySearchTree) (k : link)
  : option (option loc) :=
  match k with
  | root_link => Some (root_ s)
  | left_link p => n ← store s !! p; Some (left n)
  | right_link p => n ← store s !! p; Some (right n)
  end.

Definition write_link (s : BinarySearchTree) (k : link) (v : option loc)
  : option BinarySearchTree :=
  match k with
  | root_link => Some (mkBST (store s) v (tree_size_ s))
  | left_link p =>
    n ← store s !! p; Some (with_store (<[p := set_left v n]> (store s)) s)
  | right_link p =>
    n ← store s !! p; Some (with_store (<[p := set_right v n]> (store s)) s)
  end.

(** [unique_ptr::reset(v)]: store [v], then destroy the node owned before. *)
Definition reset_link (s : BinarySearchTree) (k : link) (v : option loc)
  : option BinarySearchTree :=
  old ← read_link s k;
  s1 ← write_link s k v;
  h ← destroy (fuel_of (store s1)) (store s1) old;
  Some (with_store h s1).

(** [dst = std::move(src)], that is [dst.reset(src.release())]. *)
Definition move_assign (s : BinarySearchTree) (dst src : link)
  : option BinarySearchTree :=
  v ← read_link s src;
  s1 ← write_link s src None;
  reset_link s1 dst v.

Definition get_parent_link (s : BinarySearchTree) (node : loc)
  : option link :=
  n ← store s !! node;
  match parent n with
  | None => Some root_link
  | Some q =>
    pn ← store s !! q;
    if bool_decide (left pn = Some node) then Some (left_link q)
    else Some (right_link q)
  end.

Definition detach_from_parent (s : BinarySearchTree) (node : loc)
  : option BinarySearchTree :=
  k ← get_parent_link s node;
  reset_link s k None.

Fixpoint erase_node_recursive (fuel : nat) (s : BinarySearchTree)
    (current_node : link) (key : T) : option BinarySearchTree :=
  match fuel with
  | O => None
  | S f =>
    cur ← read_link s current_node;
    match cur with
    | None => Some s
    | Some c =>
      n ← store s !! c;
      if ltb key (data n) then erase_node_recursive f s (left_link c) key
      else if ltb (data n) key then erase_node_recursive f s (right_link c) key
      else
        match left n, right n with
        | Some _, Some _ => Some s
        | _, _ =>
          let child := if left n is Some _ then left_link c else right_link c in
          ch ← read_link s child;
          s1 ← match ch with
               | None => Some s
               | Some q =>
                 cn ← store s !! q;
                 Some (with_store (<[q := set_parent (parent n) cn]> (store s)) s)
               end;
          s2 ← move_assign s1 current_node child;
          Some (with_size (size_decr (tree_size_ s2)) s2)
        end
    end
  end.

Definition erase (key : T) (s : BinarySearchTree)
  : option (BinarySearchTree * base_iterator) :=
  node_to_erase ← find_node (fuel_of (store s)) (store s) (root_ s) key;
  match node_to_erase with
  | None => Some (s, end_ s)
  | Some e =>
    next_node_it ← pre_increment s (mkIt (Some e) true);
    n ← store s !! e;
    s' ← match left n, right n with
         | None, None => detach_from_parent s e
         | Some _, Some _ =>
           successor ← find_min (fuel_of (store s)) (store s) (right n);
           sp ← successor;
           sn ← store s !! sp;
           (* node_to_erase->data = std::move(successor->data); *)
           let h1 := <[e := set_data (data sn) n]> (store s) in
           sn1 ← h1 !! sp;
           let s1 := with_store
                       (<[sp := set_data (moved_from (data n) (data sn)) sn1]>
                          h1) s in
           (* the key passed on is the reference successor->data *)
           sm ← store s1 !! sp;
           s2 ← erase_node_recursive (fuel_of (store s1)) s1 (right_link e) (data sm);
           Some (with_size (size_incr (tree_size_ s2)) s2)
         | _, _ =>
           let child := if left n is Some _ then left_link e else right_link e in
           ch ← read_link s child;
           q ← ch;
           cn ← store s !! q;
           let s1 := with_store (<[q := set_parent (parent n) cn]> (store s)) s in
           k ← get_parent_link s1 e;
           move_assign s1 k child
         end;
    Some (with_size (size_decr (tree_size_ s')) s', next_node_it)
  end.

Definition clear (s : BinarySearchTree) : option BinarySearchTree :=
  s1 ← reset_link s root_link None;
  Some (with_size 0 s1).

(** ** Lookup *)

Definition find (key : T) (s : BinarySearchTree) : option base_iterator :=
  q ← find_node (fuel_of (store s)) (store s) (root_ s) key;
  Some (mkIt q true).

Definition contains (key : T) (s : BinarySearchTree) : option bool :=
  q ← find_node (fuel_of (store s)) (store s) (root_ s) key;
  Some (bool_decide (q ≠ None)).

(** ** Traversals

    A traversal is modelled by the sequence of values the visitor is called
    with. *)

Fixpoint in_order_helper (fuel : nat) (h : gmap loc Node) (node : option loc)
  : option (list T) :=
  match node with
  | None => Some []
  | Some p =>
    match fuel with
    | O => None
    | S f =>
      n ← h !! p;
      a ← in_order_helper f h (left n);
      b ← in_order_helper f h (right n);
      Some (a ++ data n :: b)
    end
  end.

Fixpoint pre_order_helper (fuel : nat) (h : gmap loc Node) (node : option loc)
  : option (list T) :=
  match node with
  | None => Some []
  | Some p =>
    match fuel with
    | O => None
    | S f =>
      n ← h !! p;
      a ← pre_order_helper f h (left n);
      b ← pre_order_helper f h (right n);
      Some (data n :: a ++ b)
    end
  end.

Fixpoint post_order_helper (fuel : nat) (h : gmap loc Node) (node : option loc)
  : option (list T) :=
  match node with
  | None => Some []
  | Some p =>
    match fuel with
    | O => None
    | S f =>
      n ← h !! p;
      a ← post_order_helper f h (left n);
      b ← post_order_helper f h (right n);
      Some (a ++ b ++ [data n])
    end
  end.

Definition in_order_traversal (s : BinarySearchTree) : option (list T) :=
  in_order_helper (fuel_of (store s)) (store s) (root_ s).
Definition pre_order_traversal (s : BinarySearchTree) : option (list T) :=
  pre_order_helper (fuel_of (store s)) (store s) (root_ s).
Definition post_order_traversal (s : BinarySearchTree) : option (list T) :=
  post_order_helper (fuel_of (store s)) (store s) (root_ s).

(** The range-for loop over the container: from [begin()], while the
    iterator differs from [end()], visit the element and step with [++]. *)
Fixpoint iterate (steps : nat) (s : BinarySearchTree) (it : base_iterator)
  : option (list T) :=
  if it_eqb it (end_ s) then Some []
  else
    match steps with
    | O => None
    | S k =>
      v ← deref s it;
      it' ← pre_increment s it;
      vs ← iterate k s it';
      Some (v :: vs)
    end.

Definition range_for (s : BinarySearchTree) : option (list T) :=
  it ← begin s;
  iterate (fuel_of (store s)) s it.

(** [BinarySearchTree(std::initializer_list<T>)]. *)
Fixpoint insert_all (ilist : list T) (s : BinarySearchTree)
  : option BinarySearchTree :=
  match ilist with
  | [] => Some s
  | val :: rest => '(s', _) ← insert val s; insert_all rest s'
  end.

Definition from_initializer_list (ilist : list T) : option BinarySearchTree :=
  insert_all ilist empty_tree.

(** A sequence of insertions, each through [insert] or through [emplace]. *)
Inductive insertion := via_insert (v : T) | via_emplace (v : T).

Definition inserted_value (i : insertion) : T :=
  match i with via_insert v => v | via_emplace v => v end.

Definition apply_insertion (i : insertion) (s : BinarySearchTree)
  : option BinarySearchTree :=
  match i with
  | via_insert v => fst <$> insert v s
  | via_emplace v => fst <$> emplace v s
  end.

Fixpoint apply_insertions (ops : list insertion) (s : BinarySearchTree)
  : option BinarySearchTree :=
  match ops with
  | [] => Some s
  | i :: rest => s' ← apply_insertion i s; apply_insertions rest s'
  end.

(** The mutating operations of the container. *)
Inductive mutation :=
  | do_emplace (v : T)
  | do_insert (v : T)
  | do_erase (key : T)
  | do_clear.

Definition mutate (m : mutation) (s : BinarySearchTree)
  : option BinarySearchTree :=
  match m with
  | do_emplace v => fst <$> emplace v s
  | do_insert v => fst <$> insert v s
  | do_erase key => fst <$> erase key s
  | do_clear => clear s
  end.

Fixpoint apply_mutations (ops : list mutation) (s : BinarySearchTree)
  : option BinarySearchTree :=
  match ops with
  | [] => Some s
  | m :: rest => s' ← mutate m s; apply_mutations rest s'
  end.

(** ** Copy construction *)

(** [copy_helper]: the children of [other_node] are copied below
    [parent_copy], left subtree first. *)
Fixpoint copy_helper (fuel : nat) (h : gmap loc Node)
    (parent_copy other_node : loc) : option (gmap loc Node) :=
  match fuel with
  | O => None
  | S f =>
    on ← h !! other_node;
    h1 ← match left on with
         | None => Some h
         | Some ol =>
           oln ← h !! ol;
           let '(h, c) := alloc h (mkNode (data oln) None None (Some parent_copy)) in
           pn ← h !! parent_copy;
           let h := <[parent_copy := set_left (Some c) pn]> h in
           pn' ← h !! parent_copy;
           c' ← left pn';
           copy_helper f h c' ol
         end;
    on' ← h1 !! other_node;
    match right on' with
    | None => Some h1
    | Some or =>
      orn ← h1 !! or;
      let '(h, c) := alloc h1 (mkNode (data orn) None None (Some parent_copy)) in
      pn ← h !! parent_copy;
      let h := <[parent_copy := set_right (Some c) pn]> h in
      pn' ← h !! parent_copy;
      c' ← right pn';
      copy_helper f h c' or
    end
  end.

(** [BinarySearchTree(const BinarySearchTree &other)].  The store of the
    new object is the free store after the construction: the nodes of
    [other] live in it beside the nodes of the copy. *)
Definition copy_construct (other : BinarySearchTree) : option BinarySearchTree :=
  match root_ other with
  | None => Some (mkBST (store other) None 0)
  | Some o =>
    on ← store other !! o;
    let '(h, r) := alloc (store other) (mkNode (data on) None None None) in
    h' ← copy_helper (fuel_of (store other)) h r o;
    Some (mkBST h' (Some r) (tree_size_ other))
  end.

(** ** Two objects

    An operation on two trees takes both as states of the one free store
    they live in, and returns its results as states of the free store it
    leaves. *)

(** [swap(a, b)]: the root pointers and the counts change places. *)
Definition swap (a b : BinarySearchTree) : BinarySearchTree * BinarySearchTree :=
  (mkBST (store a) (root_ b) (tree_size_ b),
   mkBST (store b) (root_ a) (tree_size_ a)).

(** [~BinarySearchTree()]: the member [root_] is destroyed.  What is left
    is the free store. *)
Definition destructor (s : BinarySearchTree) : option (gmap loc Node) :=
  destroy (fuel_of (store s)) (store s) (root_ s).

(** [BinarySearchTree(BinarySearchTree &&other)]: the new object and
    [other] after the call. *)
Definition move_construct (other : BinarySearchTree)
  : BinarySearchTree * BinarySearchTree :=
  (mkBST (store other) (root_ other) (tree_size_ other),
   mkBST (store other) None 0).

(** [operator=(BinarySearchTree other)] in [this = rhs] with an lvalue
    [rhs]: the parameter [other] is copy-constructed from [rhs], swapped
    with [*this], and destroyed when the function returns. *)
Definition copy_assign (this rhs : BinarySearchTree) : option BinarySearchTree :=
  other ← copy_construct rhs;
  let '(this, other) := swap (with_store (store other) this) other in
  h ← destructor other;
  Some (with_store h this).

(** The same operator in [this = std::move(rhs)], for two distinct
    objects: the parameter is move-constructed from [rhs].  The result is
    [*this] and [rhs] after the call. *)
Definition move_assign_from (this rhs : BinarySearchTree)
  : option (BinarySearchTree * BinarySearchTree) :=
  let '(other, rhs) := move_construct rhs in
  let '(this, other) := swap this other in
  h ← destructor other;
  Some (with_store h this, with_store h rhs).

(** ** Tree builder *)

Context `{Countable T}.

(** [for (int i = 0; i < inorder.size(); ++i) inorder_map[inorder[i]] = i;]
    The body runs once for each element, and [++i] after each run. *)
Fixpoint index_inorder (inorder : list T) (i : Z) (m : gmap T Z)
  : option (gmap T Z) :=
  match inorder with
  | [] => Some m
  | x :: rest =>
    let m := <[x := i]> m in
    i ← int_range (i + 1);
    index_inorder rest i m
  end.

(** [v[i]] for a vector and an [int] index; out of range is undefined. *)
Definition at_index (v : list T) (i : Z) : option T :=
  if bool_decide (0 ≤ i) then v !! Z.to_nat i else None.

(** The result is the store, the advanced [pre_idx] and the owning pointer
    of the subtree built.  [inorder_map.at] throws on a missing key. *)
Fixpoint build_from_pre_in (fuel : nat) (h : gmap loc Node)
    (preorder : list T) (pre_idx : Z) (inorder_map : gmap T Z)
    (in_start in_end : Z) (parent : option loc)
  : option (gmap loc Node * Z * option loc) :=
  if bool_decide (in_start > in_end) then Some (h, pre_idx, None)
  else
    match fuel with
    | O => None
    | S f =>
      root_val ← at_index preorder pre_idx;
      pre_idx ← int_range (pre_idx + 1);
      let '(h, node) := alloc h (mkNode root_val None None parent) in
      in_root_idx ← inorder_map !! root_val;
      left_end ← int_range (in_root_idx - 1);
      '(h, pre_idx, l) ← build_from_pre_in f h preorder pre_idx inorder_map
                            in_start left_end (Some node);
      n ← h !! node;
      let h := <[node := set_left l n]> h in
      right_start ← int_range (in_root_idx + 1);
      '(h, pre_idx, r) ← build_from_pre_in f h preorder pre_idx inorder_map
                            right_start in_end (Some node);
      n ← h !! node;
      let h := <[node := set_right r n]> h in
      Some (h, pre_idx, Some node)
    end.

Fixpoint build_from_post_in (fuel : nat) (h : gmap loc Node)
    (postorder : list T) (post_idx : Z) (inorder_map : gmap T Z)
    (in_start in_end : Z) (parent : option loc)
  : option (gmap loc Node * Z * option loc) :=
  if bool_decide (in_start > in_end) then Some (h, post_idx, None)
  else
    match fuel with
    | O => None
    | S f =>
      root_val ← at_index postorder post_idx;
      post_idx ← int_range (post_idx - 1);
      let '(h, node) := alloc h (mkNode root_val None None parent) in
      in_root_idx ← inorder_map !! root_val;
      right_start ← int_range (in_root_idx + 1);
      '(h, post_idx, r) ← build_from_post_in f h postorder post_idx inorder_map
                             right_start in_end (Some node);
      n ← h !! node;
      let h := <[node := set_right r n]> h in
      left_end ← int_range (in_root_idx - 1);
      '(h, post_idx, l) ← build_from_post_in f h postorder post_idx inorder_map
                             in_start left_end (Some node);
      n ← h !! node;
      let h := <[node := set_left l n]> h in
      Some (h, post_idx, Some node)
    end.

(** [BinarySearchTree(preorder, inorder)].  Every call of the helper that
    builds a node consumes one element of [preorder], so the recursion is
    never deeper than the length of [preorder] plus one. *)
Definition from_pre_in (preorder inorder : list T) : option BinarySearchTree :=
  if bool_decide (length preorder = 0%nat)
     || negb (bool_decide (length preorder = length inorder))
  then Some empty_tree
  else
    inorder_map ← index_inorder inorder 0 ∅;
    '(h, _, root) ← build_from_pre_in (S (length preorder)) ∅ preorder 0
                       inorder_map 0
                       (int_of_size_t (size_decr (Z.of_nat (length inorder))))
                       None;
    Some (mkBST h root (Z.of_nat (length preorder))).

(** [BinarySearchTree(inorder, postorder, bool)]. *)
Definition from_in_post (inorder postorder : list T) : option BinarySearchTree :=
  if bool_decide (length postorder = 0%nat)
     || negb (bool_decide (length postorder = length inorder))
  then Some empty_tree
  else
    inorder_map ← index_inorder inorder 0 ∅;
    '(h, _, root) ← build_from_post_in (S (length postorder)) ∅ postorder
                       (int_of_size_t (size_decr (Z.of_nat (length postorder))))
                       inorder_map 0
                       (int_of_size_t (size_decr (Z.of_nat (length inorder))))
                       None;
    Some (mkBST h root (Z.of_nat (length postorder))).

(** * Specification-level view of a state

    A [tree] records which node sits where: the shape of the node graph,
    with the address and the value of every node. *)

Inductive tree := Leaf | Fork (l : tree) (p : loc) (v : T) (r : tree).

Definition root_of (t : tree) : option loc :=
  match t with Leaf => None | Fork _ p _ _ => Some p end.

(** The nodes in in-order sequence. *)
Fixpoint nodes (t : tree) : list (loc * T) :=
  match t with
  | Leaf => []
  | Fork l p v r => nodes l ++ (p, v) :: nodes r
  end.

Definition locs (t : tree) : list loc := (nodes t).*1.
Definition in_order (t : tree) : list T := (nodes t).*2.

Fixpoint pre_order (t : tree) : list T :=
  match t with
  | Leaf => []
  | Fork l _ v r => v :: pre_order l ++ pre_order r
  end.

Fixpoint post_order (t : tree) : list T :=
  match t with
  | Leaf => []
  | Fork l _ v r => post_order l ++ post_order r ++ [v]
  end.

Fixpoint height (t : tree) : nat :=
  match t with
  | Leaf => O
  | Fork l _ _ r => S (height l `max` height r)
  end.

(** The store holds the nodes of [t], linked as in the C++ structure: child
    pointers to the roots of the subtrees, parent pointer to [par]. *)
Fixpoint repr (h : gmap loc Node) (par : option loc) (t : tree) : Prop :=
  match t with
  | Leaf => True
  | Fork l p v r =>
    h !! p = Some (mkNode v (root_of l) (root_of r) par)
    ∧ repr h (Some p) l ∧ repr h (Some p) r
  end.

(** The ordering invariant of the data model: at every node the values of
    the left subtree are less and those of the right subtree are greater. *)
Fixpoint bst (t : tree) : Prop :=
  match t with
  | Leaf => True
  | Fork l _ v r =>
    Forall (λ x, ltb x v = true) (in_order l)
    ∧ Forall (λ x, ltb v x = true) (in_order r)
    ∧ bst l ∧ bst r
  end.

(** The state [s] is the tree [t]: [root_] owns its root, the store holds
    exactly its nodes, and no address occurs twice. *)
Definition represents (s : BinarySearchTree) (t : tree) : Prop :=
  root_ s = root_of t
  ∧ repr (store s) None t
  ∧ NoDup (locs t)
  ∧ dom (store s) = list_to_set (locs t).

(** The ordering invariant of a state. *)
Definition ordered (s : BinarySearchTree) : Prop :=
  ∃ t, represents s t ∧ bst t.

(** The cached count equals the number of nodes. *)
Definition counted (s : BinarySearchTree) (t : tree) : Prop :=
  tree_size_ s = Z.of_nat (length (nodes t))
  ∧ Z.of_nat (length (nodes t)) < SIZE_MOD.

(** A well-formed state. *)
Definition wf (s : BinarySearchTree) : Prop :=
  ∃ t, represents s t ∧ bst t ∧ counted s t.

(** The object [s] owns the tree [t] in a free store that may hold the
    nodes of other objects as well. *)
Definition owns (s : BinarySearchTree) (t : tree) : Prop :=
  root_ s = root_of t ∧ repr (store s) None t ∧ NoDup (locs t).

(** Equivalence of keys: neither is less than the other. *)
Definition equivb (a b : T) : bool := negb (ltb a b) && negb (ltb b a).

(** ** Positions inside a tree

    A position is a subtree together with the path of frames from it up to
    the root, innermost frame first. *)

Inductive frame :=
  | InL (p : loc) (v : T) (r : tree)   (* the hole is the left child of [p] *)
  | InR (l : tree) (p : loc) (v : T).  (* the hole is the right child of [p] *)

Definition fill (f : frame) (t : tree) : tree :=
  match f with
  | InL p v r => Fork t p v r
  | InR l p v => Fork l p v t
  end.

Fixpoint plug (ctx : list frame) (t : tree) : tree :=
  match ctx with
  | [] => t
  | f :: c => plug c (fill f t)
  end.

Definition frame_loc (f : frame) : loc :=
  match f with InL p _ _ => p | InR _ p _ => p end.

Definition ctx_parent (ctx : list frame) : option loc :=
  match ctx with [] => None | f :: _ => Some (frame_loc f) end.

(** The nodes before and after the hole, in in-order sequence. *)
Fixpoint before (ctx : list frame) : list (loc * T) :=
  match ctx with
  | [] => []
  | InL _ _ _ :: c => before c
  | InR l p v :: c => before c ++ nodes l ++ [(p, v)]
  end.

Fixpoint after (ctx : list frame) : list (loc * T) :=
  match ctx with
  | [] => []
  | InL p v r :: c => (p, v) :: nodes r ++ after c
  | InR _ _ _ :: c => after c
  end.

Fixpoint repr_ctx (h : gmap loc Node) (ctx : list frame) (hole : option loc)
  : Prop :=
  match ctx with
  | [] => True
  | InL p v r :: c =>
    h !! p = Some (mkNode v hole (root_of r) (ctx_parent c))
    ∧ repr h (Some p) r ∧ repr_ctx h c (Some p)
  | InR l p v :: c =>
    h !! p = Some (mkNode v (root_of l) hole (ctx_parent c))
    ∧ repr h (Some p) l ∧ repr_ctx h c (Some p)
  end.

(** The owning slot of the hole. *)
Definition hole_link (ctx : list frame) : link :=
  match ctx with
  | [] => root_link
  | InL p _ _ :: _ => left_link p
  | InR _ p _ :: _ => right_link p
  end.

Fixpoint top_root (ctx : list frame) (hole : option loc) : option loc :=
  match ctx with
  | [] => hole
  | f :: c => top_root c (Some (frame_loc f))
  end.

(** The search path of [key] from a position downwards. *)
Fixpoint descend (key : T) (ctx : list frame) (t : tree) : list frame * tree :=
  match t with
  | Leaf => (ctx, Leaf)
  | Fork l p v r =>
    if ltb key v then descend key (InL p v r :: ctx) l
    else if ltb v key then descend key (InR l p v :: ctx) r
    else (ctx, t)
  end.

(** The position of the leftmost node below a position. *)
Fixpoint leftmost (ctx : list frame) (t : tree) : list frame * tree :=
  match t with
  | Leaf => (ctx, Leaf)
  | Fork l p v r =>
    match l with
    | Leaf => (ctx, t)
    | Fork _ _ _ _ => leftmost (InL p v r :: ctx) l
    end
  end.

(** ** Auxiliary notions of the proofs *)

(** The addresses of the nodes around the hole. *)
Definition ctx_locs (ctx : list frame) : list loc :=
  (before ctx).*1 ++ (after ctx).*1.

(** Every frame of a search path records the comparison that chose it. *)
Definition frame_cmp (key : T) (f : frame) : Prop :=
  match f with
  | InL _ v _ => ltb key v = true
  | InR _ _ v => ltb key v = false ∧ ltb v key = true
  end.

(** [a < b] as a proposition. *)
Definition lt (a b : T) : Prop := ltb a b = true.

(** A move assignment to a lesser object that leaves the object it moved
    from below everything its value was below: a move that is a copy (as for
    [int]), a move that leaves an equivalent value, a move by exchange, or
    one that leaves the least value of the type (as the empty string among
    strings in ascending order). *)
Definition move_keeps_below : Prop :=
  ∀ a b y : T,
    ltb a b = true → ltb b y = true → ltb (moved_from a b) y = true.

(** The update of the child pointer of a frame's node that faces the hole. *)
Definition set_child (f : frame) (v : option loc) (n : Node) : Node :=
  match f with
  | InL _ _ _ => set_left v n
  | InR _ _ _ => set_right v n
  end.

(** The removal of a node with at most one child, as both [erase] and
    [erase_node_recursive] perform it: the child, if there is one, gets the
    parent of the node, and the slot [k] that owns the node takes the child
    over. *)
Definition unlink (s : BinarySearchTree) (e : loc) (k : link)
  : option BinarySearchTree :=
  n ← store s !! e;
  let child := if left n is Some _ then left_link e else right_link e in
  ch ← read_link s child;
  s1 ← match ch with
       | None => Some s
       | Some q =>
         cn ← store s !! q;
         Some (with_store (<[q := set_parent (parent n) cn]> (store s)) s)
       end;
  move_assign s1 k child.

(** Two trees with the same shape and the same values, whatever the
    addresses of their nodes. *)
Fixpoint same_values (t t' : tree) : Prop :=
  match t, t' with
  | Leaf, Leaf => True
  | Fork l _ v r, Fork l' _ v' r' =>
    v = v' ∧ same_values l l' ∧ same_values r r'
  | _, _ => False
  end.

(** What a copying function achieves on the subtree [t]: called on a new
    node [c] that holds the value of the root [o] of [t] and has no
    children yet, it builds below [c] a tree with the shape and the values
    of [t] out of new nodes, and changes no other node. *)
Definition copies (copy : gmap loc Node → loc → loc → option (gmap loc Node))
    (t : tree) : Prop :=
  match t with
  | Leaf => True
  | Fork l o v r =>
    ∀ h par c pc,
      repr h par (Fork l o v r) → h !! c = Some (mkNode v None None pc) →
      c ∉ locs (Fork l o v r) →
      ∃ h' l' r',
        copy h c o = Some h'
        ∧ same_values l l' ∧ same_values r r'
        ∧ repr h' pc (Fork l' c v r')
        ∧ NoDup (locs l' ++ locs r')
        ∧ (∀ q, q ∈ locs l' ++ locs r' → q ∉ dom h)
        ∧ dom h' = dom h ∪ list_to_set (locs l' ++ locs r')
        ∧ (∀ q, q ∈ dom h → q ≠ c → h' !! q = h !! q)
  end.

End Model.

(** [int] elements, as in the test suite: a move is a copy. *)
#[export] Instance Z_LessThan : LessThan Z := Z.ltb.
#[export] Instance Z_Movable : Movable Z := λ _ x, x.

(** Integers of an element type that owns its digits (a big integer over a
    [std::vector], say): a move takes the digits away and leaves zero. *)
Definition zeroing_move : Movable Z := λ _ _, 0.

(** The trees built from [{-10, -20, -3, -5, 0}] and from
    [{-10, -20, -3, -5, -1}]: the root [-10] has two children and its
    successor is [-5]. *)
Definition negatives_shape (last : Z) : tree (T := Z) :=
  Fork (Fork Leaf 2%positive (-20) Leaf) 1%positive (-10)
       (Fork (Fork Leaf 4%positive (-5) Leaf) 3%positive (-3)
             (Fork Leaf 5%positive last Leaf)).

(** The tree [{10, 5, 15}] of the test suite: the state the initializer-list
    constructor leaves, and its shape. *)
Definition example_state : BinarySearchTree (T := Z) :=
  mkBST (<[3%positive := mkNode 15 None None (Some 1%positive)]>
         (<[2%positive := mkNode 5 None None (Some 1%positive)]>
          (<[1%positive := mkNode 10 (Some 2%positive) (Some 3%positive) None]>
           ∅)))
        (Some 1%positive) 3.

Definition example_shape : tree (T := Z) :=
  Fork (Fork Leaf 2%positive 5 Leaf) 1%positive 10 (Fork Leaf 3%positive 15 Leaf).

(** A binary tree that is not a search tree: [7] sits to the left of [3]. *)
Definition unordered_shape : tree (T := Z) :=
  Fork (Fork Leaf 2%positive 7 Leaf) 1%positive 3 Leaf.

(** Two objects in one free store: beside the nodes of [example_state],
    a second tree with the elements [20] and [30]. *)
Definition two_trees_store : gmap loc (Node (T := Z)) :=
  <[5%positive := mkNode 30 None None (Some 4%positive)]>
    (<[4%positive := mkNode 20 None (Some 5%positive) None]>
       (store example_state)).

Definition example_this : BinarySearchTree (T := Z) :=
  mkBST two_trees_store (Some 4%positive) 2.

Definition example_rhs : BinarySearchTree (T := Z) :=
  mkBST two_trees_store (Some 1%positive) 3.

Definition example_this_shape : tree (T := Z) :=
  Fork Leaf 4%positive 20 (Fork Leaf 5%positive 30 Leaf).

Section Proofs.

Context {T : Type} {less : LessThan T} {move : Movable T} `{Countable T}.

Implicit Types (s : @BinarySearchTree T) (t l r : @tree T).
Implicit Types (ctx : list (@frame T)) (h : gmap loc (@Node T)).
Implicit Types (key val : T) (it : base_iterator).

(** ** Basic facts *)

Lemma nodes_plug ctx t : nodes (plug ctx t) = before ctx ++ nodes t ++ after ctx.
Proof.
  revert t. induction ctx as [|[p v r|l p v] c IH]; intros t; simpl.
  - by rewrite app_nil_r.
  - rewrite IH. simpl. by rewrite <- !app_assoc.
  - rewrite IH. simpl. by rewrite <- !app_assoc.
Qed.

Lemma root_of_plug ctx t : root_of (plug ctx t) = top_root ctx (root_of t).
Proof.
  revert t. induction ctx as [|f c IH]; intros t; simpl; [done|].
  rewrite IH. by destruct f.
Qed.

Lemma repr_plug h ctx t :
  repr h None (plug ctx t) ↔ repr h (ctx_parent ctx) t ∧ repr_ctx h ctx (root_of t).
Proof.
  revert t. induction ctx as [|[p v r|l p v] c IH]; intros t; simpl.
  - tauto.
  - rewrite IH. simpl. tauto.
  - rewrite IH. simpl. tauto.
Qed.

Lemma repr_agree h h' par t :
  (∀ q, q ∈ locs t → h' !! q = h !! q) → repr h par t → repr h' par t.
Proof.
  revert par. induction t as [|l IHl p v r IHr]; intros par Hag; simpl; [done|].
  intros (Hp & Hl & Hr).
  unfold locs in *. simpl in Hag. rewrite fmap_app in Hag. simpl in Hag.
  split_and!.
  - rewrite Hag; [done|]. set_solver.
  - apply IHl; [|done]. intros q Hq. apply Hag. set_solver.
  - apply IHr; [|done]. intros q Hq. apply Hag. set_solver.
Qed.

Lemma repr_ctx_agree h h' ctx hole :
  (∀ q, q ∈ ctx_locs ctx → h' !! q = h !! q) →
  repr_ctx h ctx hole → repr_ctx h' ctx hole.
Proof.
  revert hole. unfold ctx_locs.
  induction ctx as [|[p v r|l p v] c IH]; intros hole Hag; simpl; [done| |].
  - intros (Hp & Hr & Hc). simpl in Hag. rewrite !fmap_app in Hag.
    split_and!.
    + rewrite Hag; [done|]. set_solver.
    + eapply repr_agree; [|done]. intros q Hq. apply Hag.
      unfold locs in Hq. set_solver.
    + apply IH; [|done]. intros q Hq. apply Hag. set_solver.
  - intros (Hp & Hl & Hc). simpl in Hag. rewrite !fmap_app in Hag.
    simpl in Hag. split_and!.
    + rewrite Hag; [done|]. set_solver.
    + eapply repr_agree; [|done]. intros q Hq. apply Hag.
      unfold locs in Hq. set_solver.
    + apply IH; [|done]. intros q Hq. apply Hag. set_solver.
Qed.

Lemma repr_lookup h par t q v :
  repr h par t → (q, v) ∈ nodes t → ∃ n, h !! q = Some n ∧ data n = v.
Proof.
  revert par. induction t as [|l IHl p w r IHr]; intros par; simpl.
  - intros _ Hin. by apply not_elem_of_nil in Hin.
  - intros (Hp & Hl & Hr) Hin.
    apply elem_of_app in Hin as [Hin|Hin]; [by eapply IHl|].
    apply elem_of_cons in Hin as [Heq|Hin]; [|by eapply IHr].
    simplify_eq. eauto.
Qed.

Lemma repr_dom h par t q : repr h par t → q ∈ locs t → q ∈ dom h.
Proof.
  intros Hr Hq. unfold locs in Hq.
  apply list_elem_of_fmap in Hq as ([q' v] & -> & Hin).
  destruct (repr_lookup _ _ _ _ _ Hr Hin) as (n & Hn & _).
  apply elem_of_dom. eauto.
Qed.

Lemma height_le_nodes t : (height t ≤ length (nodes t))%nat.
Proof.
  induction t as [|l IHl p v r IHr]; simpl; [lia|].
  rewrite length_app. simpl. lia.
Qed.

Lemma length_ctx_le ctx t :
  (length ctx + length (nodes t) ≤ length (nodes (plug ctx t)))%nat.
Proof.
  revert t. induction ctx as [|[p v r|l p v] c IH]; intros t; simpl; [lia| |].
  - etrans; [|apply IH]. simpl. rewrite length_app. simpl. lia.
  - etrans; [|apply IH]. simpl. rewrite length_app. simpl. lia.
Qed.

Lemma represents_fuel s t :
  represents s t → (length (nodes t) < fuel_of (store s))%nat.
Proof.
  intros (_ & _ & Hnd & Hdom). unfold fuel_of.
  rewrite <- size_dom, Hdom, size_list_to_set by done.
  unfold locs. rewrite length_fmap. lia.
Qed.

Lemma fuel_of_S h : fuel_of h = S (base.size h).
Proof. done. Qed.

#[local] Opaque fuel_of.

(** ** The search path *)

Lemma descend_plug key ctx t :
  plug (descend key ctx t).1 (descend key ctx t).2 = plug ctx t.
Proof.
  revert ctx. induction t as [|l IHl p v r IHr]; intros ctx; simpl; [done|].
  destruct (ltb key v); [by rewrite IHl|].
  destruct (ltb v key); [by rewrite IHr|done].
Qed.

Lemma descend_app key ctx t :
  descend key ctx t = ((descend key [] t).1 ++ ctx, (descend key [] t).2).
Proof.
  revert ctx. induction t as [|l IHl p v r IHr]; intros ctx; simpl; [done|].
  destruct (ltb key v).
  { rewrite (IHl (_ :: ctx)), (IHl [_]). simpl. by rewrite <- app_assoc. }
  destruct (ltb v key); [|done].
  rewrite (IHr (_ :: ctx)), (IHr [_]). simpl. by rewrite <- app_assoc.
Qed.

Lemma descend_found key ctx t l p v r :
  (descend key ctx t).2 = Fork l p v r → equivb key v = true.
Proof.
  revert ctx. induction t as [|l' IHl p' v' r' IHr]; intros ctx; simpl; [done|].
  destruct (ltb key v') eqn:E1; [by apply IHl|].
  destruct (ltb v' key) eqn:E2; [by apply IHr|].
  simpl. intros [= -> -> -> ->]. unfold equivb. by rewrite E1, E2.
Qed.

Lemma find_node_descend h par t fuel key ctx :
  repr h par t → (height t < fuel)%nat →
  find_node fuel h (root_of t) key = Some (root_of (descend key ctx t).2).
Proof.
  revert par fuel ctx.
  induction t as [|l IHl p v r IHr]; intros par fuel ctx; simpl.
  { by destruct fuel. }
  intros (Hp & Hl & Hr) Hf. destruct fuel as [|f]; [lia|]. simpl.
  rewrite Hp. simpl.
  destruct (ltb key v); [eapply IHl; [done|lia]|].
  destruct (ltb v key); [eapply IHr; [done|lia]|done].
Qed.

Lemma emplace_loop_descend h par t fuel val ctx :
  repr h par t → (height t < fuel)%nat →
  emplace_loop fuel h (root_of t) (ctx_parent ctx) val
  = Some (match (descend val ctx t).2 with
          | Leaf => inr (ctx_parent (descend val ctx t).1)
          | Fork _ p _ _ => inl p
          end).
Proof.
  revert par fuel ctx.
  induction t as [|l IHl p v r IHr]; intros par fuel ctx; simpl.
  { by destruct fuel. }
  intros (Hp & Hl & Hr) Hf. destruct fuel as [|f]; [lia|]. simpl.
  rewrite Hp. simpl.
  destruct (ltb val v).
  { rewrite <- (IHl (Some p) f (InL p v r :: ctx)); [done|done|lia]. }
  destruct (ltb v val); [|done].
  rewrite <- (IHr (Some p) f (InR l p v :: ctx)); [done|done|lia].
Qed.

Lemma descend_cmp key ctx t :
  Forall (frame_cmp key) ctx → Forall (frame_cmp key) (descend key ctx t).1.
Proof.
  revert ctx. induction t as [|l IHl p v r IHr]; intros ctx Hc; simpl; [done|].
  destruct (ltb key v) eqn:E1; [apply IHl; by constructor|].
  destruct (ltb v key) eqn:E2; [apply IHr; by constructor|done].
Qed.

(** ** Ordering and the in-order sequence *)

Hypothesis ltb_trans : ∀ a b c, ltb a b = true → ltb b c = true → ltb a c = true.

Lemma bst_sorted t : bst t ↔ StronglySorted lt (in_order t).
Proof.
  unfold in_order. induction t as [|l IHl p v r IHr]; simpl.
  { split; [constructor|done]. }
  rewrite fmap_app. simpl. split.
  - intros (Hl & Hr & Bl & Br).
    apply StronglySorted_app_2.
    + intros x y Hx Hy. apply elem_of_cons in Hy as [->|Hy].
      * by eapply Forall_forall in Hl.
      * eapply ltb_trans; [by eapply Forall_forall in Hl|].
        by eapply Forall_forall in Hr.
    + by apply IHl.
    + constructor; [by apply IHr|done].
  - intros Hs. apply StronglySorted_app in Hs as (Hlr & Sl & Sr).
    apply StronglySorted_inv in Sr as [Sr Hr].
    split_and!; [|done|by apply IHl|by apply IHr].
    apply Forall_forall. intros x Hx. apply Hlr; [done|]. by left.
Qed.

Lemma sorted_app_del (l1 l2 l3 : list T) :
  StronglySorted lt (l1 ++ l2 ++ l3) → StronglySorted lt (l1 ++ l3).
Proof.
  intros Hs. apply StronglySorted_app in Hs as (H13 & S1 & S23).
  apply StronglySorted_app in S23 as (H23 & S2 & S3).
  apply StronglySorted_app_2; [|done..].
  intros x y Hx Hy. apply H13; [done|]. apply elem_of_app. by right.
Qed.

Lemma sorted_app_ins (l1 l3 : list T) x :
  StronglySorted lt (l1 ++ l3) →
  Forall (λ y, lt y x) l1 → Forall (λ y, lt x y) l3 →
  StronglySorted lt (l1 ++ x :: l3).
Proof.
  intros Hs H1 H3. apply StronglySorted_app in Hs as (H13 & S1 & S3).
  apply StronglySorted_app_2; [|done|by constructor].
  intros a b Ha Hb. apply elem_of_cons in Hb as [->|Hb].
  - by eapply Forall_forall in H1.
  - by apply H13.
Qed.

Lemma in_order_plug ctx t :
  in_order (plug ctx t) = (before ctx).*2 ++ in_order t ++ (after ctx).*2.
Proof. unfold in_order. by rewrite nodes_plug, !fmap_app. Qed.

Lemma locs_plug ctx t :
  locs (plug ctx t) = (before ctx).*1 ++ locs t ++ (after ctx).*1.
Proof. unfold locs. by rewrite nodes_plug, !fmap_app. Qed.

Lemma locs_plug_perm ctx t : locs (plug ctx t) ≡ₚ locs t ++ ctx_locs ctx.
Proof.
  rewrite locs_plug. unfold ctx_locs. rewrite !(assoc_L (++)).
  f_equiv. apply Permutation_app_comm.
Qed.

(** The values along a search path bound the key from both sides. *)
Lemma path_bounds key ctx :
  Forall (frame_cmp key) ctx →
  StronglySorted lt ((before ctx).*2 ++ (after ctx).*2) →
  Forall (λ x, lt x key) (before ctx).*2 ∧ Forall (λ x, lt key x) (after ctx).*2.
Proof.
  induction ctx as [|[p v r|l p v] c IH]; simpl; [by split|..].
  - intros Hc Hs. apply Forall_cons in Hc as [Hv Hc]. simpl in Hv.
    rewrite fmap_app in Hs.
    assert (StronglySorted lt ((before c).*2 ++ (after c).*2)) as Hs'.
    { apply (sorted_app_del _ (v :: (nodes r).*2)). exact Hs. }
    destruct (IH Hc Hs') as [Hb Ha]. split; [done|].
    apply StronglySorted_app in Hs as (_ & _ & Hs).
    apply StronglySorted_inv in Hs as [_ Hs].
    constructor; [done|]. rewrite fmap_app. apply Forall_app. split; [|done].
    apply Forall_app in Hs as [Hs _].
    eapply Forall_impl; [exact Hs|]. intros x Hx. simpl in Hx.
    by eapply ltb_trans.
  - intros Hc Hs. apply Forall_cons in Hc as [[Hv1 Hv2] Hc].
    rewrite !fmap_app in Hs. simpl in Hs. rewrite <- !app_assoc in Hs.
    assert (StronglySorted lt ((before c).*2 ++ (after c).*2)) as Hs'.
    { apply (sorted_app_del _ ((nodes l).*2 ++ [v])).
      by rewrite <- app_assoc. }
    destruct (IH Hc Hs') as [Hb Ha]. split; [|done].
    rewrite !fmap_app. simpl. rewrite !Forall_app. split_and!; [done| |].
    + apply StronglySorted_app in Hs as (_ & _ & Hs).
      apply StronglySorted_app in Hs as (Hs & _ & _).
      apply Forall_forall. intros x Hx. eapply ltb_trans; [|exact Hv2].
      apply Hs; [done|]. set_solver.
    + by constructor.
Qed.

(** ** Store updates at a position *)

Lemma repr_ctx_head h f c hole :
  repr_ctx h (f :: c) hole → is_Some (h !! frame_loc f).
Proof. destruct f; simpl; intros (-> & _); eauto. Qed.

Lemma repr_ctx_set_hole h f c hole hole' n :
  repr_ctx h (f :: c) hole → NoDup (ctx_locs (f :: c)) →
  h !! frame_loc f = Some n →
  repr_ctx (<[frame_loc f := set_child f hole' n]> h) (f :: c) hole'.
Proof.
  unfold ctx_locs. destruct f as [p v r|l p v]; simpl.
  - intros (Hp & Hr & Hc) Hnd Hn. rewrite Hp in Hn. simplify_eq.
    rewrite fmap_app in Hnd.
    assert (p ∉ (before c).*1 ++ (nodes r).*1 ++ (after c).*1) as Hnin.
    { apply NoDup_app in Hnd as (_ & Hd & Hnd).
      apply NoDup_cons in Hnd as [Hnp _].
      intros Hin. apply elem_of_app in Hin as [Hin|Hin]; [|done].
      apply (Hd p Hin). by left. }
    split_and!.
    + by rewrite lookup_insert_eq.
    + eapply repr_agree; [|done]. intros q Hq.
      apply lookup_insert_ne. intros ->. apply Hnin. unfold locs in Hq.
      set_solver.
    + eapply repr_ctx_agree; [|done]. intros q Hq.
      apply lookup_insert_ne. intros ->. apply Hnin. unfold ctx_locs in Hq.
      set_solver.
  - intros (Hp & Hl & Hc) Hnd Hn. rewrite Hp in Hn. simplify_eq.
    rewrite !fmap_app in Hnd. simpl in Hnd.
    assert (p ∉ (before c).*1 ++ (nodes l).*1 ++ (after c).*1) as Hnin.
    { rewrite <- !app_assoc in Hnd.
      apply NoDup_app in Hnd as (_ & Hd1 & Hnd).
      apply NoDup_app in Hnd as (_ & Hd2 & Hnd).
      apply NoDup_cons in Hnd as [Hnp _].
      intros Hin. apply elem_of_app in Hin as [Hin|Hin].
      { apply (Hd1 p Hin). set_solver. }
      apply elem_of_app in Hin as [Hin|Hin]; [|done].
      apply (Hd2 p Hin). by left. }
    split_and!.
    + by rewrite lookup_insert_eq.
    + eapply repr_agree; [|done]. intros q Hq.
      apply lookup_insert_ne. intros ->. apply Hnin. unfold locs in Hq.
      set_solver.
    + eapply repr_ctx_agree; [|done]. intros q Hq.
      apply lookup_insert_ne. intros ->. apply Hnin. unfold ctx_locs in Hq.
      set_solver.
Qed.

Lemma repr_ctx_dom h ctx hole q :
  repr_ctx h ctx hole → q ∈ ctx_locs ctx → q ∈ dom h.
Proof.
  revert hole. unfold ctx_locs.
  induction ctx as [|[p v r|l p v] c IH]; intros hole; simpl.
  - intros _ Hq. set_solver.
  - intros (Hp & Hr & Hc) Hq. rewrite fmap_app in Hq.
    assert (q ∈ (before c).*1 ++ (after c).*1 ∨ q = p ∨ q ∈ locs r) as Hcase.
    { unfold locs. set_solver. }
    destruct Hcase as [Hq'|[->|Hq']].
    + by eapply IH.
    + apply elem_of_dom. eauto.
    + by eapply repr_dom.
  - intros (Hp & Hl & Hc) Hq. rewrite !fmap_app in Hq. simpl in Hq.
    assert (q ∈ (before c).*1 ++ (after c).*1 ∨ q = p ∨ q ∈ locs l) as Hcase.
    { unfold locs. set_solver. }
    destruct Hcase as [Hq'|[->|Hq']].
    + by eapply IH.
    + apply elem_of_dom. eauto.
    + by eapply repr_dom.
Qed.

Lemma represents_plug s ctx t :
  represents s (plug ctx t) ↔
  root_ s = top_root ctx (root_of t)
  ∧ repr (store s) (ctx_parent ctx) t
  ∧ repr_ctx (store s) ctx (root_of t)
  ∧ NoDup (locs t ++ ctx_locs ctx)
  ∧ dom (store s) = list_to_set (locs t ++ ctx_locs ctx).
Proof.
  unfold represents.
  assert (list_to_set (locs (plug ctx t))
          = (list_to_set (locs t ++ ctx_locs ctx) : gset loc)) as ->.
  { apply set_eq. intros q. rewrite !elem_of_list_to_set.
    by rewrite (locs_plug_perm ctx t). }
  rewrite root_of_plug, repr_plug, (locs_plug_perm ctx t).
  tauto.
Qed.

Lemma top_root_Some ctx q : is_Some (top_root ctx (Some q)).
Proof. revert q. induction ctx as [|f c IH]; intros q; simpl; eauto. Qed.

Lemma represents_height s t :
  represents s t → (height t < fuel_of (store s))%nat.
Proof.
  intros Hr. apply represents_fuel in Hr. pose proof (height_le_nodes t). lia.
Qed.

(** ** [emplace] *)

Lemma emplace_loop_root h t fuel val :
  repr h None t → (height t < fuel)%nat →
  emplace_loop fuel h (root_of t) None val
  = Some (match (descend val [] t).2 with
          | Leaf => inr (ctx_parent (descend val [] t).1)
          | Fork _ p _ _ => inl p
          end).
Proof. apply (emplace_loop_descend h None t fuel val []). Qed.

Lemma emplace_present s t val ctx l p v r :
  represents s t → descend val [] t = (ctx, Fork l p v r) →
  emplace val s = Some (s, (mkIt (Some p) true, false)).
Proof.
  intros Hrep Hd. pose proof (represents_height _ _ Hrep) as Hf.
  destruct Hrep as (Hroot & Hrepr & _).
  unfold emplace. destruct t as [|tl tp tv tr]; [by simplify_eq/=|].
  rewrite Hroot. simpl root_of at 1. cbv iota.
  change (Some tp) with (root_of (Fork tl tp tv tr)).
  erewrite emplace_loop_root by done. by rewrite Hd.
Qed.

Lemma emplace_absent s t val ctx :
  represents s t → descend val [] t = (ctx, Leaf) →
  ∃ s', emplace val s
        = Some (s', (mkIt (Some (fresh (dom (store s)))) true, true))
      ∧ represents s' (plug ctx (Fork Leaf (fresh (dom (store s))) val Leaf))
      ∧ tree_size_ s' = size_incr (tree_size_ s).
Proof.
  intros Hrep Hd. pose proof (represents_height _ _ Hrep) as Hf.
  pose proof (descend_plug val [] t) as Hplug. rewrite Hd in Hplug.
  simpl in Hplug.
  pose proof (descend_cmp val [] t (Forall_nil_2 _)) as Hcmp.
  rewrite Hd in Hcmp. simpl in Hcmp.
  assert (emplace_loop (fuel_of (store s)) (store s) (root_ s) None val
          = Some (inr (ctx_parent ctx))) as Hloop.
  { destruct Hrep as (-> & Hrepr & _).
    erewrite emplace_loop_root by done. by rewrite Hd. }
  rewrite <- Hplug in Hrep. apply represents_plug in Hrep.
  destruct Hrep as (Hroot & _ & Hctx & Hnd & Hdom).
  simpl in Hroot, Hnd, Hdom.
  set (new := fresh (dom (store s))).
  assert (new ∉ dom (store s)) as Hnew by apply is_fresh.
  assert (new ∉ ctx_locs ctx) as Hnew'.
  { intros Hin. apply Hnew. by eapply repr_ctx_dom. }
  destruct ctx as [|f c].
  - (* the tree is empty *)
    unfold emplace. rewrite Hroot. simpl. fold new.
    eexists. split; [done|]. split; [|done].
    apply (represents_plug _ [] (Fork Leaf new val Leaf)). simpl.
    split_and!; try done.
    + by rewrite lookup_insert_eq.
    + apply NoDup_singleton.
    + rewrite dom_insert_L, Hdom. set_solver.
  - destruct (repr_ctx_head _ _ _ _ Hctx) as [pn Hpn].
    unfold emplace. destruct (top_root_Some c (frame_loc f)) as [rt Hrt].
    simpl in Hroot. rewrite Hroot, Hrt. cbv iota.
    rewrite <- Hrt, <- Hroot, Hloop. simpl. rewrite Hpn. simpl. fold new.
    assert (new ≠ frame_loc f) as Hne.
    { intros Heq. apply Hnew. rewrite Heq. apply elem_of_dom. eauto. }
    set (h1 := <[new := mkNode val None None (Some (frame_loc f))]> (store s)).
    assert ((if ltb val (data pn)
             then <[frame_loc f := set_left (Some new) pn]> h1
             else <[frame_loc f := set_right (Some new) pn]> h1)
            = <[frame_loc f := set_child f (Some new) pn]> h1) as ->.
    { apply Forall_cons in Hcmp as [Hf' _].
      destruct f as [p v r|l p v]; simpl in *.
      - destruct Hctx as (Hp & _). rewrite Hp in Hpn. simplify_eq. simpl.
        by rewrite Hf'.
      - destruct Hctx as (Hp & _). rewrite Hp in Hpn. simplify_eq. simpl.
        by rewrite (proj1 Hf'). }
    eexists. split; [done|]. split; [|done].
    apply (represents_plug _ (f :: c) (Fork Leaf new val Leaf)). simpl.
    split_and!; try done.
    + rewrite lookup_insert_ne by done. unfold h1. by rewrite lookup_insert_eq.
    + apply (repr_ctx_set_hole _ _ _ None); [|done|].
      * eapply repr_ctx_agree; [|done]. intros q Hq. unfold h1.
        apply lookup_insert_ne. by intros ->.
      * unfold h1. by rewrite lookup_insert_ne.
    + by apply NoDup_cons.
    + rewrite dom_insert_lookup_L.
      2:{ unfold h1. rewrite lookup_insert_ne by done. eauto. }
      unfold h1. by rewrite dom_insert_L, Hdom.
Qed.

Lemma emplace_absent_bst ctx new val :
  Forall (frame_cmp val) ctx →
  bst (plug ctx Leaf) → bst (plug ctx (Fork Leaf new val Leaf)).
Proof.
  rewrite !bst_sorted, !in_order_plug. simpl. intros Hcmp Hs.
  destruct (path_bounds _ _ Hcmp Hs) as [Hb Ha].
  by apply sorted_app_ins.
Qed.

(** ** Traversals *)

Lemma in_order_helper_repr h par t fuel :
  repr h par t → (height t < fuel)%nat →
  in_order_helper fuel h (root_of t) = Some (in_order t).
Proof.
  revert par fuel. unfold in_order.
  induction t as [|l IHl p v r IHr]; intros par fuel; simpl.
  { by destruct fuel. }
  intros (Hp & Hl & Hr) Hf. destruct fuel as [|f]; [lia|]. simpl.
  rewrite Hp. simpl.
  rewrite (IHl (Some p)) by (done || lia). simpl.
  rewrite (IHr (Some p)) by (done || lia). simpl.
  by rewrite fmap_app.
Qed.

Lemma pre_order_helper_repr h par t fuel :
  repr h par t → (height t < fuel)%nat →
  pre_order_helper fuel h (root_of t) = Some (pre_order t).
Proof.
  revert par fuel.
  induction t as [|l IHl p v r IHr]; intros par fuel; simpl.
  { by destruct fuel. }
  intros (Hp & Hl & Hr) Hf. destruct fuel as [|f]; [lia|]. simpl.
  rewrite Hp. simpl.
  rewrite (IHl (Some p)) by (done || lia). simpl.
  by rewrite (IHr (Some p)) by (done || lia).
Qed.

Lemma post_order_helper_repr h par t fuel :
  repr h par t → (height t < fuel)%nat →
  post_order_helper fuel h (root_of t) = Some (post_order t).
Proof.
  revert par fuel.
  induction t as [|l IHl p v r IHr]; intros par fuel; simpl.
  { by destruct fuel. }
  intros (Hp & Hl & Hr) Hf. destruct fuel as [|f]; [lia|]. simpl.
  rewrite Hp. simpl.
  rewrite (IHl (Some p)) by (done || lia). simpl.
  by rewrite (IHr (Some p)) by (done || lia).
Qed.

Lemma in_order_traversal_represents s t :
  represents s t → in_order_traversal s = Some (in_order t).
Proof.
  intros Hrep. pose proof (represents_height _ _ Hrep).
  destruct Hrep as (Hroot & Hrepr & _). unfold in_order_traversal.
  rewrite Hroot. by eapply in_order_helper_repr.
Qed.

Lemma pre_order_traversal_represents s t :
  represents s t → pre_order_traversal s = Some (pre_order t).
Proof.
  intros Hrep. pose proof (represents_height _ _ Hrep).
  destruct Hrep as (Hroot & Hrepr & _). unfold pre_order_traversal.
  rewrite Hroot. by eapply pre_order_helper_repr.
Qed.

Lemma post_order_traversal_represents s t :
  represents s t → post_order_traversal s = Some (post_order t).
Proof.
  intros Hrep. pose proof (represents_height _ _ Hrep).
  destruct Hrep as (Hroot & Hrepr & _). unfold post_order_traversal.
  rewrite Hroot. by eapply post_order_helper_repr.
Qed.

(** A state is the tree of at most one shape. *)
Lemma repr_functional h par t1 t2 :
  repr h par t1 → repr h par t2 → root_of t1 = root_of t2 → t1 = t2.
Proof.
  revert par t2. induction t1 as [|l1 IHl p1 v1 r1 IHr]; intros par t2.
  - destruct t2; [done|]. by simpl.
  - destruct t2 as [|l2 p2 v2 r2]; [by simpl|]. simpl.
    intros (Hp1 & Hl1 & Hr1) (Hp2 & Hl2 & Hr2) [= ->].
    rewrite Hp1 in Hp2. injection Hp2 as -> Hl Hr.
    f_equal; [by eapply IHl|by eapply IHr].
Qed.

Lemma represents_functional s t1 t2 :
  represents s t1 → represents s t2 → t1 = t2.
Proof.
  intros (Hr1 & Hp1 & _) (Hr2 & Hp2 & _).
  eapply repr_functional; [done|done|congruence].
Qed.

(** ** The outcome of one insertion *)

Lemma descend_elem key t l p v r ctx :
  descend key [] t = (ctx, Fork l p v r) → (p, v) ∈ nodes t.
Proof.
  intros Hd. pose proof (descend_plug key [] t) as Hp. rewrite Hd in Hp.
  simpl in Hp. rewrite <- Hp, nodes_plug. simpl.
  rewrite !elem_of_app, elem_of_cons. tauto.
Qed.

Lemma emplace_spec val s t :
  represents s t → bst t →
  ∃ s' it b t',
    emplace val s = Some (s', (it, b)) ∧ represents s' t' ∧ bst t'
    ∧ ((b = false ∧ s' = s ∧ t' = t
        ∧ ∃ p v, ptr_ it = Some p ∧ (p, v) ∈ nodes t ∧ equivb val v = true)
       ∨ (b = true ∧ tree_size_ s' = size_incr (tree_size_ s)
          ∧ ∃ p xs ys, ptr_ it = Some p ∧ nodes t = xs ++ ys
                       ∧ nodes t' = xs ++ (p, val) :: ys)).
Proof.
  intros Hrep Hbst.
  destruct (descend val [] t) as [ctx [|l p v r]] eqn:Hd.
  - destruct (emplace_absent _ _ _ _ Hrep Hd) as (s' & He & Hrep' & Hsz).
    eexists s', _, true, _. split; [exact He|]. split; [exact Hrep'|].
    pose proof (descend_plug val [] t) as Hp. rewrite Hd in Hp. simpl in Hp.
    split.
    + apply emplace_absent_bst.
      * pose proof (descend_cmp val [] t (Forall_nil_2 _)) as Hc.
        by rewrite Hd in Hc.
      * by rewrite Hp.
    + right. split; [done|]. split; [done|].
      eexists _, (before ctx), (after ctx). split; [done|].
      rewrite <- Hp at 1. by rewrite !nodes_plug.
  - exists s, (mkIt (Some p) true), false, t.
    split; [by eapply emplace_present|]. split; [done|]. split; [done|].
    left. split_and!; try done. exists p, v. split_and!; [done| |].
    + by eapply descend_elem.
    + eapply (descend_found val [] t). by rewrite Hd.
Qed.

(** ** Walking along the in-order sequence *)

Lemma root_of_locs t p : root_of t = Some p → p ∈ locs t.
Proof.
  destruct t as [|l q v r]; [done|]. intros [= ->]. unfold locs. simpl.
  rewrite fmap_app. set_solver.
Qed.

Lemma ctx_locs_InL p v r c :
  ctx_locs (InL p v r :: c) ≡ₚ p :: locs r ++ ctx_locs c.
Proof.
  unfold ctx_locs, locs. simpl. rewrite fmap_app.
  rewrite <- Permutation_middle. f_equiv.
  rewrite !(assoc_L (++)). f_equiv. apply Permutation_app_comm.
Qed.

Lemma ctx_locs_InR l p v c :
  ctx_locs (InR l p v :: c) ≡ₚ p :: locs l ++ ctx_locs c.
Proof.
  unfold ctx_locs, locs. simpl. rewrite !fmap_app. simpl.
  rewrite <- !(assoc_L (++)). simpl.
  rewrite (Permutation_app_comm ((before c).*1)), <- !(assoc_L (++)). simpl.
  rewrite <- Permutation_middle. f_equiv. f_equiv. apply Permutation_app_comm.
Qed.

Lemma locs_Fork l p v r : locs (Fork l p v r) = locs l ++ p :: locs r.
Proof. unfold locs. simpl. by rewrite fmap_app. Qed.

Lemma head_locs_Fork l p v r :
  head (locs (Fork l p v r)) = if l is Leaf then Some p else head (locs l).
Proof.
  rewrite locs_Fork. destruct l as [|ll lp lv lr]; [done|].
  rewrite locs_Fork. by destruct (locs ll).
Qed.

Lemma last_locs_Fork l p v r :
  last (locs (Fork l p v r)) = if r is Leaf then Some p else last (locs r).
Proof.
  rewrite locs_Fork, last_app, last_cons. destruct r as [|rl rp rv rr]; [done|].
  rewrite locs_Fork, last_app, last_cons. by destruct (last (locs rr)).
Qed.

Lemma descend_left_first h par t p fuel :
  repr h par t → root_of t = Some p → (height t ≤ fuel)%nat →
  descend_left fuel h p = head (locs t).
Proof.
  revert par p fuel.
  induction t as [|l IHl q v r _]; intros par p fuel; [done|].
  intros (Hq & Hl & _) [= ->] Hf. rewrite head_locs_Fork.
  destruct fuel as [|f]; [simpl in Hf; lia|]. simpl.
  rewrite Hq. simpl. destruct l as [|ll lp lv lr]; [done|]. simpl root_of.
  cbv iota. apply (IHl (Some p)); [done|done|simpl in *; lia].
Qed.

Lemma descend_right_last h par t p fuel :
  repr h par t → root_of t = Some p → (height t ≤ fuel)%nat →
  descend_right fuel h p = last (locs t).
Proof.
  revert par p fuel.
  induction t as [|l _ q v r IHr]; intros par p fuel; [done|].
  intros (Hq & _ & Hr) [= ->] Hf. rewrite last_locs_Fork.
  destruct fuel as [|f]; [simpl in Hf; lia|]. simpl.
  rewrite Hq. simpl. destruct r as [|rl rp rv rr]; [done|]. simpl root_of.
  cbv iota. apply (IHr (Some p)); [done|done|simpl in *; lia].
Qed.

Lemma climb_from_right_ctx h ctx p fuel :
  repr_ctx h ctx (Some p) → NoDup (p :: ctx_locs ctx) →
  (length ctx ≤ fuel)%nat →
  climb_from_right fuel h p (ctx_parent ctx) = Some (head (after ctx).*1).
Proof.
  revert p fuel.
  induction ctx as [|[q v r|l q v] c IH]; intros p fuel; simpl.
  - by destruct fuel.
  - intros (Hq & Hr & Hc) Hnd _. rewrite ctx_locs_InL in Hnd.
    assert (root_of r ≠ Some p) as Hne.
    { intros Heq%root_of_locs. apply NoDup_cons in Hnd as [Hnd _].
      apply Hnd. set_solver. }
    destruct fuel; simpl; rewrite Hq; simpl; by rewrite bool_decide_eq_false_2.
  - intros (Hq & Hl & Hc) Hnd Hf. rewrite ctx_locs_InR in Hnd.
    destruct fuel as [|f]; [lia|]. simpl. rewrite Hq. simpl.
    rewrite bool_decide_eq_true_2 by done.
    apply IH; [done| |lia].
    apply NoDup_cons in Hnd as [_ Hnd].
    apply NoDup_cons in Hnd as [Hq' Hnd]. apply NoDup_cons. split.
    + set_solver.
    + by apply NoDup_app in Hnd as (_ & _ & Hnd).
Qed.

Lemma represents_position_fuel s ctx t :
  represents s (plug ctx t) →
  (length ctx + height t < fuel_of (store s))%nat.
Proof.
  intros Hrep. apply represents_fuel in Hrep.
  pose proof (length_ctx_le ctx t). pose proof (height_le_nodes t). lia.
Qed.

Lemma successor_spec s ctx l p v r :
  represents s (plug ctx (Fork l p v r)) →
  successor (fuel_of (store s)) (store s) (Some p)
  = Some (head (nodes r ++ after ctx).*1).
Proof.
  intros Hrep. pose proof (represents_position_fuel _ _ _ Hrep) as Hf.
  apply represents_plug in Hrep as (_ & Hrepr & Hctx & Hnd & _).
  simpl in Hrepr, Hf, Hctx. destruct Hrepr as (Hp & _ & Hr).
  unfold successor. simpl. rewrite Hp. simpl.
  destruct r as [|rl rp rv rr].
  - simpl root_of. cbv iota. simpl. apply climb_from_right_ctx; [done| |lia].
    unfold locs in Hnd. simpl in Hnd. rewrite fmap_app in Hnd. simpl in Hnd.
    rewrite <- (assoc_L (++)) in Hnd.
    by apply NoDup_app in Hnd as (_ & _ & Hnd).
  - simpl root_of. cbv iota.
    erewrite descend_left_first; [|done|done|simpl in *; lia].
    rewrite fmap_app.
    change ((nodes (Fork rl rp rv rr)).*1) with (locs (Fork rl rp rv rr)).
    rewrite locs_Fork. by destruct (locs rl).
Qed.

Lemma plug_app c1 c2 t : plug (c1 ++ c2) t = plug c2 (plug c1 t).
Proof.
  revert t. induction c1 as [|f c IH]; intros t; simpl; [done|]. apply IH.
Qed.

Lemma nodes_position t p v :
  (p, v) ∈ nodes t → ∃ ctx l r, t = plug ctx (Fork l p v r).
Proof.
  induction t as [|l0 IHl p0 v0 r0 IHr]; simpl.
  { intros Hin. by apply not_elem_of_nil in Hin. }
  intros Hin. apply elem_of_app in Hin as [Hin|Hin].
  { destruct (IHl Hin) as (c & l & r & ->).
    exists (c ++ [InL p0 v0 r0]), l, r. by rewrite plug_app. }
  apply elem_of_cons in Hin as [[= -> ->]|Hin].
  { by exists [], l0, r0. }
  destruct (IHr Hin) as (c & l & r & ->).
  exists (c ++ [InR l0 p0 v0]), l, r. by rewrite plug_app.
Qed.

Lemma split_unique (xs ys xs' ys' : list (loc * T)) p v v' :
  NoDup (xs ++ (p, v) :: ys).*1 →
  xs ++ (p, v) :: ys = xs' ++ (p, v') :: ys' → xs = xs' ∧ ys = ys'.
Proof.
  revert xs'. induction xs as [|[q w] xs IH]; intros xs' Hnd Heq.
  - destruct xs' as [|[q' w'] xs']; simpl in *; [by simplify_eq|].
    injection Heq as -> -> Hys. apply NoDup_cons in Hnd as [Hnd _].
    exfalso. apply Hnd. rewrite Hys, fmap_app. simpl. set_solver.
  - destruct xs' as [|[q' w'] xs']; simpl in *.
    + injection Heq as -> -> Hys. apply NoDup_cons in Hnd as [Hnd _].
      exfalso. apply Hnd. rewrite fmap_app. simpl. set_solver.
    + injection Heq as -> -> Heq. apply NoDup_cons in Hnd as [_ Hnd].
      destruct (IH _ Hnd Heq) as [-> ->]. done.
Qed.

Lemma iterate_suffix s t xs ys steps :
  represents s t → nodes t = xs ++ ys → (length ys ≤ steps)%nat →
  iterate steps s (mkIt (head ys.*1) true) = Some ys.*2.
Proof.
  intros Hrep. revert xs steps.
  induction ys as [|[p v] ys IH]; intros xs steps Hn Hlen.
  { by destruct steps. }
  destruct steps as [|k]; [simpl in Hlen; lia|]. simpl.
  assert ((p, v) ∈ nodes t) as Hin by (rewrite Hn; set_solver).
  unfold deref. simpl.
  destruct Hrep as (Hroot & Hrepr & Hnd & Hdom).
  destruct (repr_lookup _ _ _ _ _ Hrepr Hin) as (n & -> & Hv). simpl.
  destruct (nodes_position _ _ _ Hin) as (ctx & l & r & Ht).
  assert (represents s (plug ctx (Fork l p v r))) as Hrep'.
  { by rewrite <- Ht. }
  unfold pre_increment. cbn [ptr_ tree_].
  rewrite (successor_spec _ _ _ _ _ _ Hrep'). cbn [mbind option_bind].
  assert (ys = nodes r ++ after ctx) as <-.
  { unfold locs in Hnd. rewrite Hn in Hnd.
    rewrite Ht, nodes_plug in Hn. simpl in Hn.
    rewrite <- (assoc_L (++)) in Hn. simpl in Hn.
    rewrite (assoc_L (++)) in Hn.
    symmetry in Hn. by destruct (split_unique _ _ _ _ _ _ _ Hnd Hn). }
  rewrite (IH (xs ++ [(p, v)]) k); [by rewrite Hv| |simpl in Hlen; lia].
  by rewrite <- (assoc_L (++)).
Qed.

Lemma begin_represents s t :
  represents s t → begin s = Some (mkIt (head (locs t)) true).
Proof.
  intros Hrep. pose proof (represents_height _ _ Hrep) as Hf.
  destruct Hrep as (Hroot & Hrepr & _). unfold begin, find_min.
  rewrite Hroot. destruct (root_of t) as [p|] eqn:Hrt.
  - erewrite descend_left_first; [|done|done|lia]. simpl.
    by destruct (head (locs t)) eqn:E; [|destruct t; [|rewrite locs_Fork in E; destruct (locs t1)]].
  - by destruct t.
Qed.

Lemma range_for_represents s t :
  represents s t → range_for s = Some (in_order t).
Proof.
  intros Hrep. unfold range_for. rewrite (begin_represents _ _ Hrep). simpl.
  apply (iterate_suffix s t [] (nodes t)); [done|done|].
  apply represents_fuel in Hrep. lia.
Qed.

(** ** Updates of the slot that owns a position *)

Lemma frame_loc_ctx_locs (f : @frame T) c : frame_loc f ∈ ctx_locs (f :: c).
Proof.
  destruct f; [rewrite ctx_locs_InL|rewrite ctx_locs_InR]; simpl; by left.
Qed.

Lemma read_link_hole s ctx hole :
  repr_ctx (store s) ctx hole → root_ s = top_root ctx hole →
  read_link s (hole_link ctx) = Some hole.
Proof.
  destruct ctx as [|[p v r|l p v] c]; simpl.
  - by intros _ ->.
  - by intros (-> & _) _.
  - by intros (-> & _) _.
Qed.

Lemma write_link_hole s (f : @frame T) c v n :
  store s !! frame_loc f = Some n →
  write_link s (hole_link (f :: c)) v
  = Some (with_store (<[frame_loc f := set_child f v n]> (store s)) s).
Proof. destruct f; simpl; by intros ->. Qed.

Lemma destroy_None fuel h : destroy fuel h None = Some h.
Proof. by destruct fuel. Qed.

Lemma reset_link_hole s ctx e n v' :
  repr_ctx (store s) ctx (Some e) → root_ s = top_root ctx (Some e) →
  store s !! e = Some n → left n = None → right n = None →
  NoDup (e :: ctx_locs ctx) →
  ∃ s', reset_link s (hole_link ctx) v' = Some s'
    ∧ root_ s' = top_root ctx v'
    ∧ repr_ctx (store s') ctx v'
    ∧ tree_size_ s' = tree_size_ s
    ∧ dom (store s') = dom (store s) ∖ {[e]}
    ∧ (∀ q, q ∉ ctx_locs ctx → q ≠ e → store s' !! q = store s !! q).
Proof.
  intros Hctx Hroot He Hl Hr Hnd. apply NoDup_cons in Hnd as [Hne Hnd].
  destruct ctx as [|f c].
  - eexists. split.
    { unfold reset_link. rewrite (read_link_hole _ _ _ Hctx Hroot). simpl.
      rewrite fuel_of_S. simpl. rewrite He. simpl.
      rewrite Hl, Hr. repeat (rewrite destroy_None; simpl). done. }
    unfold with_store. cbn [store root_ tree_size_].
    split; [done|]. split; [done|]. split; [done|]. split.
    + by rewrite dom_delete_L.
    + intros q _ Hq. by rewrite lookup_delete_ne.
  - destruct (repr_ctx_head _ _ _ _ Hctx) as [pn Hpn].
    assert (frame_loc f ≠ e) as Hpe.
    { intros Heq. apply Hne. rewrite <- Heq. apply frame_loc_ctx_locs. }
    eexists. split.
    { unfold reset_link. rewrite (read_link_hole _ _ _ Hctx Hroot).
      cbn [mbind option_bind].
      rewrite (write_link_hole _ _ _ _ _ Hpn). simpl.
      rewrite fuel_of_S. simpl. rewrite lookup_insert_ne by done.
      rewrite He. simpl. rewrite Hl, Hr.
      repeat (rewrite destroy_None; simpl). done. }
    unfold with_store. cbn [store root_ tree_size_].
    split; [done|]. split; [|split; [done|split]].
    + eapply repr_ctx_agree.
      2:{ by apply (repr_ctx_set_hole (store s) _ _ (Some e) v' pn). }
      intros q Hq. apply lookup_delete_ne. by intros ->.
    + rewrite dom_delete_L, dom_insert_lookup_L; [done|eauto].
    + intros q Hq1 Hq2. rewrite lookup_delete_ne by done.
      apply lookup_insert_ne. intros <-. apply Hq1, frame_loc_ctx_locs.
Qed.

Lemma get_parent_link_hole s ctx e n :
  store s !! e = Some n → parent n = ctx_parent ctx →
  repr_ctx (store s) ctx (Some e) → NoDup (e :: ctx_locs ctx) →
  get_parent_link s e = Some (hole_link ctx).
Proof.
  intros He Hpar Hctx Hnd. unfold get_parent_link. rewrite He. simpl.
  rewrite Hpar. destruct ctx as [|[p v r|l p v] c]; simpl; [done|..].
  - destruct Hctx as (-> & _). simpl. by rewrite bool_decide_eq_true_2.
  - destruct Hctx as (-> & _). simpl. rewrite bool_decide_eq_false_2; [done|].
    intros Heq%root_of_locs. rewrite ctx_locs_InR in Hnd.
    apply NoDup_cons in Hnd as [Hnd _]. apply Hnd. set_solver.
Qed.

Lemma move_assign_hole s ctx e n child cv :
  repr_ctx (store s) ctx (Some e) → root_ s = top_root ctx (Some e) →
  NoDup (e :: ctx_locs ctx) → store s !! e = Some n →
  (child = left_link e ∧ cv = left n ∧ right n = None)
  ∨ (child = right_link e ∧ cv = right n ∧ left n = None) →
  ∃ s', move_assign s (hole_link ctx) child = Some s'
    ∧ root_ s' = top_root ctx cv
    ∧ repr_ctx (store s') ctx cv
    ∧ tree_size_ s' = tree_size_ s
    ∧ dom (store s') = dom (store s) ∖ {[e]}
    ∧ (∀ q, q ∉ ctx_locs ctx → q ≠ e → store s' !! q = store s !! q).
Proof.
  intros Hctx Hroot Hnd He Hchild.
  assert (e ∉ ctx_locs ctx) as Hne by by apply NoDup_cons in Hnd as [? _].
  set (n' := mkNode (data n) None None (parent n)).
  set (s2 := with_store (<[e := n']> (store s)) s).
  assert (move_assign s (hole_link ctx) child
          = reset_link s2 (hole_link ctx) cv) as ->.
  { unfold move_assign.
    destruct Hchild as [(-> & -> & Hr)|(-> & -> & Hl)]; simpl; rewrite He;
      simpl; unfold s2, n', set_left, set_right; by rewrite ?Hr, ?Hl. }
  destruct (reset_link_hole s2 ctx e n' cv) as (s' & Hs' & H1 & H2 & H3 & H4 & H5);
    try done.
  - eapply repr_ctx_agree; [|done]. intros q Hq. simpl.
    apply lookup_insert_ne. by intros ->.
  - simpl. by rewrite lookup_insert_eq.
  - exists s'. split; [done|]. split; [done|]. split; [done|].
    split; [done|]. split.
    + rewrite H4. simpl. rewrite dom_insert_lookup_L; [done|eauto].
    + intros q Hq1 Hq2. rewrite H5 by done. simpl.
      by rewrite lookup_insert_ne.
Qed.

Lemma repr_reparent h par par' t q cn :
  root_of t = Some q → repr h par t → NoDup (locs t) → h !! q = Some cn →
  repr (<[q := set_parent par' cn]> h) par' t.
Proof.
  destruct t as [|l p v r]; [done|]. intros [= ->] (Hq & Hl & Hr) Hnd Hcn.
  rewrite Hq in Hcn. simplify_eq. rewrite locs_Fork in Hnd.
  apply NoDup_app in Hnd as (_ & Hd & Hnd). apply NoDup_cons in Hnd as [Hnr _].
  simpl. split_and!.
  - by rewrite lookup_insert_eq.
  - eapply repr_agree; [|done]. intros x Hx. apply lookup_insert_ne.
    intros ->. apply (Hd _ Hx). by left.
  - eapply repr_agree; [|done]. intros x Hx. apply lookup_insert_ne.
    by intros ->.
Qed.

Lemma unlink_spec s ctx l e v r :
  represents s (plug ctx (Fork l e v r)) → l = Leaf ∨ r = Leaf →
  ∃ s', unlink s e (hole_link ctx) = Some s'
      ∧ represents s' (plug ctx (if l is Leaf then r else l))
      ∧ tree_size_ s' = tree_size_ s.
Proof.
  intros Hrep Hone.
  apply represents_plug in Hrep as (Hroot & Hrepr & Hctx & Hnd & Hdom).
  destruct Hrepr as (He & Hl & Hr). simpl in Hroot, Hctx.
  set (c := if l is Leaf then r else l).
  set (n := mkNode v (root_of l) (root_of r) (ctx_parent ctx)) in He.
  set (child := if left n is Some _ then left_link e else right_link e).
  assert (locs (Fork l e v r) ≡ₚ e :: locs c) as Hperm.
  { rewrite locs_Fork. unfold c.
    destruct Hone as [-> | ->]; [done|].
    destruct l; [done|]. by rewrite <- Permutation_middle, app_nil_r. }
  rewrite Hperm in Hnd. simpl in Hnd.
  assert (dom (store s) = {[e]} ∪ list_to_set (locs c ++ ctx_locs ctx)) as Hdom'.
  { rewrite Hdom. apply set_eq. intros x.
    rewrite elem_of_union, elem_of_singleton, !elem_of_list_to_set.
    rewrite !elem_of_app, Hperm, elem_of_cons. tauto. }
  clear Hdom Hperm.
  apply NoDup_cons in Hnd as [Hne Hnd].
  assert (repr (store s) (Some e) c) as Hc.
  { unfold c. by destruct l. }
  assert (read_link s child = Some (root_of c)
          ∧ ((child = left_link e ∧ root_of c = left n ∧ right n = None)
             ∨ (child = right_link e ∧ root_of c = right n ∧ left n = None)))
    as [Hread Hchild].
  { unfold child, c. simpl.
    destruct Hone as [-> | ->].
    - simpl. rewrite He. split; [done|]. right. done.
    - destruct l as [|ll lp lv lr]; simpl; rewrite He; (split; [done|]).
      + right. done.
      + left. done. }
  assert (∃ s1, (match root_of c with
                 | None => Some s
                 | Some q =>
                   cn ← store s !! q;
                   Some (with_store (<[q := set_parent (parent n) cn]> (store s)) s)
                 end) = Some s1
                ∧ root_ s1 = root_ s ∧ tree_size_ s1 = tree_size_ s
                ∧ dom (store s1) = dom (store s)
                ∧ repr (store s1) (ctx_parent ctx) c
                ∧ (∀ q, q ∉ locs c → store s1 !! q = store s !! q))
    as (s1 & Hs1 & Hroot1 & Hsz1 & Hdom1 & Hc1 & Hag1).
  { destruct (root_of c) as [q|] eqn:Hq.
    - assert (q ∈ locs c) as Hqc by by apply root_of_locs.
      assert (is_Some (store s !! q)) as [cn Hcn].
      { apply elem_of_dom. by eapply repr_dom. }
      rewrite Hcn. simpl. eexists. split; [done|]. simpl.
      split; [done|]. split; [done|]. split.
      { rewrite dom_insert_lookup_L; [done|eauto]. }
      split.
      + eapply repr_reparent; [done|done| |done].
        by apply NoDup_app in Hnd as (? & _).
      + intros x Hx. apply lookup_insert_ne. by intros ->.
    - exists s. split; [done|]. split; [done|]. split; [done|].
      split; [done|]. split; [|done]. by destruct c. }
  assert ((e ∉ locs c) ∧ (e ∉ ctx_locs ctx)) as [Hec Hectx].
  { split; intros Hin; apply Hne; apply elem_of_app; [by left|by right]. }
  destruct (move_assign_hole s1 ctx e n child (root_of c))
    as (s' & Hs' & H1 & H2 & H3 & H4 & H5).
  { eapply repr_ctx_agree; [|done]. intros q Hq. apply Hag1.
    intros Hin. apply NoDup_app in Hnd as (_ & Hd & _). by apply (Hd q). }
  { by rewrite Hroot1. }
  { apply NoDup_cons. split; [done|]. by apply NoDup_app in Hnd as (_ & _ & ?). }
  { by rewrite Hag1. }
  { done. }
  exists s'. split.
  { unfold unlink. rewrite He. cbn [mbind option_bind]. cbv zeta.
    fold child. rewrite Hread. cbn [mbind option_bind].
    rewrite Hs1. done. }
  split; [|congruence].
  apply represents_plug. split; [done|]. split.
  { eapply repr_agree; [|done]. intros q Hq. apply H5.
    - intros Hin. apply NoDup_app in Hnd as (_ & Hd & _). by apply (Hd q).
    - by intros ->. }
  split; [done|]. split; [done|].
  rewrite H4, Hdom1, Hdom'. apply set_eq. intros x.
  rewrite elem_of_difference, elem_of_union, elem_of_singleton.
  rewrite elem_of_list_to_set. split; [tauto|].
  intros Hx. split; [tauto|]. by intros ->.
Qed.

(** ** [erase_node_recursive] *)

Lemma erase_node_recursive_descend s ctx t fuel key :
  represents s (plug ctx t) → (height t < fuel)%nat →
  erase_node_recursive fuel s (hole_link ctx) key
  = match descend key ctx t with
    | (_, Leaf) => Some s
    | (ctx', Fork l c _ r) =>
      match l, r with
      | Fork _ _ _ _, Fork _ _ _ _ => Some s
      | _, _ =>
        s2 ← unlink s c (hole_link ctx');
        Some (with_size (size_decr (tree_size_ s2)) s2)
      end
    end.
Proof.
  revert ctx fuel. induction t as [|l IHl c v r IHr]; intros ctx fuel Hrep Hf.
  - destruct fuel as [|f]; [lia|]. simpl.
    apply represents_plug in Hrep as (Hroot & _ & Hctx & _).
    by rewrite (read_link_hole _ _ _ Hctx Hroot).
  - destruct fuel as [|f]; [lia|]. simpl in Hf.
    pose proof Hrep as Hrep'.
    apply represents_plug in Hrep' as (Hroot & (Hc & _ & _) & Hctx & _).
    cbn [erase_node_recursive descend].
    rewrite (read_link_hole _ _ _ Hctx Hroot). cbn [mbind option_bind root_of].
    rewrite Hc. cbn [mbind option_bind data left right parent].
    destruct (ltb key v).
    { apply (IHl (InL c v r :: ctx)); [done|lia]. }
    destruct (ltb v key).
    { apply (IHr (InR l c v :: ctx)); [done|lia]. }
    unfold unlink. rewrite Hc. cbn [mbind option_bind data left right parent].
    destruct l, r; try done; simpl;
      repeat (match goal with
              | |- context [mbind _ ?m] => destruct m; simpl; try done
              end).
Qed.

Hypothesis ltb_irrefl : ∀ a, ltb a a = false.

Lemma bst_plug_inv ctx t : bst (plug ctx t) → bst t.
Proof.
  rewrite !bst_sorted, in_order_plug. intros Hs.
  apply StronglySorted_app in Hs as (_ & _ & Hs).
  by apply StronglySorted_app in Hs as (_ & Hs & _).
Qed.

Lemma leftmost_spec ctx t :
  t ≠ Leaf →
  ∃ ctx' p v r, leftmost ctx t = (ctx', Fork Leaf p v r)
    ∧ plug ctx' (Fork Leaf p v r) = plug ctx t
    ∧ before ctx' = before ctx
    ∧ head (locs t) = Some p
    ∧ (p, v) ∈ nodes t.
Proof.
  revert ctx. induction t as [|l IHl p v r _]; intros ctx Hne; [done|].
  destruct l as [|ll lp lv lr].
  - exists ctx, p, v, r. simpl. split_and!; try done. by left.
  - destruct (IHl (InL p v r :: ctx)) as (ctx' & p' & v' & r' & H1 & H2 & H3 & H4 & H5);
      [done|].
    exists ctx', p', v', r'. split_and!; try done.
    + rewrite head_locs_Fork. done.
    + change (nodes (Fork (Fork ll lp lv lr) p v r))
        with (nodes (Fork ll lp lv lr) ++ (p, v) :: nodes r).
      apply elem_of_app. by left.
Qed.

Lemma descend_leftmost ctx t ctx' p v r :
  bst t → leftmost ctx t = (ctx', Fork Leaf p v r) →
  descend v ctx t = (ctx', Fork Leaf p v r).
Proof.
  revert ctx. induction t as [|l IHl q w r0 _]; intros ctx Hb Hl; [done|].
  destruct l as [|ll lp lv lr].
  - simpl in Hl. simplify_eq. simpl. by rewrite ltb_irrefl.
  - change (leftmost (InL q w r0 :: ctx) (Fork ll lp lv lr)
            = (ctx', Fork Leaf p v r)) in Hl.
    destruct Hb as (Hlt & _ & Hbl & _).
    destruct (leftmost_spec (InL q w r0 :: ctx) (Fork ll lp lv lr))
      as (c2 & p2 & v2 & r2 & H1 & _ & _ & _ & H5); [done|].
    rewrite Hl in H1. simplify_eq.
    assert (ltb v2 w = true) as Hvw.
    { eapply Forall_forall in Hlt; [done|]. unfold in_order.
      apply list_elem_of_fmap. by exists (p2, v2). }
    cbn [descend]. rewrite Hvw. by apply IHl.
Qed.

(** The search path of a key goes through the frames that record its own
    comparisons. *)
Lemma descend_along_path key ctx c0 t :
  Forall (frame_cmp key) ctx →
  descend key c0 (plug ctx t) = descend key (ctx ++ c0) t.
Proof.
  revert t. induction ctx as [|f c IH]; intros t Hc; [done|].
  apply Forall_cons in Hc as [Hf Hc]. simpl plug. rewrite (IH _ Hc).
  destruct f as [p v r|l p v]; simpl in *.
  - by rewrite Hf.
  - destruct Hf as [-> ->]. done.
Qed.

(** The path to the leftmost node of a search tree: every key that is below
    whatever the leftmost value is below turns left at each of its frames. *)
Lemma leftmost_path key ctx t ctx' p v r :
  bst t → leftmost ctx t = (ctx', Fork Leaf p v r) →
  (∀ y, ltb v y = true → ltb key y = true) →
  ∃ c, ctx' = c ++ ctx ∧ plug c (Fork Leaf p v r) = t
       ∧ Forall (frame_cmp key) c.
Proof.
  intros Hb Hl Hkey. revert ctx Hb Hl.
  induction t as [|l IHl q w r0 _]; intros ctx Hb Hl; [done|].
  destruct l as [|ll lp lv lr].
  - simpl in Hl. simplify_eq. by exists [].
  - change (leftmost (InL q w r0 :: ctx) (Fork ll lp lv lr)
            = (ctx', Fork Leaf p v r)) in Hl.
    destruct Hb as (Hlt & _ & Hbl & _).
    destruct (IHl _ Hbl Hl) as (c & -> & Hplug & Hc).
    exists (c ++ [InL q w r0]). split; [by rewrite <- (assoc_L (++))|].
    split; [by rewrite plug_app, Hplug|].
    apply Forall_app. split; [done|]. apply Forall_singleton. simpl.
    apply Hkey. eapply Forall_forall in Hlt; [exact Hlt|].
    rewrite <- Hplug, in_order_plug. unfold in_order. simpl.
    rewrite !elem_of_app, elem_of_cons. tauto.
Qed.

Lemma represents_set_data s ctx l e v r v' n :
  represents s (plug ctx (Fork l e v r)) → store s !! e = Some n →
  represents (with_store (<[e := set_data v' n]> (store s)) s)
             (plug ctx (Fork l e v' r)).
Proof.
  intros Hrep Hn.
  apply represents_plug in Hrep as (Hroot & Hrepr & Hctx & Hnd & Hdom).
  destruct Hrepr as (He & Hl & Hr). rewrite He in Hn. simplify_eq.
  assert (locs (Fork l e v' r) = locs (Fork l e v r)) as Hlocs.
  { by rewrite !locs_Fork. }
  apply represents_plug. rewrite Hlocs. simpl.
  pose proof Hnd as Hnd0.
  rewrite locs_Fork in Hnd. rewrite <- (assoc_L (++)) in Hnd.
  apply NoDup_app in Hnd as (_ & Hd1 & Hnd). simpl in Hnd.
  apply NoDup_cons in Hnd as [Hne _].
  split; [done|]. split; [|split; [|split; [done|]]].
  - split; [by rewrite lookup_insert_eq|].
    split; (eapply repr_agree; [|done]); intros q Hq; apply lookup_insert_ne;
      intros ->.
    + apply (Hd1 _ Hq). by left.
    + apply Hne. apply elem_of_app. by left.
  - eapply repr_ctx_agree; [|done]. intros q Hq. apply lookup_insert_ne.
    intros ->. apply Hne. apply elem_of_app. by right.
  - rewrite dom_insert_lookup_L; [done|eauto].
Qed.

(** ** [erase] *)

Lemma represents_with_size s t n :
  represents s t → represents (with_size n s) t.
Proof. done. Qed.

Lemma size_decr_incr_decr n : size_decr (size_incr (size_decr n)) = size_decr n.
Proof.
  unfold size_decr, size_incr.
  rewrite Zminus_mod_idemp_l.
  replace ((n - 1) mod SIZE_MOD + 1 - 1) with ((n - 1) mod SIZE_MOD) by lia.
  apply Z.mod_mod. done.
Qed.

Lemma erase_leaf_step s ctx e v :
  represents s (plug ctx (Fork Leaf e v Leaf)) →
  ∃ s', detach_from_parent s e = Some s'
      ∧ represents s' (plug ctx Leaf) ∧ tree_size_ s' = tree_size_ s.
Proof.
  intros Hrep.
  apply represents_plug in Hrep as (Hroot & (He & _ & _) & Hctx & Hnd & Hdom).
  simpl in Hroot, Hctx, Hnd, Hdom.
  destruct (reset_link_hole s ctx e _ None Hctx Hroot He)
    as (s' & Hs' & H1 & H2 & H3 & H4 & H5); [done..|].
  exists s'. split.
  { unfold detach_from_parent.
    by rewrite (get_parent_link_hole _ ctx _ _ He). }
  split; [|done]. apply represents_plug. simpl.
  apply NoDup_cons in Hnd as [Hne Hnd].
  split; [done|]. split; [done|]. split; [done|]. split; [done|].
  rewrite H4, Hdom. apply set_eq. intros x.
  rewrite elem_of_difference, elem_of_union, elem_of_singleton.
  rewrite elem_of_list_to_set. split; [tauto|].
  intros Hx. split; [tauto|]. by intros ->.
Qed.

Lemma erase_one_child_step s ctx l e v r c q n :
  represents s (plug ctx (Fork l e v r)) →
  (l = Leaf ∧ c = r) ∨ (r = Leaf ∧ c = l) → root_of c = Some q →
  store s !! e = Some n →
  let child := if left n is Some _ then left_link e else right_link e in
  (ch ← read_link s child;
   q ← ch;
   cn ← store s !! q;
   let s1 := with_store (<[q := set_parent (parent n) cn]> (store s)) s in
   k ← get_parent_link s1 e;
   move_assign s1 k child)
  = unlink s e (hole_link ctx).
Proof.
  intros Hrep Hc Hq Hn. pose proof Hrep as Hrep'.
  apply represents_plug in Hrep' as (Hroot & (He & Hl & Hr) & Hctx & Hnd & Hdom).
  rewrite He in Hn. simplify_eq. simpl. unfold unlink. rewrite He. simpl.
  assert (q ∈ locs l ++ locs r) as Hqin.
  { apply root_of_locs in Hq. destruct Hc as [[-> ->]|[-> ->]]; set_solver. }
  assert (repr (store s) (Some e) c) as Hcr.
  { by destruct Hc as [[-> ->]|[-> ->]]. }
  assert (is_Some (store s !! q)) as [cn Hcn].
  { apply elem_of_dom. eapply repr_dom; [exact Hcr|]. by apply root_of_locs. }
  rewrite locs_Fork in Hnd.
  assert (NoDup (e :: ctx_locs ctx) ∧ q ≠ e ∧ q ∉ ctx_locs ctx)
    as (Hnd' & Hqe & Hqctx).
  { apply NoDup_app in Hnd as (Hnd1 & Hd & Hnd2).
    apply NoDup_app in Hnd1 as (_ & Hd' & Hnd1).
    apply NoDup_cons in Hnd1 as [He1 _]. split_and!.
    - apply NoDup_cons. split; [|done]. intros Hin. apply (Hd e); [|done].
      set_solver.
    - intros ->. apply elem_of_app in Hqin as [Hin|Hin]; [|done].
      apply (Hd' e Hin). by left.
    - intros Hin. apply (Hd q); [|done]. set_solver. }
  assert (read_link s (if root_of l is Some _ then left_link e else right_link e)
          = Some (Some q)) as ->.
  { destruct Hc as [[-> ->]|[-> ->]].
    - simpl. rewrite He. simpl. by rewrite Hq.
    - rewrite Hq. simpl. rewrite He. simpl. by rewrite Hq. }
  simpl. rewrite Hcn. simpl.
  erewrite (get_parent_link_hole _ ctx e); [done| | |..|done].
  - simpl. rewrite lookup_insert_ne by done. exact He.
  - done.
  - eapply repr_ctx_agree; [|done]. intros x Hx. simpl.
    apply lookup_insert_ne. by intros ->.
Qed.

Lemma erase_one_child_total s ctx l e v r :
  represents s (plug ctx (Fork l e v r)) →
  l = Leaf ∨ r = Leaf → l ≠ Leaf ∨ r ≠ Leaf →
  ∃ s',
    (ch ← read_link s (if root_of l is Some _ then left_link e else right_link e);
     q ← ch;
     cn ← store s !! q;
     let s1 := with_store (<[q := set_parent (ctx_parent ctx) cn]> (store s)) s in
     k ← get_parent_link s1 e;
     move_assign s1 k (if root_of l is Some _ then left_link e else right_link e))
    = Some s'
    ∧ represents s' (plug ctx (if l is Leaf then r else l))
    ∧ tree_size_ s' = tree_size_ s.
Proof.
  intros Hrep Hone Hsome. pose proof Hrep as Hrep'.
  apply represents_plug in Hrep' as (_ & (He & _ & _) & _).
  destruct (unlink_spec _ _ _ _ _ _ Hrep Hone) as (s' & Hs' & Hrep1 & Hsz).
  exists s'. split; [|done]. rewrite <- Hs'.
  set (c := if l is Leaf then r else l).
  assert (∃ q, root_of c = Some q) as [q Hq].
  { unfold c. destruct l as [|ll lp lv lr]; [|by eexists].
    destruct r as [|rl rp rv rr]; [|by eexists]. by destruct Hsome. }
  assert ((l = Leaf ∧ c = r) ∨ (r = Leaf ∧ c = l)) as Hc.
  { unfold c. destruct Hone as [-> | ->]; [by left|].
    right. split; [done|]. destruct l; [|done]. by destruct Hsome. }
  exact (erase_one_child_step s ctx l e v r c q _ Hrep Hc Hq He).
Qed.

Lemma move_by_exchange_keeps_below :
  (∀ a b : T, moved_from a b = a) → move_keeps_below.
Proof. intros Hex a b y Hab Hby. rewrite Hex. by eapply ltb_trans. Qed.

Lemma erase_two_children_step s ctx l e v r n :
  move_keeps_below →
  represents s (plug ctx (Fork l e v r)) → bst (Fork l e v r) → r ≠ Leaf →
  store s !! e = Some n →
  ∃ s2 sp sv tail,
    (successor ← find_min (fuel_of (store s)) (store s) (right n);
     sp ← successor;
     sn ← store s !! sp;
     let h1 := <[e := set_data (data sn) n]> (store s) in
     sn1 ← h1 !! sp;
     let s1 := with_store
                 (<[sp := set_data (moved_from (data n) (data sn)) sn1]> h1)
                 s in
     sm ← store s1 !! sp;
     s2 ← erase_node_recursive (fuel_of (store s1)) s1 (right_link e) (data sm);
     Some (with_size (size_incr (tree_size_ s2)) s2))
    = Some s2
    ∧ tree_size_ s2 = size_incr (size_decr (tree_size_ s))
    ∧ nodes r ++ after ctx = (sp, sv) :: tail
    ∧ ∃ t', represents s2 t'
            ∧ nodes t' = before ctx ++ nodes l ++ (e, sv) :: tail.
Proof.
  intros Hmove Hrep (_ & Hgt & _ & Hb) Hne Hn. pose proof Hrep as Hrep'.
  pose proof (represents_position_fuel _ _ _ Hrep) as Hf.
  apply represents_plug in Hrep' as (Hroot & (He & Hl & Hr) & Hctx & Hnd & Hdom).
  rewrite He in Hn. simplify_eq. simpl.
  destruct (leftmost_spec (InR l e v :: ctx) r Hne)
    as (ctx2 & sp & sv & r2 & _ & _ & _ & Hhead & Hin).
  destruct (leftmost_spec (InR l e sv :: ctx) r Hne)
    as (ctx3 & sp' & sv' & r3 & Hlm & Hplug & Hbef & Hhead' & Hin').
  rewrite Hhead in Hhead'. injection Hhead' as <-.
  assert (sv' = sv) as ->.
  { assert (NoDup (locs r)) as Hndr.
    { rewrite locs_Fork in Hnd.
      apply NoDup_app in Hnd as (Hnd & _).
      apply NoDup_app in Hnd as (_ & _ & Hnd).
      by apply NoDup_cons in Hnd as [_ ?]. }
    clear -Hin Hin' Hndr. unfold locs in Hndr.
    apply list_elem_of_lookup in Hin as [i Hi].
    apply list_elem_of_lookup in Hin' as [j Hj].
    assert (i = j) as ->.
    { eapply NoDup_lookup; [exact Hndr|..]; rewrite list_lookup_fmap.
      - by rewrite Hi.
      - by rewrite Hj. }
    congruence. }
  unfold find_min. destruct r as [|rl rp rv rr] eqn:Er; [done|].
  rewrite <- Er in *. assert (root_of r = Some rp) as Hrt by by rewrite Er.
  rewrite Hrt. erewrite descend_left_first; [|done|done|simpl in Hf; lia].
  rewrite Hhead. simpl.
  destruct (repr_lookup _ _ _ _ _ Hr Hin) as (sn & Hsn & Hdata).
  rewrite Hsn. simpl. rewrite Hdata.
  set (m := mkNode v (root_of l) (Some rp) (ctx_parent ctx)).
  assert (store s !! e = Some m) as He' by by rewrite He, Hrt.
  pose proof (represents_set_data _ _ _ _ _ _ sv _ Hrep He') as Hrep1.
  set (s1 := with_store (<[e := set_data sv m]> (store s)) s) in *.
  change (<[e:=set_data sv m]> (store s)) with (store s1).
  (* the successor is left holding the moved-from value *)
  assert (represents s1 (plug ctx3 (Fork Leaf sp sv r3))) as Hrep3.
  { rewrite Hplug. exact Hrep1. }
  pose proof Hrep3 as Hsp.
  apply represents_plug in Hsp as (_ & (Hsp & _) & _).
  rewrite Hsp. simpl.
  assert (ltb v sv = true) as Hvs.
  { rewrite Forall_forall in Hgt. apply Hgt. unfold in_order.
    apply list_elem_of_fmap. by exists (sp, sv). }
  pose proof (represents_set_data _ _ _ _ _ _ (moved_from v sv) _ Hrep3 Hsp)
    as Hrepm.
  set (sm := with_store
               (<[sp := set_data (moved_from v sv)
                          (mkNode sv None (root_of r3)
                                  (ctx_parent ctx3))]> (store s1)) s1) in *.
  rewrite lookup_insert_eq. simpl.
  change (fuel_of _) with (fuel_of (store sm)).
  change (with_store _ s) with sm.
  (* the search for the moved-from value ends at the successor *)
  destruct (leftmost_path (moved_from v sv) _ _ _ _ _ _ Hb Hlm
              (λ y, Hmove v sv y Hvs))
    as (c & Hc3 & Hrc & Hcmp).
  assert (represents sm (plug (InR l e sv :: ctx)
                           (plug c (Fork Leaf sp (moved_from v sv) r3))))
    as Hrepr'.
  { rewrite <- plug_app, <- Hc3. exact Hrepm. }
  pose proof (erase_node_recursive_descend sm (InR l e sv :: ctx) _
                (fuel_of (store sm)) (moved_from v sv) Hrepr') as Hrec.
  simpl hole_link in Hrec. rewrite Hrec; clear Hrec.
  2:{ apply (represents_position_fuel sm (InR l e sv :: ctx)) in Hrepr'. lia. }
  rewrite (descend_along_path _ _ _ _ Hcmp), <- Hc3. simpl.
  rewrite ltb_irrefl.
  destruct (unlink_spec _ _ _ _ _ _ Hrepm) as (s2 & Hun & Hrep2 & Hsz);
    [by left|].
  change (unlink _ sp (hole_link ctx3)) with (unlink sm sp (hole_link ctx3))
    in Hun.
  rewrite Hun. simpl. eexists _, sp, sv, (nodes r3 ++ after ctx3).
  split; [done|]. split; [simpl; by rewrite Hsz|].
  assert (nodes r ++ after ctx = (sp, sv) :: nodes r3 ++ after ctx3) as Htail.
  { pose proof (f_equal nodes Hplug) as Hnodes.
    rewrite (nodes_plug ctx3), (nodes_plug (InR l e sv :: ctx)) in Hnodes.
    rewrite Hbef in Hnodes. apply app_inv_head in Hnodes. simpl in Hnodes.
    by rewrite Hnodes. }
  split; [done|].
  exists (plug ctx3 r3). split; [by apply represents_with_size|].
  rewrite nodes_plug, Hbef. simpl. by rewrite <- !(assoc_L (++)).
Qed.

Lemma find_node_represents s t key :
  represents s t →
  find_node (fuel_of (store s)) (store s) (root_ s) key
  = Some (root_of (descend key [] t).2).
Proof.
  intros Hrep. pose proof (represents_height _ _ Hrep).
  destruct Hrep as (-> & Hrepr & _). by eapply find_node_descend.
Qed.

Lemma erase_absent s t key ctx :
  represents s t → descend key [] t = (ctx, Leaf) →
  erase key s = Some (s, end_ s).
Proof.
  intros Hrep Hd. unfold erase.
  rewrite (find_node_represents _ _ _ Hrep), Hd. done.
Qed.

Lemma erase_unfold s t key ctx l e v r :
  represents s t → descend key [] t = (ctx, Fork l e v r) →
  represents s (plug ctx (Fork l e v r))
  ∧ nodes t = (before ctx ++ nodes l) ++ (e, v) :: nodes r ++ after ctx
  ∧ store s !! e = Some (mkNode v (root_of l) (root_of r) (ctx_parent ctx))
  ∧ erase key s
    = (s' ← match root_of l, root_of r with
            | None, None => detach_from_parent s e
            | Some _, Some _ =>
              successor ← find_min (fuel_of (store s)) (store s) (root_of r);
              sp ← successor;
              sn ← store s !! sp;
              let h1 := <[e := set_data (data sn)
                           (mkNode v (root_of l) (root_of r) (ctx_parent ctx))]>
                           (store s) in
              sn1 ← h1 !! sp;
              let s1 := with_store
                          (<[sp := set_data (moved_from v (data sn)) sn1]> h1)
                          s in
              sm ← store s1 !! sp;
              s2 ← erase_node_recursive (fuel_of (store s1)) s1
                     (right_link e) (data sm);
              Some (with_size (size_incr (tree_size_ s2)) s2)
            | _, _ =>
              let child := if root_of l is Some _ then left_link e
                           else right_link e in
              ch ← read_link s child;
              q ← ch;
              cn ← store s !! q;
              let s1 := with_store (<[q := set_parent (ctx_parent ctx) cn]>
                                      (store s)) s in
              k ← get_parent_link s1 e;
              move_assign s1 k child
            end;
       Some (with_size (size_decr (tree_size_ s')) s',
             mkIt (head (nodes r ++ after ctx).*1) true)).
Proof.
  intros Hrept Hd.
  pose proof (descend_plug key [] t) as Hplug. rewrite Hd in Hplug.
  simpl in Hplug. pose proof Hrept as Hrep. rewrite <- Hplug in Hrep.
  split; [done|]. split.
  { rewrite <- Hplug, nodes_plug. simpl. by rewrite <- !(assoc_L (++)). }
  pose proof Hrep as Hrep'.
  apply represents_plug in Hrep' as (_ & (He & _ & _) & _).
  split; [done|].
  unfold erase.
  rewrite (find_node_represents _ _ _ Hrept), Hd.
  cbn [snd root_of mbind option_bind].
  unfold pre_increment. cbn [ptr_ tree_].
  rewrite (successor_spec _ _ _ _ _ _ Hrep). cbn [mbind option_bind].
  rewrite He. done.
Qed.

(** [erase] of a node with at most one child. *)
Lemma erase_found_one_child s t key ctx l e v r :
  represents s t → descend key [] t = (ctx, Fork l e v r) →
  l = Leaf ∨ r = Leaf →
  ∃ s' t',
    erase key s = Some (s', mkIt (head (nodes r ++ after ctx).*1) true)
    ∧ represents s' t'
    ∧ tree_size_ s' = size_decr (tree_size_ s)
    ∧ nodes t = (before ctx ++ nodes l) ++ (e, v) :: nodes r ++ after ctx
    ∧ nodes t' = (before ctx ++ nodes l) ++ nodes r ++ after ctx.
Proof.
  intros Hrept Hd Hone.
  destruct (erase_unfold _ _ _ _ _ _ _ _ Hrept Hd)
    as (Hrep & Hnodes & He & Herase).
  rewrite Herase. clear Herase.
  destruct l as [|ll lp lv lr]; destruct r as [|rl rp rv rr].
  - (* leaf *)
    destruct (erase_leaf_step _ _ _ _ Hrep) as (s' & Hs' & Hrep1 & Hsz).
    simpl. rewrite Hs'. simpl.
    eexists _, _. split; [done|]. split; [by apply represents_with_size|].
    split; [by rewrite <- Hsz|]. split; [done|].
    rewrite nodes_plug. simpl. by rewrite app_nil_r.
  - (* only a right child *)
    destruct (erase_one_child_total _ _ _ _ _ _ Hrep)
      as (s' & Hs' & Hrep1 & Hsz); [by left|by right|].
    cbn [root_of] in Hs' |- *. cbv iota in Hs' |- *. rewrite Hs'. simpl.
    eexists _, _. split; [done|]. split; [by apply represents_with_size|].
    split; [by rewrite <- Hsz|]. split; [done|].
    rewrite nodes_plug. simpl. by rewrite app_nil_r.
  - (* only a left child *)
    destruct (erase_one_child_total _ _ _ _ _ _ Hrep)
      as (s' & Hs' & Hrep1 & Hsz); [by right|by left|].
    cbn [root_of] in Hs' |- *. cbv iota in Hs' |- *. rewrite Hs'. simpl.
    eexists _, _. split; [done|]. split; [by apply represents_with_size|].
    split; [by rewrite <- Hsz|]. split; [done|].
    rewrite nodes_plug. simpl. by rewrite <- !(assoc_L (++)).
  - by destruct Hone.
Qed.

(** [erase] of a key that is found, for a move that keeps the object moved
    from below what its value was below. *)
Lemma erase_found s t key ctx l e v r :
  move_keeps_below →
  represents s t → bst t → descend key [] t = (ctx, Fork l e v r) →
  ∃ s' t',
    erase key s = Some (s', mkIt (head (nodes r ++ after ctx).*1) true)
    ∧ represents s' t'
    ∧ tree_size_ s' = size_decr (tree_size_ s)
    ∧ nodes t = (before ctx ++ nodes l) ++ (e, v) :: nodes r ++ after ctx
    ∧ (((l = Leaf ∨ r = Leaf)
        ∧ nodes t' = (before ctx ++ nodes l) ++ nodes r ++ after ctx)
       ∨ (l ≠ Leaf ∧ r ≠ Leaf
          ∧ ∃ sp sv tail,
              nodes r ++ after ctx = (sp, sv) :: tail
              ∧ nodes t' = (before ctx ++ nodes l) ++ (e, sv) :: tail)).
Proof.
  intros Hmove Hrept Hb Hd.
  assert ((l = Leaf ∨ r = Leaf) ∨ ¬ (l = Leaf ∨ r = Leaf)) as [Hone|Htwo].
  { destruct l, r; [by left; left|by left; left|by left; right|].
    right. by intros [?|?]. }
  { destruct (erase_found_one_child _ _ _ _ _ _ _ _ Hrept Hd Hone)
      as (s' & t' & He & Hrep' & Hsz & Hn & Hn').
    exists s', t'. split; [done|]. split; [done|]. split; [done|].
    split; [done|]. by left. }
  destruct (erase_unfold _ _ _ _ _ _ _ _ Hrept Hd)
    as (Hrep & Hnodes & He & Herase).
  rewrite Herase. clear Herase.
  destruct l as [|ll lp lv lr]; [by destruct Htwo; left|].
  destruct r as [|rl rp rv rr]; [by destruct Htwo; right|].
  assert (bst (Fork (Fork ll lp lv lr) e v (Fork rl rp rv rr))) as Hbr.
  { pose proof (descend_plug key [] t) as Hplug. rewrite Hd in Hplug.
    simpl in Hplug. rewrite <- Hplug in Hb.
    by apply bst_plug_inv in Hb. }
  destruct (erase_two_children_step s ctx _ e v _
              (mkNode v (root_of (Fork ll lp lv lr))
                      (root_of (Fork rl rp rv rr)) (ctx_parent ctx))
              Hmove Hrep Hbr) as
    (s2 & sp & sv & tail & Hs2 & Hsz & Htail & t' & Hrep2 & Hn2);
    [done|exact He|].
  cbn [right root_of data] in Hs2 |- *. cbv iota. rewrite Hs2. simpl.
  eexists _, t'. split; [done|]. split; [by apply represents_with_size|].
  split; [by rewrite Hsz, size_decr_incr_decr|]. split; [done|].
  right. split; [done|]. split; [done|].
  exists sp, sv, tail. split; [exact Htail|]. rewrite Hn2. simpl.
  by rewrite <- !(assoc_L (++)).
Qed.

Lemma sorted_fmap_del (xs ys : list (loc * T)) x :
  StronglySorted lt (xs ++ x :: ys).*2 → StronglySorted lt (xs ++ ys).*2.
Proof.
  rewrite !fmap_app. simpl. apply (sorted_app_del _ [x.2]).
Qed.

Lemma erase_found_bst s t key ctx l e v r :
  move_keeps_below →
  represents s t → bst t → descend key [] t = (ctx, Fork l e v r) →
  ∃ s' it t' xs ys,
    erase key s = Some (s', it)
    ∧ represents s' t' ∧ bst t'
    ∧ tree_size_ s' = size_decr (tree_size_ s)
    ∧ in_order t = xs ++ v :: ys ∧ in_order t' = xs ++ ys.
Proof.
  intros Hmove Hrep Hb Hd.
  destruct (erase_found _ _ _ _ _ _ _ _ Hmove Hrep Hb Hd)
    as (s' & t' & He & Hrep' & Hsz & Hn & Hcases).
  apply bst_sorted in Hb. unfold in_order in Hb. rewrite Hn in Hb.
  destruct Hcases as [[_ Hn']|(_ & _ & sp & sv & tail & Hys & Hn')].
  - eexists s', _, t', (before ctx ++ nodes l).*2, (nodes r ++ after ctx).*2.
    split; [done|]. split; [done|]. split.
    { apply bst_sorted. unfold in_order. rewrite Hn'.
      by eapply sorted_fmap_del. }
    split; [done|]. unfold in_order.
    by rewrite Hn, Hn', !fmap_app, !fmap_cons, !fmap_app.
  - eexists s', _, t', (before ctx ++ nodes l).*2, (nodes r ++ after ctx).*2.
    split; [done|]. split; [done|]. split.
    { apply bst_sorted. unfold in_order. rewrite Hn'.
      rewrite Hys in Hb.
      change ((before ctx ++ nodes l) ++ (e, sv) :: tail)
        with ((before ctx ++ nodes l) ++ [(e, sv)] ++ tail).
      change ((before ctx ++ nodes l) ++ (e, v) :: (sp, sv) :: tail)
        with ((before ctx ++ nodes l) ++ (e, v) :: [(sp, sv)] ++ tail) in Hb.
      apply sorted_fmap_del in Hb.
      rewrite !fmap_app in Hb |- *. done. }
    split; [done|]. unfold in_order.
    by rewrite Hn, Hn', Hys, !fmap_app, !fmap_cons.
Qed.

(** ** [clear] *)

Lemma destroy_repr h par t fuel :
  repr h par t → NoDup (locs t) → (height t < fuel)%nat →
  ∃ h', destroy fuel h (root_of t) = Some h'
      ∧ dom h' = dom h ∖ list_to_set (locs t)
      ∧ (∀ q, q ∉ locs t → h' !! q = h !! q).
Proof.
  revert h par fuel.
  induction t as [|l IHl p v r IHr]; intros h par fuel Hrepr Hnd Hf.
  { exists h. rewrite destroy_None. split; [done|]. split; [|done].
    unfold locs. simpl. set_solver. }
  destruct fuel as [|f]; [lia|]. simpl in Hf. destruct Hrepr as (Hp & Hl & Hr).
  rewrite locs_Fork in Hnd |- *.
  apply NoDup_app in Hnd as (Hndl & Hd & Hnd).
  apply NoDup_cons in Hnd as [Hpr Hndr].
  destruct (IHr h (Some p) f Hr Hndr) as (h1 & Hd1 & Hdom1 & Hag1); [lia|].
  assert (repr h1 (Some p) l) as Hl1.
  { eapply repr_agree; [|done]. intros q Hq. apply Hag1.
    intros Hin. apply (Hd q Hq). by right. }
  destruct (IHl h1 (Some p) f Hl1 Hndl) as (h2 & Hd2 & Hdom2 & Hag2); [lia|].
  exists (delete p h2). split.
  { simpl. rewrite Hp. simpl. rewrite Hd1. simpl. rewrite Hd2. done. }
  split.
  - rewrite dom_delete_L, Hdom2, Hdom1. apply set_eq. intros x.
    rewrite !elem_of_difference, !elem_of_list_to_set, elem_of_singleton.
    rewrite elem_of_app, elem_of_cons. tauto.
  - intros q Hq. rewrite elem_of_app, elem_of_cons in Hq.
    rewrite lookup_delete_ne by (intros ->; tauto).
    rewrite Hag2 by tauto. apply Hag1. tauto.
Qed.

Lemma clear_represents s t :
  represents s t →
  ∃ s', clear s = Some s' ∧ represents s' Leaf ∧ tree_size_ s' = 0.
Proof.
  intros Hrep. pose proof (represents_height _ _ Hrep) as Hf.
  destruct Hrep as (Hroot & Hrepr & Hnd & Hdom).
  destruct (destroy_repr _ _ _ _ Hrepr Hnd Hf) as (h' & Hd & Hdom' & _).
  eexists. split.
  { unfold clear, reset_link. simpl. rewrite Hroot, Hd. done. }
  split; [|done]. split; [done|]. split; [done|]. split; [constructor|].
  simpl. rewrite Hdom', Hdom. set_solver.
Qed.

(** ** Lookup *)

Lemma contains_represents s t key :
  represents s t →
  contains key s = Some (if (descend key [] t).2 is Leaf then false else true).
Proof.
  intros Hrep. unfold contains.
  rewrite (find_node_represents _ _ _ Hrep). simpl.
  by destruct (descend key [] t).2.
Qed.

Lemma find_represents s t key :
  represents s t →
  find key s = Some (mkIt (root_of (descend key [] t).2) true).
Proof.
  intros Hrep. unfold find. by rewrite (find_node_represents _ _ _ Hrep).
Qed.

(** ** The tree builders *)

Lemma same_values_pre_order t t' : same_values t t' → pre_order t' = pre_order t.
Proof.
  revert t'. induction t as [|l IHl p v r IHr]; intros [|l' p' v' r']; try done.
  simpl. intros (-> & Hl & Hr). by rewrite (IHl _ Hl), (IHr _ Hr).
Qed.

Lemma same_values_post_order t t' :
  same_values t t' → post_order t' = post_order t.
Proof.
  revert t'. induction t as [|l IHl p v r IHr]; intros [|l' p' v' r']; try done.
  simpl. intros (-> & Hl & Hr). by rewrite (IHl _ Hl), (IHr _ Hr).
Qed.

Lemma length_pre_order t : length (pre_order t) = length (nodes t).
Proof.
  induction t as [|l IHl p v r IHr]; simpl; [done|].
  rewrite !length_app. simpl. lia.
Qed.

Lemma length_post_order t : length (post_order t) = length (nodes t).
Proof.
  induction t as [|l IHl p v r IHr]; simpl; [done|].
  rewrite !length_app. simpl. lia.
Qed.

Lemma length_in_order t : length (in_order t) = length (nodes t).
Proof. unfold in_order. by rewrite length_fmap. Qed.

Lemma in_order_Fork l p v r :
  in_order (Fork l p v r) = in_order l ++ v :: in_order r.
Proof. unfold in_order. simpl. by rewrite fmap_app. Qed.

Lemma int_range_Some z : INT_MIN ≤ z ≤ INT_MAX → int_range z = Some z.
Proof.
  clear ltb_trans ltb_irrefl.
  intros Hz. unfold int_range. by rewrite bool_decide_eq_true_2.
Qed.

Lemma int_range_inv z z' :
  int_range z = Some z' → z' = z ∧ INT_MIN ≤ z ≤ INT_MAX.
Proof.
  clear ltb_trans ltb_irrefl. unfold int_range.
  case_bool_decide; [|done]. by intros [= ->].
Qed.

Lemma int_of_length (n : nat) :
  (0 < n)%nat → Z.of_nat n ≤ INT_MAX →
  int_of_size_t (size_decr (Z.of_nat n)) = Z.of_nat n - 1.
Proof.
  clear ltb_trans ltb_irrefl.
  intros Hn Hmax. unfold size_decr, SIZE_MOD, int_of_size_t, INT_MAX in *.
  rewrite (Z.mod_small (Z.of_nat n - 1)) by lia.
  rewrite Z.mod_small by lia. lia.
Qed.

Lemma at_index_nat (l : list T) (k : nat) : at_index l (Z.of_nat k) = l !! k.
Proof.
  unfold at_index. rewrite bool_decide_eq_true_2 by lia. by rewrite Nat2Z.id.
Qed.

Lemma build_from_pre_in_spec t :
  ∀ fuel h preorder k inorder_map in_start parent,
  (height t < fuel)%nat →
  Z.of_nat (k + length (nodes t)) ≤ INT_MAX →
  0 ≤ in_start → in_start + Z.of_nat (length (nodes t)) ≤ INT_MAX →
  (∀ i x, pre_order t !! i = Some x → preorder !! (k + i)%nat = Some x) →
  (∀ i x, in_order t !! i = Some x →
          inorder_map !! x = Some (in_start + Z.of_nat i)) →
  ∃ h' t',
    build_from_pre_in fuel h preorder (Z.of_nat k) inorder_map in_start
      (in_start + Z.of_nat (length (nodes t)) - 1) parent
    = Some (h', Z.of_nat (k + length (nodes t)), root_of t')
    ∧ same_values t t' ∧ repr h' parent t' ∧ NoDup (locs t')
    ∧ (∀ q, q ∈ locs t' → q ∉ dom h)
    ∧ dom h' = dom h ∪ list_to_set (locs t')
    ∧ (∀ q, q ∈ dom h → h' !! q = h !! q).
Proof.
  induction t as [|l IHl p v r IHr];
    intros fuel h preorder k inorder_map in_start parent Hf Hk Hs0 Hs1 Hpre Hin.
  { exists h, Leaf. destruct fuel as [|f]; [lia|]. simpl.
    rewrite bool_decide_eq_true_2 by lia.
    rewrite Nat.add_0_r. split; [done|]. split; [done|]. split; [done|].
    split; [constructor|]. split; [by intros q Hq%not_elem_of_nil|].
    split; [|done]. unfold locs. simpl. set_solver. }
  destruct fuel as [|f]; [lia|]. simpl in Hf.
  set (nl := length (nodes l)). set (nr := length (nodes r)).
  assert (length (nodes (Fork l p v r)) = (nl + 1 + nr)%nat) as Hlen.
  { simpl. rewrite length_app. simpl. unfold nl, nr. lia. }
  rewrite Hlen in Hk, Hs1 |- *.
  cbn [build_from_pre_in].
  rewrite bool_decide_eq_false_2 by lia.
  rewrite at_index_nat.
  assert (preorder !! k = Some v) as ->.
  { rewrite <- (Nat.add_0_r k). by apply Hpre. }
  cbn [mbind option_bind].
  rewrite int_range_Some by (unfold INT_MIN, INT_MAX in *; lia). cbn [mbind option_bind]. unfold alloc.
  set (node := fresh (dom h)).
  assert (node ∉ dom h) as Hfresh by apply is_fresh.
  set (h1 := <[node := mkNode v None None parent]> h).
  assert (inorder_map !! v = Some (in_start + Z.of_nat nl)) as Hidx.
  { apply Hin. rewrite in_order_Fork.
    rewrite lookup_app_r; rewrite length_in_order; [|done].
    by rewrite Nat.sub_diag. }
  rewrite Hidx. cbn [mbind option_bind].
  rewrite !int_range_Some by (unfold INT_MIN, INT_MAX in *; lia). cbn [mbind option_bind].
  (* the left subtree *)
  destruct (IHl f h1 preorder (k + 1)%nat inorder_map in_start (Some node))
    as (h2 & l' & Hbl & Hsl & Hrl & Hnl & Hfl & Hdl & Hal).
  { lia. }
  { fold nl. lia. }
  { done. }
  { fold nl. lia. }
  { intros i x Hi. rewrite <- Nat.add_assoc. apply Hpre. simpl.
    by apply lookup_app_l_Some. }
  { intros i x Hi. apply Hin. rewrite in_order_Fork.
    by apply lookup_app_l_Some. }
  replace (Z.of_nat k + 1) with (Z.of_nat (k + 1)) by lia.
  fold nl in Hbl. rewrite Hbl. cbn [mbind option_bind].
  assert (h2 !! node = Some (mkNode v None None parent)) as Hn2.
  { rewrite Hal; [|unfold h1; set_solver]. unfold h1.
    by rewrite lookup_insert_eq. }
  rewrite Hn2. cbn [mbind option_bind].
  set (h3 := <[node := set_left (root_of l') (mkNode v None None parent)]> h2).
  (* the right subtree *)
  destruct (IHr f h3 preorder (k + 1 + nl)%nat inorder_map
              (in_start + Z.of_nat nl + 1) (Some node))
    as (h4 & r' & Hbr & Hsr & Hrr & Hnr & Hfr & Hdr & Har).
  { lia. }
  { fold nr. lia. }
  { lia. }
  { fold nr. lia. }
  { intros i x Hi. replace (k + 1 + nl + i)%nat with (k + (1 + nl + i))%nat by lia.
    apply Hpre. simpl. rewrite lookup_app_r; rewrite length_pre_order; [|lia].
    by replace (nl + i - length (nodes l))%nat with i by (unfold nl; lia). }
  { intros i x Hi.
    replace (in_start + Z.of_nat nl + 1 + Z.of_nat i)
      with (in_start + Z.of_nat (nl + 1 + i)) by lia.
    apply Hin. rewrite in_order_Fork.
    rewrite lookup_app_r; rewrite length_in_order; [|unfold nl; lia].
    by replace (nl + 1 + i - length (nodes l))%nat with (S i) by (unfold nl; lia). }
  fold nr in Hbr.
  replace (in_start + Z.of_nat nl + 1 + Z.of_nat nr - 1)
    with (in_start + Z.of_nat (nl + 1 + nr) - 1) in Hbr by lia.
  rewrite Hbr. cbn [mbind option_bind].
  assert (node ∈ dom h3) as Hnode3.
  { unfold h3. rewrite dom_insert_L. set_solver. }
  assert (h4 !! node = Some (mkNode v (root_of l') None parent)) as Hn4.
  { rewrite Har by done. unfold h3. by rewrite lookup_insert_eq. }
  rewrite Hn4. cbn [mbind option_bind].
  assert (dom h1 = {[node]} ∪ dom h) as Hdom1.
  { unfold h1. by rewrite dom_insert_L. }
  assert (dom h3 = dom h2) as Hdom3.
  { unfold h3. apply dom_insert_lookup_L. eauto. }
  assert (node ∉ locs l') as Hnl'.
  { intros Hq. apply (Hfl _ Hq). rewrite Hdom1. set_solver. }
  assert (node ∉ locs r') as Hnr'.
  { intros Hq. by apply (Hfr _ Hq). }
  assert (∀ q, q ∈ locs l' → q ∉ locs r') as Hdisj.
  { intros q Hq1 Hq2. apply (Hfr _ Hq2). rewrite Hdom3, Hdl.
    apply elem_of_union. right. by apply elem_of_list_to_set. }
  exists (<[node := set_right (root_of r') (mkNode v (root_of l') None parent)]> h4),
         (Fork l' node v r').
  split.
  { do 3 f_equal. lia. }
  split; [done|]. split.
  { simpl. split; [by rewrite lookup_insert_eq|]. split.
    - eapply repr_agree; [|exact Hrl]. intros q Hq.
      rewrite lookup_insert_ne by (by intros ->).
      rewrite Har.
      + unfold h3. apply lookup_insert_ne. by intros ->.
      + rewrite Hdom3, Hdl. apply elem_of_union. right.
        by apply elem_of_list_to_set.
    - eapply repr_agree; [|exact Hrr]. intros q Hq.
      apply lookup_insert_ne. by intros ->. }
  split.
  { rewrite locs_Fork. apply NoDup_app. split; [done|]. split.
    - intros q Hq1 Hq2. apply elem_of_cons in Hq2 as [->|Hq2]; [done|].
      by apply (Hdisj q).
    - by apply NoDup_cons. }
  split.
  { intros q Hq. rewrite locs_Fork in Hq.
    apply elem_of_app in Hq as [Hq|Hq].
    - intros Hd. apply (Hfl _ Hq). rewrite Hdom1. set_solver.
    - apply elem_of_cons in Hq as [->|Hq]; [done|].
      intros Hd. apply (Hfr _ Hq). rewrite Hdom3, Hdl, Hdom1. set_solver. }
  split.
  { rewrite dom_insert_lookup_L by eauto.
    rewrite Hdr, Hdom3, Hdl, Hdom1, locs_Fork. apply set_eq. intros q.
    rewrite !elem_of_union, !elem_of_list_to_set, elem_of_app, elem_of_cons,
      elem_of_singleton. tauto. }
  intros q Hq.
  rewrite lookup_insert_ne by (by intros ->).
  rewrite Har by (rewrite Hdom3, Hdl, Hdom1; set_solver).
  unfold h3. rewrite lookup_insert_ne by (by intros ->).
  rewrite Hal by (rewrite Hdom1; set_solver).
  unfold h1. apply lookup_insert_ne. by intros ->.
Qed.

Lemma build_from_post_in_spec t :
  ∀ fuel h postorder m inorder_map in_start parent,
  (height t < fuel)%nat →
  Z.of_nat (m + length (nodes t)) ≤ INT_MAX →
  0 ≤ in_start → in_start + Z.of_nat (length (nodes t)) ≤ INT_MAX →
  (∀ i x, post_order t !! i = Some x → postorder !! (m + i)%nat = Some x) →
  (∀ i x, in_order t !! i = Some x →
          inorder_map !! x = Some (in_start + Z.of_nat i)) →
  ∃ h' t',
    build_from_post_in fuel h postorder
      (Z.of_nat (m + length (nodes t)) - 1) inorder_map in_start
      (in_start + Z.of_nat (length (nodes t)) - 1) parent
    = Some (h', Z.of_nat m - 1, root_of t')
    ∧ same_values t t' ∧ repr h' parent t' ∧ NoDup (locs t')
    ∧ (∀ q, q ∈ locs t' → q ∉ dom h)
    ∧ dom h' = dom h ∪ list_to_set (locs t')
    ∧ (∀ q, q ∈ dom h → h' !! q = h !! q).
Proof.
  induction t as [|l IHl p v r IHr];
    intros fuel h postorder m inorder_map in_start parent Hf Hk Hs0 Hs1 Hpost Hin.
  { exists h, Leaf. destruct fuel as [|f]; [lia|]. simpl.
    rewrite bool_decide_eq_true_2 by lia.
    rewrite Nat.add_0_r. split; [done|]. split; [done|]. split; [done|].
    split; [constructor|]. split; [by intros q Hq%not_elem_of_nil|].
    split; [|done]. unfold locs. simpl. set_solver. }
  destruct fuel as [|f]; [lia|]. simpl in Hf.
  set (nl := length (nodes l)). set (nr := length (nodes r)).
  assert (length (nodes (Fork l p v r)) = (nl + 1 + nr)%nat) as Hlen.
  { simpl. rewrite length_app. simpl. unfold nl, nr. lia. }
  rewrite Hlen in Hk, Hs1 |- *.
  cbn [build_from_post_in].
  rewrite bool_decide_eq_false_2 by lia.
  replace (Z.of_nat (m + (nl + 1 + nr)) - 1) with (Z.of_nat (m + (nl + nr))) by lia.
  rewrite at_index_nat.
  assert (postorder !! (m + (nl + nr))%nat = Some v) as ->.
  { apply Hpost. simpl.
    rewrite lookup_app_r; rewrite length_post_order; [|unfold nl; lia].
    rewrite lookup_app_r; rewrite length_post_order; [|unfold nl, nr; lia].
    by replace (nl + nr - length (nodes l) - length (nodes r))%nat with 0%nat
      by (unfold nl, nr; lia). }
  cbn [mbind option_bind].
  rewrite int_range_Some by (unfold INT_MIN, INT_MAX in *; lia). cbn [mbind option_bind]. unfold alloc.
  set (node := fresh (dom h)).
  assert (node ∉ dom h) as Hfresh by apply is_fresh.
  set (h1 := <[node := mkNode v None None parent]> h).
  assert (inorder_map !! v = Some (in_start + Z.of_nat nl)) as Hidx.
  { apply Hin. rewrite in_order_Fork.
    rewrite lookup_app_r; rewrite length_in_order; [|done].
    by rewrite Nat.sub_diag. }
  rewrite Hidx. cbn [mbind option_bind].
  rewrite !int_range_Some by (unfold INT_MIN, INT_MAX in *; lia). cbn [mbind option_bind].
  (* the right subtree *)
  destruct (IHr f h1 postorder (m + nl)%nat inorder_map
              (in_start + Z.of_nat nl + 1) (Some node))
    as (h2 & r' & Hbr & Hsr & Hrr & Hnr & Hfr & Hdr & Har).
  { lia. }
  { fold nr. lia. }
  { lia. }
  { fold nr. lia. }
  { intros i x Hi. rewrite <- Nat.add_assoc. apply Hpost. simpl.
    rewrite lookup_app_r; rewrite length_post_order; [|unfold nl; lia].
    apply lookup_app_l_Some.
    by replace (nl + i - length (nodes l))%nat with i by (unfold nl; lia). }
  { intros i x Hi.
    replace (in_start + Z.of_nat nl + 1 + Z.of_nat i)
      with (in_start + Z.of_nat (nl + 1 + i)) by lia.
    apply Hin. rewrite in_order_Fork.
    rewrite lookup_app_r; rewrite length_in_order; [|unfold nl; lia].
    by replace (nl + 1 + i - length (nodes l))%nat with (S i) by (unfold nl; lia). }
  fold nr in Hbr.
  replace (Z.of_nat (m + (nl + nr)) - 1) with (Z.of_nat (m + nl + nr) - 1) by lia.
  replace (in_start + Z.of_nat nl + 1 + Z.of_nat nr - 1)
    with (in_start + Z.of_nat (nl + 1 + nr) - 1) in Hbr by lia.
  rewrite Hbr. cbn [mbind option_bind].
  assert (dom h1 = {[node]} ∪ dom h) as Hdom1.
  { unfold h1. by rewrite dom_insert_L. }
  assert (node ∈ dom h1) as Hnode1.
  { rewrite Hdom1. apply elem_of_union. left. by apply elem_of_singleton. }
  assert (h2 !! node = Some (mkNode v None None parent)) as Hn2.
  { rewrite Har by done. unfold h1. by rewrite lookup_insert_eq. }
  rewrite Hn2. cbn [mbind option_bind].
  set (h3 := <[node := set_right (root_of r') (mkNode v None None parent)]> h2).
  (* the left subtree *)
  destruct (IHl f h3 postorder m inorder_map in_start (Some node))
    as (h4 & l' & Hbl & Hsl & Hrl & Hnl & Hfl & Hdl & Hal).
  { lia. }
  { fold nl. lia. }
  { done. }
  { fold nl. lia. }
  { intros i x Hi. apply Hpost. simpl. by apply lookup_app_l_Some. }
  { intros i x Hi. apply Hin. rewrite in_order_Fork.
    by apply lookup_app_l_Some. }
  fold nl in Hbl. rewrite Hbl. cbn [mbind option_bind].
  assert (dom h3 = dom h2) as Hdom3.
  { unfold h3. apply dom_insert_lookup_L. eauto. }
  assert (node ∈ dom h3) as Hnode3.
  { rewrite Hdom3, Hdr. apply elem_of_union. by left. }
  assert (h4 !! node = Some (mkNode v None (root_of r') parent)) as Hn4.
  { rewrite Hal by done. unfold h3. by rewrite lookup_insert_eq. }
  rewrite Hn4. cbn [mbind option_bind].
  assert (node ∉ locs r') as Hnr'.
  { intros Hq. by apply (Hfr _ Hq). }
  assert (node ∉ locs l') as Hnl'.
  { intros Hq. by apply (Hfl _ Hq). }
  assert (∀ q, q ∈ locs l' → q ∉ locs r') as Hdisj.
  { intros q Hq1 Hq2. apply (Hfl _ Hq1). rewrite Hdom3, Hdr.
    apply elem_of_union. right. by apply elem_of_list_to_set. }
  exists (<[node := set_left (root_of l') (mkNode v None (root_of r') parent)]> h4),
         (Fork l' node v r').
  split; [done|]. split; [done|]. split.
  { simpl. split; [by rewrite lookup_insert_eq|]. split.
    - eapply repr_agree; [|exact Hrl]. intros q Hq.
      apply lookup_insert_ne. by intros ->.
    - eapply repr_agree; [|exact Hrr]. intros q Hq.
      rewrite lookup_insert_ne by (by intros ->).
      rewrite Hal.
      + unfold h3. apply lookup_insert_ne. by intros ->.
      + rewrite Hdom3, Hdr. apply elem_of_union. right.
        by apply elem_of_list_to_set. }
  split.
  { rewrite locs_Fork. apply NoDup_app. split; [done|]. split.
    - intros q Hq1 Hq2. apply elem_of_cons in Hq2 as [->|Hq2]; [done|].
      by apply (Hdisj q).
    - by apply NoDup_cons. }
  assert (∀ q, q ∈ dom h → q ∈ dom h1) as Hsub1.
  { intros q Hq. rewrite Hdom1. apply elem_of_union. by right. }
  assert (∀ q, q ∈ dom h1 → q ∈ dom h3) as Hsub3.
  { intros q Hq. rewrite Hdom3, Hdr. apply elem_of_union. by left. }
  split.
  { intros q Hq. rewrite locs_Fork in Hq.
    apply elem_of_app in Hq as [Hq|Hq].
    - intros Hd. apply (Hfl _ Hq). auto.
    - apply elem_of_cons in Hq as [->|Hq]; [done|].
      intros Hd. apply (Hfr _ Hq). auto. }
  split.
  { rewrite dom_insert_lookup_L by eauto.
    rewrite Hdl, Hdom3, Hdr, Hdom1, locs_Fork. apply set_eq. intros q.
    rewrite !elem_of_union, !elem_of_list_to_set, elem_of_app, elem_of_cons,
      elem_of_singleton. tauto. }
  intros q Hq.
  rewrite lookup_insert_ne by (by intros ->).
  rewrite Hal by auto.
  unfold h3. rewrite lookup_insert_ne by (by intros ->).
  rewrite Har by auto.
  unfold h1. apply lookup_insert_ne. by intros ->.
Qed.

Lemma index_inorder_notin (l : list T) k m m' x :
  index_inorder l k m = Some m' → x ∉ l → m' !! x = m !! x.
Proof.
  clear ltb_trans ltb_irrefl.
  revert k m. induction l as [|y l IH]; intros k m Hi Hx; simpl in Hi.
  { by simplify_eq. }
  destruct (int_range (k + 1)) as [k'|]; [|done]. simpl in Hi.
  apply not_elem_of_cons in Hx as [Hxy Hx].
  rewrite (IH _ _ Hi Hx). by apply lookup_insert_ne.
Qed.

Lemma index_inorder_lookup (l : list T) k m :
  INT_MIN ≤ k → k + Z.of_nat (length l) ≤ INT_MAX →
  ∃ m', index_inorder l k m = Some m'
        ∧ (NoDup l → ∀ i x, l !! i = Some x →
                            m' !! x = Some (k + Z.of_nat i)).
Proof.
  revert k m. induction l as [|y l IH]; intros k m Hk Hmax.
  { exists m. split; [done|]. by intros _ i x Hi. }
  simpl in Hmax. simpl. rewrite int_range_Some by lia. simpl.
  destruct (IH (k + 1) (<[y := k]> m)) as (m' & Hm' & Hlook); [lia..|].
  exists m'. split; [done|]. intros Hnd i x Hi.
  apply NoDup_cons in Hnd as [Hy Hnd]. destruct i as [|i]; simpl in Hi.
  - simplify_eq. rewrite (index_inorder_notin _ _ _ _ _ Hm' Hy).
    rewrite lookup_insert_eq. f_equal. lia.
  - rewrite (Hlook Hnd i x Hi). f_equal. lia.
Qed.

(** The loop over a non-empty vector runs to its end only if the vector is
    no longer than the greatest [int]. *)
Lemma index_inorder_bound (l : list T) k m m' :
  index_inorder l k m = Some m' → l ≠ [] →
  k + Z.of_nat (length l) ≤ INT_MAX.
Proof.
  clear ltb_trans ltb_irrefl.
  revert k m. induction l as [|y l IH]; intros k m Hi Hne; [done|].
  simpl in Hi. destruct (int_range (k + 1)) as [k'|] eqn:Hk; [|done].
  apply int_range_inv in Hk as [-> Hk]. simpl in Hi.
  destruct l as [|z l]; [simpl; lia|].
  pose proof (IH _ _ Hi) as Hb. simpl length in *.
  assert (z :: l ≠ []) as Hne' by done. specialize (Hb Hne'). lia.
Qed.

Lemma sorted_NoDup (l : list T) : StronglySorted lt l → NoDup l.
Proof.
  induction 1 as [|x l Hs IH Hx]; constructor; [|done].
  intros Hin. eapply Forall_forall in Hx; [|done].
  unfold lt in Hx. by rewrite ltb_irrefl in Hx.
Qed.

Lemma represents_empty_tree : represents (T:=T) empty_tree Leaf.
Proof.
  split; [done|]. split; [done|]. split; [constructor|]. simpl.
  by rewrite dom_empty_L.
Qed.

Lemma from_pre_in_round_trip t :
  NoDup (in_order t) → Z.of_nat (length (nodes t)) ≤ INT_MAX →
  ∃ s' t', from_pre_in (pre_order t) (in_order t) = Some s'
         ∧ represents s' t' ∧ same_values t t'
         ∧ tree_size_ s' = Z.of_nat (length (nodes t)).
Proof.
  intros Hnd Hmax. unfold from_pre_in.
  rewrite length_pre_order, length_in_order.
  rewrite (bool_decide_eq_true_2 (_ = length (nodes t))) by done.
  destruct (decide (length (nodes t) = 0%nat)) as [Hz|Hnz].
  { rewrite bool_decide_eq_true_2 by done. simpl.
    exists empty_tree, Leaf. destruct t as [|l p v r].
    - split; [done|]. split; [apply represents_empty_tree|done].
    - simpl in Hz. rewrite length_app in Hz. simpl in Hz. lia. }
  rewrite bool_decide_eq_false_2 by done. simpl negb. cbn [orb].
  destruct (index_inorder_lookup (in_order t) 0 ∅) as (mp & Hmp & Hlook).
  { unfold INT_MIN. lia. }
  { rewrite length_in_order. lia. }
  rewrite Hmp. cbn [mbind option_bind].
  rewrite int_of_length by (done || lia).
  destruct (build_from_pre_in_spec t (S (length (nodes t))) ∅ (pre_order t)
              0%nat mp 0 None)
    as (h' & t' & Hb & Hs & Hr & Hn & _ & Hd & _).
  { pose proof (height_le_nodes t). lia. }
  { lia. }
  { done. }
  { lia. }
  { by intros i x Hi. }
  { intros i x Hi. by apply Hlook. }
  rewrite Z.add_0_l in Hb. change (Z.of_nat 0) with 0 in Hb.
  rewrite Hb. simpl.
  eexists _, t'. split; [done|]. split; [|done].
  split; [done|]. split; [done|]. split; [done|]. simpl.
  rewrite Hd, dom_empty_L. set_solver.
Qed.

Lemma from_in_post_round_trip t :
  NoDup (in_order t) → Z.of_nat (length (nodes t)) ≤ INT_MAX →
  ∃ s' t', from_in_post (in_order t) (post_order t) = Some s'
         ∧ represents s' t' ∧ same_values t t'
         ∧ tree_size_ s' = Z.of_nat (length (nodes t)).
Proof.
  intros Hnd Hmax. unfold from_in_post.
  rewrite length_post_order, length_in_order.
  rewrite (bool_decide_eq_true_2 (_ = length (nodes t))) by done.
  destruct (decide (length (nodes t) = 0%nat)) as [Hz|Hnz].
  { rewrite bool_decide_eq_true_2 by done. simpl.
    exists empty_tree, Leaf. destruct t as [|l p v r].
    - split; [done|]. split; [apply represents_empty_tree|done].
    - simpl in Hz. rewrite length_app in Hz. simpl in Hz. lia. }
  rewrite bool_decide_eq_false_2 by done. simpl negb. cbn [orb].
  destruct (index_inorder_lookup (in_order t) 0 ∅) as (mp & Hmp & Hlook).
  { unfold INT_MIN. lia. }
  { rewrite length_in_order. lia. }
  rewrite Hmp. cbn [mbind option_bind].
  rewrite int_of_length by (done || lia).
  destruct (build_from_post_in_spec t (S (length (nodes t))) ∅ (post_order t)
              0%nat mp 0 None)
    as (h' & t' & Hb & Hs & Hr & Hn & _ & Hd & _).
  { pose proof (height_le_nodes t). lia. }
  { lia. }
  { done. }
  { lia. }
  { by intros i x Hi. }
  { intros i x Hi. by apply Hlook. }
  rewrite Z.add_0_l, Nat.add_0_l in Hb.
  rewrite Hb. simpl.
  eexists _, t'. split; [done|]. split; [|done].
  split; [done|]. split; [done|]. split; [done|]. simpl.
  rewrite Hd, dom_empty_L. set_solver.
Qed.

(** ** Stepping back from the end *)

Lemma last_snoc_inv {A} (xs : list A) x :
  last xs = Some x → ∃ ys, xs = ys ++ [x].
Proof.
  intros Hl. destruct xs as [|y xs _] using rev_ind; [done|].
  rewrite last_snoc in Hl. simplify_eq. by exists xs.
Qed.

Lemma pre_decrement_end_represents s t :
  represents s t → bst t → tree_size_ s ≠ 0 → t ≠ Leaf →
  ∃ q m ns,
    pre_decrement s (end_ s) = Some (mkIt (Some q) true)
    ∧ deref s (mkIt (Some q) true) = Some m
    ∧ nodes t = ns ++ [(q, m)]
    ∧ Forall (λ x, lt x m) ns.*2.
Proof.
  intros Hrep Hb Hsz Hne. pose proof (represents_height _ _ Hrep) as Hf.
  destruct Hrep as (Hroot & Hrepr & Hnd & Hdom).
  destruct t as [|l p v r]; [done|].
  destruct (last (nodes (Fork l p v r))) as [[q m]|] eqn:Hlast.
  2:{ apply last_None in Hlast. simpl in Hlast.
      by destruct (nodes l). }
  destruct (last_snoc_inv _ _ Hlast) as [ns Hns].
  exists q, m, ns. split.
  { unfold pre_decrement, empty, find_max. simpl.
    apply Z.eqb_neq in Hsz. rewrite Hsz. simpl. rewrite Hroot. simpl.
    erewrite descend_right_last; [|done|done|lia].
    unfold locs. rewrite Hns, fmap_app. cbn [fmap list_fmap].
    by rewrite last_snoc. }
  split.
  { unfold deref. simpl.
    destruct (repr_lookup _ _ _ q m Hrepr) as (n & -> & Hdata).
    - rewrite Hns. apply elem_of_app. right. by left.
    - simpl. by rewrite Hdata. }
  split; [done|].
  apply bst_sorted in Hb. unfold in_order in Hb. rewrite Hns, fmap_app in Hb.
  apply StronglySorted_app in Hb as (Hb & _ & _).
  apply Forall_forall. intros x Hx. apply Hb; [done|]. simpl. by left.
Qed.

Lemma find_node_equiv fuel h current key p :
  find_node fuel h current key = Some (Some p) →
  ∃ n, h !! p = Some n ∧ equivb key (data n) = true.
Proof.
  revert current. induction fuel as [|f IH]; intros [c|]; simpl; try done.
  destruct (h !! c) as [n|] eqn:Hc; simpl; [|done].
  destruct (ltb key (data n)) eqn:E1; [apply IH|].
  destruct (ltb (data n) key) eqn:E2; [apply IH|].
  intros [= <-]. exists n. split; [done|]. unfold equivb. by rewrite E1, E2.
Qed.

(** ** Sequences of insertions *)

Lemma equivb_refl x : equivb x x = true.
Proof. unfold equivb. by rewrite ltb_irrefl. Qed.

Lemma emplace_elements val s t :
  represents s t → bst t →
  ∃ s' res t',
    emplace val s = Some (s', res) ∧ represents s' t' ∧ bst t'
    ∧ (∀ x, x ∈ in_order t' → x ∈ in_order t ∨ x = val)
    ∧ (∀ x, x ∈ in_order t → x ∈ in_order t')
    ∧ (∃ y, y ∈ in_order t' ∧ equivb val y = true).
Proof.
  intros Hrep Hb.
  destruct (emplace_spec val s t Hrep Hb)
    as (s' & it & b & t' & He & Hrep' & Hb' & Hcase).
  exists s', (it, b), t'. split; [done|]. split; [done|]. split; [done|].
  destruct Hcase as [(_ & _ & -> & p & v & _ & Hin & Heq)
                    |(_ & _ & p & xs & ys & _ & Hn & Hn')].
  - split; [by left|]. split; [done|]. exists v. split; [|done].
    unfold in_order. apply list_elem_of_fmap. by exists (p, v).
  - unfold in_order. rewrite Hn, Hn', !fmap_app, fmap_cons. simpl.
    split; [|split].
    + intros x. rewrite !elem_of_app, elem_of_cons. tauto.
    + intros x. rewrite !elem_of_app, elem_of_cons. tauto.
    + exists val. split; [|apply equivb_refl].
      rewrite elem_of_app, elem_of_cons. tauto.
Qed.

Lemma apply_insertion_emplace i s :
  apply_insertion i s = fst <$> emplace (inserted_value i) s.
Proof.
  destruct i as [v|v]; simpl; [|done]. unfold insert.
  by destruct (emplace v s) as [[s' [it b]]|].
Qed.

Lemma apply_insertions_spec ops :
  ∀ s t, represents s t → bst t →
  ∃ s' t',
    apply_insertions ops s = Some s' ∧ represents s' t' ∧ bst t'
    ∧ (∀ x, x ∈ in_order t' → x ∈ in_order t ∨ x ∈ inserted_value <$> ops)
    ∧ (∀ x, x ∈ in_order t → x ∈ in_order t')
    ∧ (∀ x, x ∈ inserted_value <$> ops →
            ∃ y, y ∈ in_order t' ∧ equivb x y = true).
Proof.
  induction ops as [|i ops IH]; intros s t Hrep Hb.
  { exists s, t. split; [done|]. split; [done|]. split; [done|].
    split; [by left|]. split; [done|].
    intros x Hx. by apply not_elem_of_nil in Hx. }
  destruct (emplace_elements (inserted_value i) s t Hrep Hb)
    as (s1 & r & t1 & He & Hrep1 & Hb1 & Hsub & Hkeep & y0 & Hy0 & Heq0).
  destruct (IH s1 t1 Hrep1 Hb1)
    as (s' & t' & Ha & Hrep' & Hb' & Hfrom & Hkeep' & Hall).
  exists s', t'. split.
  { simpl. rewrite apply_insertion_emplace, He. simpl. exact Ha. }
  split; [done|]. split; [done|]. split; [|split].
  - intros x Hx. rewrite fmap_cons, elem_of_cons.
    destruct (Hfrom x Hx) as [Hx1|Hx1]; [|tauto].
    destruct (Hsub x Hx1); tauto.
  - intros x Hx. by apply Hkeep', Hkeep.
  - intros x Hx. rewrite fmap_cons, elem_of_cons in Hx.
    destruct Hx as [Hx | Hx]; [|by apply Hall].
    subst x. exists y0. split; [by apply Hkeep'|done].
Qed.

(** * The properties of the container *)

Lemma wf_empty_tree : wf (T:=T) empty_tree.
Proof.
  exists Leaf. split; [apply represents_empty_tree|]. split; [done|].
  split; [done|]. simpl. unfold SIZE_MOD. lia.
Qed.

Lemma from_initializer_list_insertions vals :
  from_initializer_list vals = apply_insertions (via_insert <$> vals) empty_tree.
Proof.
  unfold from_initializer_list. generalize (empty_tree (T:=T)).
  induction vals as [|v vals IH]; intros s; simpl; [done|].
  destruct (insert v s) as [[s' it]|]; simpl; [apply IH|done].
Qed.

(** X25. For an element type whose move assignment satisfies
    [move_keeps_below], every mutating operation ([emplace], [insert],
    [erase] in each of its three cases, [clear]) runs to completion on a
    state that satisfies the ordering invariant and leaves a state that
    satisfies it. *)
Theorem mutations_preserve_ordering (m : mutation) (s : @BinarySearchTree T) :
  move_keeps_below → ordered s → ∃ s', mutate m s = Some s' ∧ ordered s'.
Proof.
  intros Hmove (t & Hrep & Hb). destruct m as [v|v|key|]; simpl.
  - destruct (emplace_elements v s t Hrep Hb)
      as (s' & r & t' & He & Hrep' & Hb' & _).
    exists s'. rewrite He. split; [done|]. by exists t'.
  - destruct (emplace_elements v s t Hrep Hb)
      as (s' & [it b] & t' & He & Hrep' & Hb' & _).
    exists s'. unfold insert. rewrite He. split; [done|]. by exists t'.
  - destruct (descend key [] t) as [ctx [|l e v r]] eqn:Hd.
    + exists s. rewrite (erase_absent _ _ _ _ Hrep Hd). split; [done|].
      by exists t.
    + destruct (erase_found_bst _ _ _ _ _ _ _ _ Hmove Hrep Hb Hd)
        as (s' & it & t' & xs & ys & He & Hrep' & Hb' & _).
      exists s'. rewrite He. split; [done|]. by exists t'.
  - destruct (clear_represents _ _ Hrep) as (s' & Hc & Hrep' & _).
    exists s'. split; [done|]. by exists Leaf.
Qed.

Lemma counted_after_erase s s' t t' xs v ys :
  counted s t → in_order t = xs ++ v :: ys → in_order t' = xs ++ ys →
  tree_size_ s' = size_decr (tree_size_ s) →
  counted s' t' ∧ tree_size_ s' = tree_size_ s - 1.
Proof.
  intros [Hsz Hlt] Hin Hin' Hsz'.
  assert (length (nodes t) = S (length (nodes t'))) as Hlen.
  { rewrite <- !length_in_order, Hin, Hin', !length_app. simpl. lia. }
  assert (size_decr (tree_size_ s) = tree_size_ s - 1) as Hdecr.
  { unfold size_decr. apply Z.mod_small. lia. }
  unfold counted. rewrite Hsz', Hdecr. split; [|done]. split; lia.
Qed.

Lemma size_incr_small n : 0 ≤ n → n + 1 < SIZE_MOD → size_incr n = n + 1.
Proof. intros. unfold size_incr. apply Z.mod_small. lia. Qed.

Lemma emplace_preserves_wf val s :
  wf s → size s + 1 < SIZE_MOD →
  ∃ s' res, emplace val s = Some (s', res) ∧ wf s' ∧ size s' ≤ size s + 1.
Proof.
  unfold size. intros (t & Hrep & Hb & Hsz & Hlt) Hroom.
  destruct (emplace_spec val s t Hrep Hb)
    as (s' & it & b & t' & He & Hrep' & Hb' & Hcase).
  exists s', (it, b). split; [done|].
  destruct Hcase as [(_ & -> & -> & _)|(_ & Hsz' & p & xs & ys & _ & Hn & Hn')].
  - split; [|lia]. by exists t.
  - rewrite size_incr_small in Hsz' by lia. split; [|lia].
    exists t'. split; [done|]. split; [done|].
    assert (length (nodes t') = S (length (nodes t))) as Hlen.
    { rewrite Hn, Hn', !length_app. simpl. lia. }
    unfold counted. rewrite Hlen. lia.
Qed.

(** The well-formed states are closed under the mutating operations, as
    long as the count does not overflow. *)
Lemma mutate_preserves_wf (m : mutation) s :
  move_keeps_below → wf s → size s + 1 < SIZE_MOD →
  ∃ s', mutate m s = Some s' ∧ wf s' ∧ size s' ≤ size s + 1.
Proof.
  intros Hmove Hwf Hroom. destruct m as [v|v|key|]; simpl.
  - destruct (emplace_preserves_wf v s Hwf Hroom) as (s' & res & -> & ? & ?).
    by exists s'.
  - destruct (emplace_preserves_wf v s Hwf Hroom)
      as (s' & [it b] & He & ? & ?).
    exists s'. unfold insert. by rewrite He.
  - destruct Hwf as (t & Hrep & Hb & Hcnt).
    destruct (descend key [] t) as [ctx [|l e v r]] eqn:Hd.
    + exists s. rewrite (erase_absent _ _ _ _ Hrep Hd). split; [done|].
      split; [by exists t|lia].
    + destruct (erase_found_bst _ _ _ _ _ _ _ _ Hmove Hrep Hb Hd)
        as (s' & it & t' & xs & ys & He & Hrep' & Hb' & Hsz & Hin & Hin').
      destruct (counted_after_erase _ _ _ _ _ _ _ Hcnt Hin Hin' Hsz)
        as [Hcnt' Hsz'].
      exists s'. rewrite He. split; [done|]. split; [by exists t'|].
      unfold size. lia.
  - destruct Hwf as (t & Hrep & Hb & Hcnt).
    destruct (clear_represents _ _ Hrep) as (s' & Hc & Hrep' & Hsz).
    exists s'. split; [done|]. split.
    + exists Leaf. split; [done|]. split; [done|]. split; [done|].
      simpl. unfold SIZE_MOD. lia.
    + unfold size. rewrite Hsz. destruct Hcnt. lia.
Qed.

(** Every state the mutating operations produce from the empty tree is
    well-formed. *)
Lemma apply_mutations_wf ops s :
  move_keeps_below →
  wf s → size s + Z.of_nat (length ops) < SIZE_MOD →
  ∃ s', apply_mutations ops s = Some s' ∧ wf s'.
Proof.
  intros Hmove. revert s. induction ops as [|m ops IH]; intros s Hwf Hroom.
  { by exists s. }
  simpl in Hroom.
  destruct (mutate_preserves_wf m s Hmove Hwf) as (s1 & Hm & Hwf1 & Hsz);
    [lia|].
  destruct (IH s1 Hwf1) as (s' & Ha & Hwf'); [lia|].
  exists s'. simpl. by rewrite Hm.
Qed.

Hypothesis equivb_trans :
  ∀ a b c, equivb a b = true → equivb b c = true → equivb a c = true.

Lemma equivb_sym a b : equivb a b = equivb b a.
Proof. unfold equivb. apply andb_comm. Qed.

Lemma equivb_not_lt a b : equivb a b = true → ltb a b = false.
Proof. unfold equivb. by destruct (ltb a b). Qed.

Lemma sorted_unique_equiv key (xs ys : list T) v :
  StronglySorted lt (xs ++ v :: ys) → equivb key v = true →
  Forall (λ y, equivb key y = false) (xs ++ ys).
Proof.
  intros Hs Hkv. apply StronglySorted_app in Hs as (Hxv & _ & Hs).
  apply StronglySorted_inv in Hs as [_ Hvy].
  apply Forall_app. split; apply Forall_forall; intros y Hy.
  - destruct (equivb key y) eqn:E; [|done].
    assert (equivb y v = true) as Hyv.
    { eapply equivb_trans; [|exact Hkv]. by rewrite equivb_sym. }
    apply equivb_not_lt in Hyv.
    assert (lt y v) as Hlt by (apply Hxv; [done|by left]).
    unfold lt in Hlt. congruence.
  - destruct (equivb key y) eqn:E; [|done].
    assert (equivb v y = true) as Hvy'.
    { eapply equivb_trans; [|exact E]. by rewrite equivb_sym. }
    apply equivb_not_lt in Hvy'.
    eapply Forall_forall in Hvy; [|exact Hy]. unfold lt in Hvy. congruence.
Qed.

(** C1. Whatever values are inserted, through [insert], [emplace] or the
    initializer-list constructor, the in-order traversal and the iteration
    from [begin()] to [end()] both visit the same sequence: it is strictly
    ascending, has no repetition, consists of inserted values only, and
    holds exactly one element equivalent to each inserted value. *)
Theorem insertions_visited_in_sorted_order (ops : list insertion) :
  ∃ s L,
    apply_insertions ops empty_tree = Some s
    ∧ (∀ vals, ops = via_insert <$> vals → from_initializer_list vals = Some s)
    ∧ in_order_traversal s = Some L
    ∧ range_for s = Some L
    ∧ StronglySorted lt L
    ∧ NoDup L
    ∧ (∀ x, x ∈ L → x ∈ inserted_value <$> ops)
    ∧ (∀ x, x ∈ inserted_value <$> ops →
            ∃ xs y ys, L = xs ++ y :: ys ∧ equivb x y = true
                       ∧ Forall (λ z, equivb x z = false) (xs ++ ys)).
Proof.
  destruct (apply_insertions_spec ops empty_tree Leaf represents_empty_tree I)
    as (s & t & Ha & Hrep & Hb & Hfrom & _ & Hall).
  exists s, (in_order t). split; [done|]. split.
  { intros vals ->. by rewrite from_initializer_list_insertions. }
  split; [by apply in_order_traversal_represents|].
  split; [by apply range_for_represents|].
  apply bst_sorted in Hb. split; [done|]. split; [by apply sorted_NoDup|].
  split.
  - intros x Hx. destruct (Hfrom x Hx) as [Hx'|Hx']; [|done].
    by apply not_elem_of_nil in Hx'.
  - intros x Hx. destruct (Hall x Hx) as (y & Hy & Heq).
    apply list_elem_of_split in Hy as (xs & ys & Hsplit).
    exists xs, y, ys. split; [done|]. split; [done|].
    apply (sorted_unique_equiv x xs ys y); [|done]. by rewrite <- Hsplit.
Qed.

(** X26. For an element type whose move assignment satisfies
    [move_keeps_below], erasing a key that is present succeeds, lowers the
    count by exactly one, removes from the in-order sequence the one element
    equivalent to the key and keeps every other element in place; the
    result is again a well-formed tree. *)
Theorem erase_present_removes_exactly_one (key : T) (s : @BinarySearchTree T) :
  move_keeps_below → wf s → contains key s = Some true →
  ∃ s' it xs x ys,
    erase key s = Some (s', it)
    ∧ wf s'
    ∧ size s' = size s - 1
    ∧ in_order_traversal s = Some (xs ++ x :: ys)
    ∧ equivb key x = true
    ∧ in_order_traversal s' = Some (xs ++ ys)
    ∧ Forall (λ y, equivb key y = false) (xs ++ ys).
Proof.
  intros Hmove (t & Hrep & Hb & Hcnt) Hc.
  rewrite (contains_represents _ _ _ Hrep) in Hc.
  destruct (descend key [] t) as [ctx [|l e v r]] eqn:Hd; [done|]. clear Hc.
  destruct (erase_found_bst _ _ _ _ _ _ _ _ Hmove Hrep Hb Hd)
    as (s' & it & t' & xs & ys & He & Hrep' & Hb' & Hsz & Hin & Hin').
  destruct (counted_after_erase _ _ _ _ _ _ _ Hcnt Hin Hin' Hsz)
    as [Hcnt' Hsz'].
  exists s', it, xs, v, ys. split; [done|]. split; [by exists t'|].
  split; [done|].
  split; [by rewrite (in_order_traversal_represents _ _ Hrep), Hin|].
  split; [eapply (descend_found key [] t); by rewrite Hd|].
  split; [by rewrite (in_order_traversal_represents _ _ Hrep'), Hin'|].
  apply (sorted_unique_equiv key xs ys v).
  - rewrite <- Hin. by apply bst_sorted.
  - eapply (descend_found key [] t). by rewrite Hd.
Qed.

(** C5. Inserting or emplacing a key that is present changes nothing: the
    state returned is the state given, [emplace] reports [false], and the
    position returned is the one [find] gives, which holds a value
    equivalent to the key. *)
Theorem insert_present_is_noop (val : T) (s : @BinarySearchTree T) :
  wf s → contains val s = Some true →
  ∃ it x,
    emplace val s = Some (s, (it, false))
    ∧ insert val s = Some (s, it)
    ∧ find val s = Some it
    ∧ deref s it = Some x
    ∧ equivb val x = true.
Proof.
  intros (t & Hrep & Hb & Hcnt) Hc.
  rewrite (contains_represents _ _ _ Hrep) in Hc.
  destruct (descend val [] t) as [ctx [|l p v r]] eqn:Hd; [done|]. clear Hc.
  pose proof (emplace_present _ _ _ _ _ _ _ _ Hrep Hd) as He.
  exists (mkIt (Some p) true), v. split; [done|].
  split; [unfold insert; by rewrite He|].
  split; [by rewrite (find_represents _ _ _ Hrep), Hd|].
  split.
  - unfold deref. simpl. destruct Hrep as (_ & Hrepr & _).
    destruct (repr_lookup _ _ _ p v Hrepr) as (n & -> & Hn);
      [by eapply descend_elem|].
    simpl. by rewrite Hn.
  - eapply (descend_found val [] t). by rewrite Hd.
Qed.

(** C6. Erasing a key that is absent returns the end iterator and the
    state it was given; nothing is raised. *)
Theorem erase_absent_is_noop (key : T) (s : @BinarySearchTree T) :
  wf s → contains key s = Some false → erase key s = Some (s, end_ s).
Proof.
  intros (t & Hrep & Hb & Hcnt) Hc.
  rewrite (contains_represents _ _ _ Hrep) in Hc.
  destruct (descend key [] t) as [ctx [|l p v r]] eqn:Hd; [|done].
  by eapply erase_absent.
Qed.


(** X1. The iterator [erase] returns.  When the node that holds the element
    equivalent to the key has at most one child, that element is the one
    removed and the iterator is at its in-order successor: iterating from
    it in the new tree visits exactly the elements that followed the
    erased one. *)
Lemma erase_at_most_one_child_returns_successor key s e n :
  wf s → find key s = Some (mkIt (Some e) true) → store s !! e = Some n →
  left n = None ∨ right n = None →
  ∃ s' it xs ys,
    erase key s = Some (s', it)
    ∧ equivb key (data n) = true
    ∧ in_order_traversal s = Some (xs ++ data n :: ys)
    ∧ in_order_traversal s' = Some (xs ++ ys)
    ∧ deref s' it = head ys
    ∧ (it_eqb it (end_ s') = true ↔ ys = [])
    ∧ iterate (fuel_of (store s')) s' it = Some ys.
Proof.
  intros (t & Hrep & Hb & Hcnt) Hfind Hn Hone.
  rewrite (find_represents _ _ _ Hrep) in Hfind.
  destruct (descend key [] t) as [ctx [|l e' v r]] eqn:Hd; [done|].
  simpl in Hfind. injection Hfind as ->.
  destruct (erase_unfold _ _ _ _ _ _ _ _ Hrep Hd) as (_ & _ & He' & _).
  rewrite He' in Hn. injection Hn as <-. simpl in Hone |- *.
  assert (l = Leaf ∨ r = Leaf) as Hone'.
  { destruct Hone as [Hl|Hr]; [left; by destruct l|right; by destruct r]. }
  destruct (erase_found_one_child _ _ _ _ _ _ _ _ Hrep Hd Hone')
    as (s' & t' & He & Hrep' & Hsz & Hnodes & Hn').
  eexists s', _, (before ctx ++ nodes l).*2, (nodes r ++ after ctx).*2.
  split; [exact He|].
  split; [eapply (descend_found key [] t); by rewrite Hd|].
  split.
  { rewrite (in_order_traversal_represents _ _ Hrep). unfold in_order.
    by rewrite Hnodes, fmap_app, fmap_cons. }
  split.
  { rewrite (in_order_traversal_represents _ _ Hrep'). unfold in_order.
    by rewrite Hn', fmap_app. }
  split.
  { destruct (nodes r ++ after ctx) as [|[q w] tl] eqn:Htl; [done|]. simpl.
    destruct Hrep' as (_ & Hrepr' & _).
    destruct (repr_lookup _ _ _ q w Hrepr') as (qn & Hqn & Hqd).
    { rewrite Hn'. apply elem_of_app. right. by left. }
    unfold deref. simpl. rewrite Hqn. simpl. by rewrite Hqd. }
  split.
  { unfold it_eqb. simpl. rewrite bool_decide_eq_true.
    by destruct (nodes r ++ after ctx) as [|[q w] tl]. }
  apply (iterate_suffix s' t' (before ctx ++ nodes l)); [done|done|].
  apply represents_fuel in Hrep'. rewrite Hn', length_app in Hrep'. lia.
Qed.

(** When the erased node has two children, the iterator returned points to
    the node that held the successor value, and that node has been
    released: the iterator dangles. *)
Lemma erase_two_children_iterator_dangles key s e n :
  move_keeps_below →
  wf s → find key s = Some (mkIt (Some e) true) → store s !! e = Some n →
  left n ≠ None → right n ≠ None →
  ∃ s' it q,
    erase key s = Some (s', it)
    ∧ ptr_ it = Some q ∧ store s' !! q = None ∧ deref s' it = None.
Proof.
  intros Hmove (t & Hrep & Hb & Hcnt) Hfind Hn Hl Hr.
  rewrite (find_represents _ _ _ Hrep) in Hfind.
  destruct (descend key [] t) as [ctx [|l e' v r]] eqn:Hd; [done|].
  simpl in Hfind. injection Hfind as ->.
  destruct (erase_found _ _ _ _ _ _ _ _ Hmove Hrep Hb Hd)
    as (s' & t' & He & Hrep' & Hsz & Hnodes & Hcases).
  assert (l ≠ Leaf ∧ r ≠ Leaf) as [Hl' Hr'].
  { pose proof (descend_plug key [] t) as Hp. rewrite Hd in Hp. simpl in Hp.
    pose proof Hrep as Hrep0.
    rewrite <- Hp in Hrep0.
    apply represents_plug in Hrep0 as (_ & (He' & _) & _).
    rewrite He' in Hn. injection Hn as <-. simpl in Hl, Hr.
    split; intros ->; done. }
  destruct Hcases as [[[?|?] _]|(_ & _ & sp & sv & tail & Hys & Hn')]; [done..|].
  exists s', (mkIt (head (nodes r ++ after ctx).*1) true), sp.
  split; [done|]. rewrite Hys. simpl. split; [done|].
  assert (store s' !! sp = None) as Hfree.
  { destruct Hrep as (_ & _ & Hnd & _). destruct Hrep' as (_ & _ & _ & Hdom').
    apply not_elem_of_dom. rewrite Hdom', elem_of_list_to_set.
    unfold locs in Hnd |- *. rewrite Hnodes, Hys in Hnd. rewrite Hn'.
    rewrite fmap_app, !fmap_cons in Hnd. rewrite fmap_app, fmap_cons.
    simpl in Hnd |- *.
    apply NoDup_app in Hnd as (_ & Hd1 & Hnd).
    apply NoDup_cons in Hnd as [He1 Hnd]. apply NoDup_cons in Hnd as [Hsp _].
    rewrite elem_of_app, elem_of_cons. intros [Hin|[->|Hin]].
    - apply (Hd1 _ Hin). right. by left.
    - apply He1. by left.
    - done. }
  split; [done|]. unfold deref. simpl. by rewrite Hfree.
Qed.

(** X2. Stepping back from [end()] with the prefix [--] reaches the maximum. *)
Lemma pre_decrement_end_reaches_maximum s :
  wf s → size s ≠ 0 →
  ∃ it m xs,
    pre_decrement s (end_ s) = Some it
    ∧ deref s it = Some m
    ∧ in_order_traversal s = Some (xs ++ [m])
    ∧ Forall (λ x, lt x m) xs.
Proof.
  intros (t & Hrep & Hb & Hcnt) Hsz.
  assert (t ≠ Leaf) as Hne.
  { intros ->. destruct Hcnt as [Hc _]. simpl in Hc. done. }
  destruct (pre_decrement_end_represents _ _ Hrep Hb Hsz Hne)
    as (q & m & ns & Hpd & Hd & Hns & Hlt).
  exists (mkIt (Some q) true), m, ns.*2. split; [done|]. split; [done|].
  split; [|done]. rewrite (in_order_traversal_represents _ _ Hrep).
  unfold in_order. by rewrite Hns, fmap_app.
Qed.

(** C8. The postfix [--] does not treat the end sentinel: applied to
    [end()] it calls [predecessor()], which dereferences the null node
    pointer, whatever the tree and whatever the fuel. *)
Theorem post_decrement_at_end_is_undefined (s : @BinarySearchTree T) :
  (∀ fuel, predecessor fuel (store s) (ptr_ (end_ s)) = None)
  ∧ post_decrement s (end_ s) = None.
Proof. done. Qed.

(** C9. When one of the two sequences is empty or their lengths differ,
    both traversal-pair constructors return the empty tree: count zero and
    nothing to visit. *)
Theorem builders_degenerate_input_gives_empty (a b : list T) :
  a = [] ∨ b = [] ∨ length a ≠ length b →
  from_pre_in a b = Some empty_tree
  ∧ from_in_post a b = Some empty_tree
  ∧ size (T:=T) empty_tree = 0
  ∧ root_ (T:=T) empty_tree = None
  ∧ in_order_traversal (T:=T) empty_tree = Some [].
Proof.
  intros Hbad.
  assert (length a = 0%nat ∨ length a ≠ length b) as Ha.
  { destruct Hbad as [->|[->|?]]; [by left| |by right].
    destruct a; [by left|by right]. }
  assert (length b = 0%nat ∨ length b ≠ length a) as Hb.
  { destruct Hbad as [->|[->|?]]; [|by left|right; congruence].
    destruct b; [by left|by right]. }
  split; [|split; [|split; [done|split; [done|]]]].
  - unfold from_pre_in. destruct Ha as [Ha|Ha].
    + by rewrite (bool_decide_eq_true_2 _ Ha).
    + rewrite (bool_decide_eq_false_2 _ Ha). simpl. by rewrite orb_true_r.
  - unfold from_in_post. destruct Hb as [Hb|Hb].
    + by rewrite (bool_decide_eq_true_2 _ Hb).
    + rewrite (bool_decide_eq_false_2 _ Hb). simpl. by rewrite orb_true_r.
  - apply (in_order_traversal_represents _ Leaf), represents_empty_tree.
Qed.

(** C10. [contains] answers [true] exactly when [find] does not return
    [end()]; a position found holds a value equivalent to the key; on the
    empty tree [contains] is [false] and [find] is [end()]; on a
    well-formed tree both return. *)
Theorem contains_agrees_with_find (key : T) (s : @BinarySearchTree T) :
  contains key s = (λ it, negb (it_eqb it (end_ s))) <$> find key s
  ∧ (∀ it, find key s = Some it → it_eqb it (end_ s) = false →
           ∃ x, deref s it = Some x ∧ equivb key x = true)
  ∧ contains key empty_tree = Some false
  ∧ find key empty_tree = Some (end_ (T:=T) empty_tree)
  ∧ (wf s → ∃ it, find key s = Some it).
Proof.
  split; [|split; [|split; [|split]]].
  - unfold contains, find.
    destruct (find_node _ _ _ _) as [[q|]|]; done.
  - unfold find. intros it Hfind Hne.
    destruct (find_node _ _ _ _) as [[q|]|] eqn:Hf; simplify_eq/=.
    destruct (find_node_equiv _ _ _ _ _ Hf) as (n & Hn & Heq).
    exists (data n). unfold deref. simpl. by rewrite Hn.
  - by rewrite (contains_represents _ Leaf) by apply represents_empty_tree.
  - by rewrite (find_represents _ Leaf) by apply represents_empty_tree.
  - intros (t & Hrep & _). rewrite (find_represents _ _ _ Hrep). eauto.
Qed.

(** * Further properties of the operations *)

(** ** Lookup against the contents *)

Lemma descend_absent_no_equiv key t ctx :
  bst t → descend key [] t = (ctx, Leaf) →
  Forall (λ x, equivb key x = false) (in_order t).
Proof.
  intros Hb Hd.
  pose proof (descend_plug key [] t) as Hp. rewrite Hd in Hp. simpl in Hp.
  pose proof (descend_cmp key [] t (Forall_nil_2 _)) as Hc.
  rewrite Hd in Hc. simpl in Hc.
  apply bst_sorted in Hb. rewrite <- Hp, in_order_plug in Hb |- *.
  simpl in Hb |- *. destruct (path_bounds _ _ Hc Hb) as [Hbef Haft].
  apply Forall_app. split.
  - eapply Forall_impl; [exact Hbef|]. intros x Hx. unfold lt in Hx.
    unfold equivb. rewrite Hx. by rewrite andb_false_r.
  - eapply Forall_impl; [exact Haft|]. intros x Hx. unfold lt in Hx.
    unfold equivb. by rewrite Hx.
Qed.

Lemma existsb_equiv_false key (L : list T) :
  Forall (λ x, equivb key x = false) L → existsb (equivb key) L = false.
Proof.
  induction 1 as [|x L Hx _ IH]; simpl; [done|]. by rewrite Hx, IH.
Qed.

Lemma contains_existsb s t key :
  represents s t → bst t →
  contains key s = Some (existsb (equivb key) (in_order t)).
Proof.
  intros Hrep Hb. rewrite (contains_represents _ _ _ Hrep).
  destruct (descend key [] t) as [ctx [|l p v r]] eqn:Hd; simpl.
  - by rewrite existsb_equiv_false by by eapply descend_absent_no_equiv.
  - symmetry. f_equal. apply existsb_exists. exists v. split.
    + apply list_elem_of_In. unfold in_order. apply list_elem_of_fmap.
      exists (p, v). split; [done|]. by eapply descend_elem.
    + eapply (descend_found key [] t). by rewrite Hd.
Qed.

(** X3. [contains] answers whether the in-order traversal visits an element
    equivalent to the key. *)
Theorem contains_decides_membership key (s : @BinarySearchTree T) :
  wf s →
  ∃ L, in_order_traversal s = Some L
       ∧ contains key s = Some (existsb (equivb key) L).
Proof.
  intros (t & Hrep & Hb & _). exists (in_order t).
  split; [by apply in_order_traversal_represents|].
  by apply contains_existsb.
Qed.

Lemma deref_nodes s t it x :
  represents s t →
  deref s it = Some x ↔ ∃ p, ptr_ it = Some p ∧ (p, x) ∈ nodes t.
Proof.
  intros (_ & Hrepr & _ & Hdom). unfold deref. split.
  - destruct (ptr_ it) as [p|]; simpl; [|done].
    destruct (store s !! p) as [n|] eqn:Hn; simpl; [|done]. intros [= <-].
    exists p. split; [done|].
    assert (p ∈ locs t) as Hp.
    { apply (elem_of_list_to_set (C:=gset loc)). rewrite <- Hdom.
      apply elem_of_dom. eauto. }
    unfold locs in Hp. apply list_elem_of_fmap in Hp as ([p' v] & -> & Hin).
    destruct (repr_lookup _ _ _ _ _ Hrepr Hin) as (n' & Hn' & <-).
    simpl in Hn. by simplify_eq.
  - intros (p & -> & Hin). simpl.
    destruct (repr_lookup _ _ _ _ _ Hrepr Hin) as (n & -> & <-). done.
Qed.

(** ** Insertion of a new key *)

Lemma emplace_absent_find s t val ctx :
  represents s t → descend val [] t = (ctx, Leaf) →
  ∃ s',
    emplace val s = Some (s', (mkIt (Some (fresh (dom (store s)))) true, true))
    ∧ represents s' (plug ctx (Fork Leaf (fresh (dom (store s))) val Leaf))
    ∧ tree_size_ s' = size_incr (tree_size_ s)
    ∧ find val s' = Some (mkIt (Some (fresh (dom (store s)))) true).
Proof.
  intros Hrep Hd.
  destruct (emplace_absent _ _ _ _ Hrep Hd) as (s' & He & Hrep' & Hsz).
  exists s'. split; [done|]. split; [done|]. split; [done|].
  rewrite (find_represents _ _ _ Hrep').
  pose proof (descend_cmp val [] t (Forall_nil_2 _)) as Hc.
  rewrite Hd in Hc. simpl in Hc.
  rewrite (descend_along_path _ _ _ _ Hc). simpl.
  by rewrite ltb_irrefl.
Qed.

Lemma emplace_absent_outcome s t val ctx :
  represents s t → bst t → counted s t → tree_size_ s + 1 < SIZE_MOD →
  descend val [] t = (ctx, Leaf) →
  ∃ s' it t',
    emplace val s = Some (s', (it, true))
    ∧ represents s' t' ∧ bst t' ∧ counted s' t'
    ∧ tree_size_ s' = tree_size_ s + 1
    ∧ deref s' it = Some val
    ∧ find val s' = Some it
    ∧ in_order t = (before ctx).*2 ++ (after ctx).*2
    ∧ in_order t' = (before ctx).*2 ++ val :: (after ctx).*2.
Proof.
  intros Hrep Hb [Hsz Hlt] Hroom Hd.
  destruct (emplace_absent_find _ _ _ _ Hrep Hd)
    as (s' & He & Hrep' & Hsz' & Hfind).
  pose proof (descend_plug val [] t) as Hp. rewrite Hd in Hp. simpl in Hp.
  pose proof (descend_cmp val [] t (Forall_nil_2 _)) as Hcmp.
  rewrite Hd in Hcmp. simpl in Hcmp.
  set (new := fresh (dom (store s))) in *.
  assert (nodes t = before ctx ++ after ctx) as Hn.
  { by rewrite <- Hp, nodes_plug. }
  assert (nodes (plug ctx (Fork Leaf new val Leaf))
          = before ctx ++ (new, val) :: after ctx) as Hn'.
  { by rewrite nodes_plug. }
  rewrite size_incr_small in Hsz' by lia.
  exists s', (mkIt (Some new) true), (plug ctx (Fork Leaf new val Leaf)).
  split; [done|]. split; [done|]. split.
  { apply emplace_absent_bst; [done|]. by rewrite Hp. }
  split.
  { unfold counted. rewrite Hn', Hsz'. rewrite Hn in Hsz, Hlt.
    rewrite !length_app in *. simpl. lia. }
  split; [done|]. split.
  { apply (deref_nodes _ _ _ _ Hrep'). exists new. split; [done|].
    rewrite Hn'. apply elem_of_app. right. by left. }
  split; [done|]. unfold in_order. rewrite Hn, Hn', !fmap_app. done.
Qed.

(** X4. Emplacing a key that is absent reports [true], raises the count by
    one, returns an iterator to a node holding the value, which is also
    the position [find] gives afterwards, and adds the value to the
    in-order sequence at one place, every other element keeping its
    place. *)
Theorem emplace_absent_adds_one val (s : @BinarySearchTree T) :
  wf s → contains val s = Some false → size s + 1 < SIZE_MOD →
  ∃ s' it xs ys,
    emplace val s = Some (s', (it, true))
    ∧ wf s'
    ∧ size s' = size s + 1
    ∧ deref s' it = Some val
    ∧ find val s' = Some it
    ∧ in_order_traversal s = Some (xs ++ ys)
    ∧ in_order_traversal s' = Some (xs ++ val :: ys).
Proof.
  unfold size. intros (t & Hrep & Hb & Hcnt) Hc Hroom.
  rewrite (contains_represents _ _ _ Hrep) in Hc.
  destruct (descend val [] t) as [ctx [|l p v r]] eqn:Hd; [|done]. clear Hc.
  destruct (emplace_absent_outcome _ _ _ _ Hrep Hb Hcnt Hroom Hd)
    as (s' & it & t' & He & Hrep' & Hb' & Hcnt' & Hsz' & Hderef & Hfind
        & HL & HL').
  exists s', it, (before ctx).*2, (after ctx).*2.
  split; [done|]. split; [by exists t'|]. split; [done|].
  split; [done|]. split; [done|].
  by rewrite (in_order_traversal_represents _ _ Hrep),
    (in_order_traversal_represents _ _ Hrep'), HL, HL'.
Qed.

(** X5. Insertion keeps every iterator valid: a position that could be
    dereferenced before the call gives the same value after it. *)
Theorem emplace_keeps_iterators val (s : @BinarySearchTree T) it x :
  wf s → deref s it = Some x →
  ∃ s' res, emplace val s = Some (s', res) ∧ deref s' it = Some x.
Proof.
  intros (t & Hrep & Hb & _) Hd.
  destruct (emplace_spec val s t Hrep Hb)
    as (s' & it' & b & t' & He & Hrep' & _ & Hcase).
  exists s', (it', b). split; [done|].
  apply (deref_nodes _ _ _ _ Hrep) in Hd as (p & Hp & Hin).
  apply (deref_nodes _ _ _ _ Hrep'). exists p. split; [done|].
  destruct Hcase as [(_ & _ & -> & _)|(_ & _ & q & xs & ys & _ & Hn & Hn')];
    [done|].
  rewrite Hn in Hin. rewrite Hn'.
  rewrite elem_of_app in Hin. rewrite elem_of_app, elem_of_cons. tauto.
Qed.


Lemma existsb_insert key (xs ys : list T) v :
  existsb (equivb key) (xs ++ v :: ys)
  = equivb key v || existsb (equivb key) (xs ++ ys).
Proof.
  rewrite !existsb_app. simpl.
  by destruct (existsb (equivb key) xs), (equivb key v).
Qed.

(** X6. After [insert] the value is found, at the position the call returned,
    and the lookup of every key that is not equivalent to the value
    answers as before. *)
Theorem insert_then_lookup val (s : @BinarySearchTree T) :
  wf s → size s + 1 < SIZE_MOD →
  ∃ s' it x,
    insert val s = Some (s', it) ∧ wf s'
    ∧ find val s' = Some it ∧ contains val s' = Some true
    ∧ deref s' it = Some x ∧ equivb val x = true
    ∧ ∀ key, equivb key val = false → contains key s' = contains key s.
Proof.
  intros Hwf Hroom. pose proof Hwf as (t & Hrep & Hb & Hcnt).
  destruct (descend val [] t) as [ctx [|l p v r]] eqn:Hd.
  - destruct (emplace_absent_outcome _ _ _ _ Hrep Hb Hcnt Hroom Hd)
      as (s' & it & t' & He & Hrep' & Hb' & Hcnt' & _ & Hderef & Hfind
          & HL & HL').
    exists s', it, val. unfold insert. rewrite He. simpl.
    split; [done|]. split; [by exists t'|]. split; [done|].
    split.
    { by rewrite (contains_existsb _ _ _ Hrep' Hb'), HL', existsb_insert,
        equivb_refl. }
    split; [done|]. split; [apply equivb_refl|].
    intros key Hk.
    by rewrite (contains_existsb _ _ _ Hrep' Hb'),
      (contains_existsb _ _ _ Hrep Hb), HL, HL', existsb_insert, Hk.
  - exists s, (mkIt (Some p) true), v. unfold insert.
    rewrite (emplace_present _ _ _ _ _ _ _ _ Hrep Hd). simpl.
    split; [done|]. split; [done|].
    split. { by rewrite (find_represents _ _ _ Hrep), Hd. }
    split. { by rewrite (contains_represents _ _ _ Hrep), Hd. }
    split.
    { apply (deref_nodes _ _ _ _ Hrep). exists p. split; [done|].
      by eapply descend_elem. }
    split; [|done]. eapply (descend_found val [] t). by rewrite Hd.
Qed.

(** ** Removal *)

(** X7. For an element type whose move assignment satisfies
    [move_keeps_below]: after [erase] the key is not found any more, and the
    lookup of every key that is not equivalent to it answers as before. *)
Theorem erase_then_lookup key (s : @BinarySearchTree T) :
  move_keeps_below → wf s →
  ∃ s' it,
    erase key s = Some (s', it) ∧ wf s'
    ∧ contains key s' = Some false
    ∧ ∀ k, equivb k key = false → contains k s' = contains k s.
Proof.
  intros Hmove Hwf. pose proof Hwf as (t & Hrep & Hb & Hcnt).
  destruct (descend key [] t) as [ctx [|l p v r]] eqn:Hd.
  - exists s, (end_ s). rewrite (erase_absent _ _ _ _ Hrep Hd).
    split; [done|]. split; [done|]. split; [|done].
    by rewrite (contains_represents _ _ _ Hrep), Hd.
  - destruct (erase_found_bst _ _ _ _ _ _ _ _ Hmove Hrep Hb Hd)
      as (s' & it & t' & xs & ys & He & Hrep' & Hb' & Hsz & HL & HL').
    assert (equivb key v = true) as Hv.
    { eapply (descend_found key [] t). by rewrite Hd. }
    exists s', it. split; [done|]. split.
    { exists t'. split; [done|]. split; [done|].
      by eapply counted_after_erase. }
    pose proof (proj1 (bst_sorted t) Hb) as Hs. rewrite HL in Hs.
    pose proof (sorted_unique_equiv _ _ _ _ Hs Hv) as Hne.
    split.
    { rewrite (contains_existsb _ _ _ Hrep' Hb'), HL'.
      by rewrite existsb_equiv_false. }
    intros k Hk.
    rewrite (contains_existsb _ _ _ Hrep' Hb'),
      (contains_existsb _ _ _ Hrep Hb), HL, HL', existsb_insert.
    destruct (equivb k v) eqn:Hkv; [|done].
    rewrite equivb_sym in Hv.
    by rewrite (equivb_trans _ _ _ Hkv Hv) in Hk.
Qed.

Lemma app_cons_snoc {A} (a b xs : list A) v x :
  a ++ v :: b = xs ++ [x] → (b = [] ∧ a = xs ∧ v = x) ∨ x ∈ b.
Proof.
  induction b as [|y b' _] using rev_ind; intros Heq.
  - apply app_inj_tail in Heq as [-> ->]. by left.
  - right. change (a ++ v :: b' ++ [y]) with (a ++ (v :: b') ++ [y]) in Heq.
    rewrite app_assoc in Heq. apply app_inj_tail in Heq as [_ ->].
    apply elem_of_app. right. by left.
Qed.

(** X8. Erasing the greatest element returns [end()]. *)
Theorem erase_maximum_returns_end key (s : @BinarySearchTree T) xs x :
  wf s → in_order_traversal s = Some (xs ++ [x]) → equivb key x = true →
  ∃ s', erase key s = Some (s', end_ s')
        ∧ in_order_traversal s' = Some xs.
Proof.
  intros (t & Hrep & Hb & Hcnt) HL Hx.
  rewrite (in_order_traversal_represents _ _ Hrep) in HL. injection HL as HL.
  destruct (descend key [] t) as [ctx [|l e v r]] eqn:Hd.
  - pose proof (descend_absent_no_equiv _ _ _ Hb Hd) as Hne.
    rewrite HL in Hne. apply Forall_app in Hne as [_ Hne].
    apply Forall_inv in Hne. by rewrite Hne in Hx.
  - destruct (erase_unfold _ _ _ _ _ _ _ _ Hrep Hd) as (_ & Hn & _).
    assert (equivb key v = true) as Hv.
    { eapply (descend_found key [] t). by rewrite Hd. }
    pose proof (proj1 (bst_sorted t) Hb) as Hs.
    unfold in_order in HL, Hs. rewrite Hn in HL, Hs.
    rewrite fmap_app, fmap_cons in HL, Hs. simpl in HL, Hs.
    pose proof (sorted_unique_equiv _ _ _ _ Hs Hv) as Hne.
    destruct (app_cons_snoc _ _ _ _ _ HL) as [(Hnil & Hxs & _)|Hin].
    + apply fmap_nil_inv in Hnil.
      assert (r = Leaf) as Hr.
      { destruct r as [|rl rp rv rr]; [done|]. simpl in Hnil.
        by destruct (nodes rl). }
      destruct (erase_found_one_child _ _ _ _ _ _ _ _ Hrep Hd (or_intror Hr))
        as (s' & t' & He & Hrep' & _ & _ & Hn').
      rewrite Hnil in He, Hn'. simpl in He.
      exists s'. split; [done|].
      rewrite (in_order_traversal_represents _ _ Hrep'). unfold in_order.
      by rewrite Hn', app_nil_r, Hxs.
    + apply Forall_app in Hne as [_ Hne].
      rewrite Forall_forall in Hne. by rewrite (Hne _ Hin) in Hx.
Qed.

(** X9. For an element type whose move assignment satisfies
    [move_keeps_below], [erase] keeps the iterators to the other elements
    valid: a position holding a value that is not equivalent to the key, and
    that is not the position returned, is dereferenced to the same value
    afterwards. *)
Theorem erase_keeps_other_iterators key (s : @BinarySearchTree T) :
  move_keeps_below → wf s →
  ∃ s' it,
    erase key s = Some (s', it)
    ∧ ∀ j x, deref s j = Some x → equivb key x = false →
             ptr_ j ≠ ptr_ it → deref s' j = Some x.
Proof.
  intros Hmove (t & Hrep & Hb & Hcnt).
  destruct (descend key [] t) as [ctx [|l e v r]] eqn:Hd.
  - exists s, (end_ s). by rewrite (erase_absent _ _ _ _ Hrep Hd).
  - destruct (erase_found _ _ _ _ _ _ _ _ Hmove Hrep Hb Hd)
      as (s' & t' & He & Hrep' & _ & Hn & Hcase).
    assert (equivb key v = true) as Hv.
    { eapply (descend_found key [] t). by rewrite Hd. }
    eexists _, _. split; [exact He|]. intros j x Hj Hx Hne.
    apply (deref_nodes _ _ _ _ Hrep) in Hj as (p & Hp & Hin).
    apply (deref_nodes _ _ _ _ Hrep'). exists p. split; [done|].
    rewrite Hn in Hin. rewrite elem_of_app, elem_of_cons in Hin.
    destruct Hcase as [[_ ->]|(_ & _ & sp & sv & tail & Htail & ->)].
    + rewrite elem_of_app. destruct Hin as [Hin|[[= -> ->]|Hin]]; auto.
      by rewrite Hv in Hx.
    + rewrite Htail in Hin, Hne. simpl in Hne.
      rewrite elem_of_cons in Hin. rewrite elem_of_app, elem_of_cons.
      destruct Hin as [Hin|[[= -> ->]|[[= -> ->]|Hin]]]; auto.
      * by rewrite Hv in Hx.
      * by rewrite Hp in Hne.
Qed.

(** X10. [clear] releases every node: what is left is the state of a
    default-constructed tree. *)
Theorem clear_gives_empty_tree (s : @BinarySearchTree T) :
  wf s → clear s = Some empty_tree.
Proof.
  intros (t & Hrep & _).
  destruct (clear_represents _ _ Hrep) as ([h r n] & -> & Hrep' & Hsz).
  destruct Hrep' as (Hroot & _ & _ & Hdom). simpl in *.
  apply dom_empty_inv_L in Hdom. by subst.
Qed.

(** ** The cached count *)

(** X11. For an element type whose move assignment satisfies
    [move_keeps_below]: whatever sequence of insertions, removals and clears
    is run on a new tree, [size()] is the number of elements the traversal
    visits, and [empty()] holds exactly when it visits none. *)
Theorem size_counts_elements (ops : list (@mutation T)) :
  move_keeps_below → Z.of_nat (length ops) < SIZE_MOD →
  ∃ s L,
    apply_mutations ops empty_tree = Some s
    ∧ in_order_traversal s = Some L
    ∧ size s = Z.of_nat (length L)
    ∧ (empty s = true ↔ L = []).
Proof.
  intros Hmove Hlen.
  destruct (apply_mutations_wf ops empty_tree Hmove wf_empty_tree)
    as (s & Hs & t & Hrep & Hb & Hsz & _); [done|].
  exists s, (in_order t). split; [done|].
  split; [by apply in_order_traversal_represents|].
  unfold size, empty, in_order. rewrite Hsz, length_fmap. split; [done|].
  rewrite Z.eqb_eq. destruct (nodes t); simpl; split; (done || lia).
Qed.

(** ** Traversals *)

Lemma pre_order_perm t : pre_order t ≡ₚ in_order t.
Proof.
  induction t as [|l IHl p v r IHr]; [done|].
  rewrite in_order_Fork. simpl. rewrite IHl, IHr.
  apply Permutation_middle.
Qed.

Lemma post_order_perm t : post_order t ≡ₚ in_order t.
Proof.
  induction t as [|l IHl p v r IHr]; [done|].
  rewrite in_order_Fork. simpl. rewrite IHl, IHr.
  rewrite (Permutation_app_comm (in_order r) [v]). done.
Qed.

(** X12. The three traversals visit the same elements, each as often as the
    others, and [size()] many of them. *)
Theorem traversals_are_permutations (s : @BinarySearchTree T) :
  wf s →
  ∃ pre ino post,
    pre_order_traversal s = Some pre
    ∧ in_order_traversal s = Some ino
    ∧ post_order_traversal s = Some post
    ∧ pre ≡ₚ ino ∧ post ≡ₚ ino
    ∧ size s = Z.of_nat (length ino).
Proof.
  intros (t & Hrep & _ & Hsz & _).
  exists (pre_order t), (in_order t), (post_order t).
  split; [by apply pre_order_traversal_represents|].
  split; [by apply in_order_traversal_represents|].
  split; [by apply post_order_traversal_represents|].
  split; [apply pre_order_perm|]. split; [apply post_order_perm|].
  unfold size, in_order. by rewrite length_fmap.
Qed.


(** ** Stepping an iterator *)

Lemma climb_from_left_ctx h ctx p fuel :
  repr_ctx h ctx (Some p) → NoDup (p :: ctx_locs ctx) →
  (length ctx ≤ fuel)%nat →
  climb_from_left fuel h p (ctx_parent ctx) = Some (last (before ctx).*1).
Proof.
  revert p fuel.
  induction ctx as [|[q v r|l q v] c IH]; intros p fuel; simpl.
  - by destruct fuel.
  - intros (Hq & Hr & Hc) Hnd Hf. rewrite ctx_locs_InL in Hnd.
    destruct fuel as [|f]; [lia|]. simpl. rewrite Hq. simpl.
    rewrite bool_decide_eq_true_2 by done.
    apply IH; [done| |lia].
    apply NoDup_cons in Hnd as [_ Hnd].
    apply NoDup_cons in Hnd as [Hq' Hnd]. apply NoDup_cons. split.
    + intros Hin. apply Hq'. apply elem_of_app. by right.
    + by apply NoDup_app in Hnd as (_ & _ & Hnd).
  - intros (Hq & Hl & Hc) Hnd _. rewrite ctx_locs_InR in Hnd.
    assert (root_of l ≠ Some p) as Hne.
    { intros Heq%root_of_locs. apply NoDup_cons in Hnd as [Hnd _].
      apply Hnd. right. apply elem_of_app. by left. }
    rewrite !fmap_app, !last_app. simpl.
    destruct fuel; simpl; rewrite Hq; simpl; by rewrite bool_decide_eq_false_2.
Qed.

Lemma NoDup_position l p v r ctx :
  NoDup (locs (Fork l p v r) ++ ctx_locs ctx) → NoDup (p :: ctx_locs ctx).
Proof.
  rewrite locs_Fork, <- (assoc_L (++)).
  intros (_ & _ & Hnd)%NoDup_app. simpl in Hnd.
  apply NoDup_cons in Hnd as [Hp Hnd].
  apply NoDup_app in Hnd as (_ & _ & Hnd). apply NoDup_cons.
  split; [|done]. intros Hin. apply Hp. apply elem_of_app. by right.
Qed.

Lemma predecessor_spec s ctx l p v r :
  represents s (plug ctx (Fork l p v r)) →
  predecessor (fuel_of (store s)) (store s) (Some p)
  = Some (last (before ctx ++ nodes l).*1).
Proof.
  intros Hrep. pose proof (represents_position_fuel _ _ _ Hrep) as Hf.
  apply represents_plug in Hrep as (_ & Hrepr & Hctx & Hnd & _).
  apply NoDup_position in Hnd.
  simpl in Hrepr, Hf, Hctx. destruct Hrepr as (Hp & Hl & _).
  unfold predecessor. simpl. rewrite Hp. simpl.
  destruct l as [|ll lp lv lr].
  - simpl root_of. cbv iota. simpl. rewrite app_nil_r.
    apply climb_from_left_ctx; [done|done|lia].
  - simpl root_of. cbv iota.
    erewrite descend_right_last; [|done|done|simpl in *; lia].
    rewrite fmap_app, last_app.
    change ((nodes (Fork ll lp lv lr)).*1) with (locs (Fork ll lp lv lr)).
    rewrite locs_Fork, last_app, last_cons. by destruct (last (locs lr)).
Qed.

(** A node of the in-order sequence is a position of the tree, with the
    nodes before it and after it. *)
Lemma nodes_split_position s t xs p v ys :
  represents s t → nodes t = xs ++ (p, v) :: ys →
  ∃ ctx l r, represents s (plug ctx (Fork l p v r))
             ∧ xs = before ctx ++ nodes l ∧ ys = nodes r ++ after ctx.
Proof.
  intros Hrep Hn.
  assert ((p, v) ∈ nodes t) as Hin.
  { rewrite Hn. apply elem_of_app. right. by left. }
  destruct (nodes_position _ _ _ Hin) as (ctx & l & r & Ht).
  exists ctx, l, r. split; [by rewrite <- Ht|].
  destruct Hrep as (_ & _ & Hnd & _). unfold locs in Hnd. rewrite Hn in Hnd.
  rewrite Ht, nodes_plug in Hn. simpl in Hn.
  rewrite <- (assoc_L (++)) in Hn. simpl in Hn.
  rewrite (assoc_L (++)) in Hn. symmetry in Hn.
  by destruct (split_unique _ _ _ _ _ _ _ Hnd Hn).
Qed.

Lemma pre_increment_nodes s t xs p v ys b :
  represents s t → nodes t = xs ++ (p, v) :: ys →
  pre_increment s (mkIt (Some p) b) = Some (mkIt (head ys.*1) b).
Proof.
  intros Hrep Hn.
  destruct (nodes_split_position _ _ _ _ _ _ Hrep Hn)
    as (ctx & l & r & Hrep' & _ & ->).
  unfold pre_increment. cbn [ptr_ tree_].
  by rewrite (successor_spec _ _ _ _ _ _ Hrep').
Qed.

Lemma pre_decrement_nodes s t xs p v ys b :
  represents s t → nodes t = xs ++ (p, v) :: ys →
  pre_decrement s (mkIt (Some p) b) = Some (mkIt (last xs.*1) b).
Proof.
  intros Hrep Hn.
  destruct (nodes_split_position _ _ _ _ _ _ Hrep Hn)
    as (ctx & l & r & Hrep' & -> & _).
  unfold pre_decrement. cbn [ptr_ tree_].
  by rewrite (predecessor_spec _ _ _ _ _ _ Hrep').
Qed.

Lemma NoDup_split_unique {A} (a b a' b' : list A) x :
  NoDup (a ++ x :: b) → a ++ x :: b = a' ++ x :: b' → a = a' ∧ b = b'.
Proof.
  revert a'. induction a as [|y a IH]; intros a' Hnd Heq.
  - destruct a' as [|y' a']; simpl in *; [by simplify_eq|].
    injection Heq as -> Hb. apply NoDup_cons in Hnd as [Hnd _].
    exfalso. apply Hnd. rewrite Hb. apply elem_of_app. right. by left.
  - destruct a' as [|y' a']; simpl in *.
    + injection Heq as -> Hb. apply NoDup_cons in Hnd as [Hnd _].
      exfalso. apply Hnd. apply elem_of_app. right. by left.
    + injection Heq as -> Heq. apply NoDup_cons in Hnd as [_ Hnd].
      destruct (IH _ Hnd Heq) as [-> ->]. done.
Qed.

(** The node an iterator stands on, given the value it shows and the
    place of that value in the traversal. *)
Lemma deref_position s t it xs x ys :
  represents s t → bst t →
  in_order t = xs ++ x :: ys → deref s it = Some x →
  ∃ p ns ms, ptr_ it = Some p ∧ nodes t = ns ++ (p, x) :: ms
             ∧ ns.*2 = xs ∧ ms.*2 = ys.
Proof.
  intros Hrep Hb HL Hd.
  apply (deref_nodes _ _ _ _ Hrep) in Hd as (p & Hp & Hin).
  apply list_elem_of_split in Hin as (ns & ms & Hn).
  exists p, ns, ms. split; [done|]. split; [done|].
  apply bst_sorted, sorted_NoDup in Hb. rewrite HL in Hb.
  unfold in_order in HL. rewrite Hn, fmap_app, fmap_cons in HL. simpl in HL.
  symmetry in HL. by destruct (NoDup_split_unique _ _ _ _ _ Hb HL).
Qed.

Lemma deref_head s t ns ms b :
  represents s t → nodes t = ns ++ ms →
  deref s (mkIt (head ms.*1) b) = head ms.*2.
Proof.
  intros Hrep Hn. destruct ms as [|[q w] ms]; [done|]. simpl.
  apply (deref_nodes _ _ _ _ Hrep). exists q. split; [done|].
  rewrite Hn. apply elem_of_app. right. by left.
Qed.

Lemma last_fmap_snoc {A B} (f : A → B) (l : list A) x :
  last (f <$> l ++ [x]) = Some (f x).
Proof. rewrite fmap_app. simpl. apply last_snoc. Qed.

Lemma deref_last s t ns ms b :
  represents s t → nodes t = ns ++ ms →
  deref s (mkIt (last ns.*1) b) = last ns.*2.
Proof.
  intros Hrep Hn. destruct ns as [|[q w] ns _] using rev_ind; [done|].
  rewrite !last_fmap_snoc.
  apply (deref_nodes _ _ _ _ Hrep). exists q. split; [done|].
  rewrite Hn. apply elem_of_app. left. apply elem_of_app. right. by left.
Qed.

(** X13. [++it] moves an iterator to the next element of the in-order
    sequence, and to [end()] from the last one. *)
Theorem pre_increment_next (s : @BinarySearchTree T) it xs x ys :
  wf s → in_order_traversal s = Some (xs ++ x :: ys) →
  deref s it = Some x →
  ∃ it', pre_increment s it = Some it'
         ∧ deref s it' = head ys
         ∧ (it_eqb it' (end_ s) = true ↔ ys = []).
Proof.
  intros (t & Hrep & Hb & _) HL Hd.
  rewrite (in_order_traversal_represents _ _ Hrep) in HL. injection HL as HL.
  destruct (deref_position _ _ _ _ _ _ Hrep Hb HL Hd)
    as (p & ns & ms & Hp & Hn & _ & <-).
  destruct it as [q b]. simpl in Hp. subst q.
  rewrite (pre_increment_nodes _ _ _ _ _ _ _ Hrep Hn).
  eexists. split; [done|]. split.
  - apply (deref_head _ t (ns ++ [(p, x)])); [done|].
    by rewrite <- (assoc_L (++)).
  - unfold it_eqb. simpl. rewrite bool_decide_eq_true.
    by destruct ms as [|[q w] ms].
Qed.

(** X14. [--it] moves an iterator that stands on an element to the previous
    element of the in-order sequence; from the first element it gives an
    iterator equal to [end()]. *)
Theorem pre_decrement_previous (s : @BinarySearchTree T) it xs x ys :
  wf s → in_order_traversal s = Some (xs ++ x :: ys) →
  deref s it = Some x →
  ∃ it', pre_decrement s it = Some it'
         ∧ deref s it' = last xs
         ∧ (it_eqb it' (end_ s) = true ↔ xs = []).
Proof.
  intros (t & Hrep & Hb & _) HL Hd.
  rewrite (in_order_traversal_represents _ _ Hrep) in HL. injection HL as HL.
  destruct (deref_position _ _ _ _ _ _ Hrep Hb HL Hd)
    as (p & ns & ms & Hp & Hn & <- & _).
  destruct it as [q b]. simpl in Hp. subst q.
  rewrite (pre_decrement_nodes _ _ _ _ _ _ _ Hrep Hn).
  eexists. split; [done|]. split.
  - by apply (deref_last _ t ns ((p, x) :: ms)).
  - unfold it_eqb. simpl. rewrite bool_decide_eq_true.
    destruct ns as [|[q w] ns _] using rev_ind; [done|].
    rewrite last_fmap_snoc, fmap_app. simpl. split; [done|].
    intros Habs. by apply app_nil in Habs as [_ ?].
Qed.

(** X15. Stepping forward and then back returns to the same iterator, also
    when the step forward reaches [end()]. *)
Theorem increment_then_decrement (s : @BinarySearchTree T) it x :
  wf s → deref s it = Some x → tree_ it = true →
  ∃ it', pre_increment s it = Some it' ∧ pre_decrement s it' = Some it.
Proof.
  intros (t & Hrep & Hb & Hsz & Hlt) Hd Ht.
  apply (deref_nodes _ _ _ _ Hrep) in Hd as (p & Hp & Hin).
  apply list_elem_of_split in Hin as (ns & ms & Hn).
  destruct it as [q b]. simpl in Hp, Ht. subst q b.
  rewrite (pre_increment_nodes _ _ _ _ _ _ _ Hrep Hn).
  eexists. split; [done|].
  destruct ms as [|[q w] ms]; simpl.
  - destruct (pre_decrement_end_represents s t Hrep Hb)
      as (q & m & ns' & Hdec & _ & Hn' & _).
    { rewrite Hsz, Hn, length_app. simpl. lia. }
    { intros ->. by destruct ns. }
    unfold end_ in Hdec. rewrite Hdec. rewrite Hn in Hn'.
    apply app_inj_tail in Hn' as [_ [= -> _]]. done.
  - rewrite (pre_decrement_nodes _ t (ns ++ [(p, x)]) q w ms _ Hrep).
    + by rewrite last_fmap_snoc.
    + by rewrite <- (assoc_L (++)).
Qed.

(** X16. Stepping back, from an element or from [end()], and then forward
    returns to the same iterator, unless the step back left the
    sequence. *)
Theorem decrement_then_increment (s : @BinarySearchTree T) it :
  wf s → tree_ it = true → ptr_ it = None ∨ is_Some (deref s it) →
  ∃ it', pre_decrement s it = Some it'
         ∧ (ptr_ it' ≠ None → pre_increment s it' = Some it).
Proof.
  intros (t & Hrep & Hb & Hsz & Hlt) Ht Hvalid.
  destruct it as [q b]. simpl in Ht. subst b.
  destruct Hvalid as [Hq|[x Hd]]; [simpl in Hq; subst q|].
  - destruct (decide (tree_size_ s = 0)) as [Hz|Hnz].
    + exists (mkIt None true). unfold pre_decrement, empty. simpl.
      rewrite Hz. simpl. by split.
    + destruct (pre_decrement_end_represents s t Hrep Hb Hnz)
        as (q & m & ns & Hdec & _ & Hn & _).
      { intros ->. apply Hnz. by rewrite Hsz. }
      unfold end_ in Hdec. rewrite Hdec. eexists. split; [done|].
      intros _. by rewrite (pre_increment_nodes _ _ _ _ _ _ _ Hrep Hn).
  - apply (deref_nodes _ _ _ _ Hrep) in Hd as (p & Hp & Hin).
    simpl in Hp. subst q.
    apply list_elem_of_split in Hin as (ns & ms & Hn).
    rewrite (pre_decrement_nodes _ _ _ _ _ _ _ Hrep Hn).
    eexists. split; [done|].
    destruct ns as [|[q w] ns _] using rev_ind; [done|].
    rewrite last_fmap_snoc. simpl. intros _.
    rewrite <- (assoc_L (++)) in Hn. simpl in Hn.
    by rewrite (pre_increment_nodes _ _ _ _ _ _ _ Hrep Hn).
Qed.

(** X17. [begin()] stands on the least element: it shows the first element of
    the traversal, which is less than all others, and it equals [end()]
    exactly when the tree is empty. *)
Theorem begin_is_minimum (s : @BinarySearchTree T) :
  wf s →
  ∃ it L,
    begin s = Some it
    ∧ in_order_traversal s = Some L
    ∧ deref s it = head L
    ∧ it_eqb it (end_ s) = empty s
    ∧ ∀ m rest, L = m :: rest → Forall (lt m) rest.
Proof.
  intros (t & Hrep & Hb & Hsz & Hlt).
  exists (mkIt (head (locs t)) true), (in_order t).
  split; [by apply begin_represents|].
  split; [by apply in_order_traversal_represents|].
  split; [by apply (deref_head _ t [])|]. split.
  - unfold it_eqb, empty, locs. rewrite Hsz. simpl.
    by destruct (nodes t) as [|[q w] ns].
  - intros m rest HL. apply bst_sorted in Hb. rewrite HL in Hb.
    by apply StronglySorted_inv in Hb as [_ Hb].
Qed.


(** ** Copy construction *)

Lemma copy_child (set : option loc → Node → Node) (get : Node → option loc)
    copy t h o c cn :
  (∀ x n, get (set x n) = x) →
  copies copy t → repr h (Some o) t → h !! c = Some cn → c ∉ locs t →
  ∃ h1 t',
    match root_of t with
    | None => Some h
    | Some ol =>
      oln ← h !! ol;
      let '(h, c0) := alloc h (mkNode (data oln) None None (Some c)) in
      pn ← h !! c;
      let h := <[c := set (Some c0) pn]> h in
      pn' ← h !! c;
      c' ← get pn';
      copy h c' ol
    end = Some h1
    ∧ same_values t t'
    ∧ h1 !! c = Some (if t is Leaf then cn else set (root_of t') cn)
    ∧ repr h1 (Some c) t'
    ∧ NoDup (locs t')
    ∧ (∀ q, q ∈ locs t' → q ∉ dom h)
    ∧ dom h1 = dom h ∪ list_to_set (locs t')
    ∧ (∀ q, q ∈ dom h → q ≠ c → h1 !! q = h !! q).
Proof.
  intros Hget Hcopy Hrepr Hc Hcl. destruct t as [|tl ol tv tr].
  { exists h, Leaf. simpl. split; [done|]. split; [done|]. split; [done|].
    split; [done|]. split; [apply NoDup_nil_2|]. split.
    { intros q Hq. by apply not_elem_of_nil in Hq. }
    split; [|done]. by rewrite union_empty_r_L. }
  pose proof Hrepr as (Hol & _). simpl root_of. cbv iota.
  rewrite Hol. simpl. unfold alloc.
  set (c0 := fresh (dom h)).
  assert (c0 ∉ dom h) as Hfresh by apply is_fresh.
  assert (c ∈ dom h) as Hcd by (apply elem_of_dom; eauto).
  assert (c ≠ c0) as Hne by (by intros ->).
  rewrite lookup_insert_ne by done. rewrite Hc. simpl.
  rewrite lookup_insert_eq. simpl. rewrite Hget. simpl.
  set (h2 := <[c := set (Some c0) cn]> (<[c0 := mkNode tv None None (Some c)]> h)).
  assert (∀ q, q ∈ dom h → q ≠ c → h2 !! q = h !! q) as Hh2.
  { intros q Hq Hqc. unfold h2. rewrite !lookup_insert_ne; [done| |done].
    by intros <-. }
  destruct (Hcopy h2 (Some o) c0 (Some c))
    as (h' & l' & r' & Hrun & Hsl & Hsr & Hrepr' & Hnd & Hnew & Hdom & Hsame).
  { eapply repr_agree; [|exact Hrepr]. intros q Hq. apply Hh2.
    - by eapply repr_dom.
    - by intros ->. }
  { unfold h2. rewrite lookup_insert_ne by done. by rewrite lookup_insert_eq. }
  { intros Hin. apply Hfresh. by eapply repr_dom. }
  assert (dom h2 = {[c0]} ∪ dom h) as Hdom2.
  { unfold h2. rewrite dom_insert_lookup_L.
    - by rewrite dom_insert_L.
    - rewrite lookup_insert_ne by done. eauto. }
  exists h', (Fork l' c0 tv r'). split; [exact Hrun|].
  split; [done|]. split.
  { rewrite Hsame.
    - unfold h2. by rewrite lookup_insert_eq.
    - rewrite Hdom2. apply elem_of_union. by right.
    - done. }
  split; [done|]. rewrite locs_Fork. split.
  { rewrite <- Permutation_middle. apply NoDup_cons. split; [|done].
    intros Hin. apply (Hnew _ Hin). rewrite Hdom2. apply elem_of_union.
    left. by apply elem_of_singleton. }
  split.
  { intros q Hq. apply elem_of_app in Hq as [Hq|Hq].
    - intros Hqd. apply (Hnew q); [apply elem_of_app; by left|].
      rewrite Hdom2. apply elem_of_union. by right.
    - apply elem_of_cons in Hq as [->|Hq]; [done|].
      intros Hqd. apply (Hnew q); [apply elem_of_app; by right|].
      rewrite Hdom2. apply elem_of_union. by right. }
  split.
  { rewrite Hdom, Hdom2. apply set_eq. intros q.
    rewrite !elem_of_union, !elem_of_list_to_set, !elem_of_app, elem_of_cons,
      elem_of_singleton. tauto. }
  intros q Hq Hqc. rewrite Hsame.
  - by apply Hh2.
  - rewrite Hdom2. apply elem_of_union. by right.
  - by intros ->.
Qed.

Lemma copy_helper_copies t fuel :
  (height t ≤ fuel)%nat → copies (copy_helper fuel) t.
Proof.
  revert fuel. induction t as [|l IHl o v r IHr]; intros fuel Hf; [done|].
  intros h par c pc Hrepr Hc Hcl. pose proof Hrepr as (Ho & Hl & Hr).
  destruct fuel as [|f]; [simpl in Hf; lia|]. simpl in Hf.
  assert (height l ≤ f)%nat as Hfl by lia.
  assert (height r ≤ f)%nat as Hfr by lia.
  rewrite locs_Fork in Hcl.
  assert ((c ∉ locs l) ∧ c ≠ o ∧ (c ∉ locs r)) as (Hcl1 & Hco & Hcl2).
  { rewrite elem_of_app, elem_of_cons in Hcl. tauto. }
  assert (c ∈ dom h) as Hcd by (apply elem_of_dom; eauto).
  assert (o ∈ dom h) as Hod by (apply elem_of_dom; eauto).
  destruct (copy_child set_left left (copy_helper f) l h o c _
              (λ _ _, eq_refl) (IHl f Hfl) Hl Hc Hcl1)
    as (h1 & l' & HL & Hsl & Hc1 & Hrl & Hndl & Hnewl & Hdoml & Hsamel).
  assert (repr h1 (Some o) r) as Hr1.
  { eapply repr_agree; [|exact Hr]. intros q Hq. apply Hsamel.
    - by eapply repr_dom.
    - by intros ->. }
  destruct (copy_child set_right right (copy_helper f) r h1 o c _
              (λ _ _, eq_refl) (IHr f Hfr) Hr1 Hc1 Hcl2)
    as (h2 & r' & HR & Hsr & Hc2 & Hrr & Hndr & Hnewr & Hdomr & Hsamer).
  assert (dom h ⊆ dom h1) as Hsub.
  { rewrite Hdoml. apply union_subseteq_l. }
  exists h2, l', r'. split.
  { cbn [copy_helper]. rewrite Ho. cbn [mbind option_bind left].
    match goal with
    | |- mbind _ ?m = _ => replace m with (Some h1) by (symmetry; exact HL)
    end.
    cbn [mbind option_bind]. rewrite Hsamel by (done || by intros ->).
    rewrite Ho. cbn [mbind option_bind right]. exact HR. }
  split; [done|]. split; [done|]. split.
  { split.
    - rewrite Hc2. clear -Hsl Hsr.
      by destruct l, l', r, r'.
    - split; [|done]. eapply repr_agree; [|exact Hrl]. intros q Hq.
      apply Hsamer.
      + rewrite Hdoml. apply elem_of_union. right.
        by apply elem_of_list_to_set.
      + intros ->. by apply (Hnewl c). }
  split.
  { apply NoDup_app. split; [done|]. split; [|done].
    intros q Hq1 Hq2. apply (Hnewr _ Hq2). rewrite Hdoml.
    apply elem_of_union. right. by apply elem_of_list_to_set. }
  split.
  { intros q Hq. apply elem_of_app in Hq as [Hq|Hq]; [by apply Hnewl|].
    intros Hqd. apply (Hnewr _ Hq). by apply Hsub. }
  split.
  { rewrite Hdomr, Hdoml, list_to_set_app_L. by rewrite (assoc_L (∪)). }
  intros q Hq Hqc. rewrite Hsamer by (done || by apply Hsub).
  by apply Hsamel.
Qed.

Lemma same_values_in_order t t' : same_values t t' → in_order t' = in_order t.
Proof.
  revert t'. induction t as [|l IHl p v r IHr]; intros [|l' p' v' r']; try done.
  rewrite !in_order_Fork. intros (-> & Hl & Hr).
  by rewrite (IHl _ Hl), (IHr _ Hr).
Qed.

Lemma same_values_length t t' :
  same_values t t' → length (nodes t') = length (nodes t).
Proof.
  intros Hs. by rewrite <- !length_pre_order, (same_values_pre_order _ _ Hs).
Qed.

(** *** Trees in a free store that holds other nodes as well *)

Lemma NoDup_dom_length h (ls : list loc) :
  NoDup ls → (∀ q, q ∈ ls → q ∈ dom h) → (length ls ≤ base.size h)%nat.
Proof.
  intros Hnd Hsub.
  rewrite <- size_dom, <- (size_list_to_set (C:=gset loc) ls) by done.
  apply subseteq_size. intros q Hq. apply elem_of_list_to_set in Hq. auto.
Qed.

Lemma repr_height_fuel h par t :
  repr h par t → NoDup (locs t) → (height t < fuel_of h)%nat.
Proof.
  intros Hrepr Hnd. rewrite fuel_of_S.
  pose proof (height_le_nodes t).
  pose proof (NoDup_dom_length h (locs t) Hnd (λ q, repr_dom _ _ _ _ Hrepr)).
  unfold locs in *. rewrite length_fmap in *. lia.
Qed.

Lemma represents_owns s t : represents s t → owns s t.
Proof. by intros (? & ? & ? & _). Qed.

Lemma owns_pre_order s t : owns s t → pre_order_traversal s = Some (pre_order t).
Proof.
  intros (Hroot & Hrepr & Hnd). unfold pre_order_traversal. rewrite Hroot.
  eapply pre_order_helper_repr; [done|]. by eapply repr_height_fuel.
Qed.

Lemma owns_in_order s t : owns s t → in_order_traversal s = Some (in_order t).
Proof.
  intros (Hroot & Hrepr & Hnd). unfold in_order_traversal. rewrite Hroot.
  eapply in_order_helper_repr; [done|]. by eapply repr_height_fuel.
Qed.

Lemma owns_post_order s t :
  owns s t → post_order_traversal s = Some (post_order t).
Proof.
  intros (Hroot & Hrepr & Hnd). unfold post_order_traversal. rewrite Hroot.
  eapply post_order_helper_repr; [done|]. by eapply repr_height_fuel.
Qed.

Lemma owns_contains s t key :
  owns s t →
  contains key s = Some (if (descend key [] t).2 is Leaf then false else true).
Proof.
  intros (Hroot & Hrepr & Hnd). unfold contains. rewrite Hroot.
  erewrite (find_node_descend _ _ _ _ key []);
    [|done|by eapply repr_height_fuel].
  simpl. by destruct (descend key [] t).2.
Qed.

Lemma copy_construct_owns other t :
  owns other t →
  ∃ s t',
    copy_construct other = Some s
    ∧ same_values t t' ∧ owns s t'
    ∧ tree_size_ s = (if t is Leaf then 0 else tree_size_ other)
    ∧ (∀ q, q ∈ locs t' → q ∉ dom (store other))
    ∧ dom (store s) = dom (store other) ∪ list_to_set (locs t')
    ∧ (∀ q, q ∈ dom (store other) → store s !! q = store other !! q).
Proof.
  intros (Hroot & Hrepr & Hnd).
  pose proof (repr_height_fuel _ _ _ Hrepr Hnd) as Hfuel.
  unfold copy_construct. rewrite Hroot.
  destruct t as [|l o v r].
  { exists (mkBST (store other) None 0), Leaf. simpl.
    split; [done|]. split; [done|]. split; [done|]. split; [done|].
    split. { intros q Hq. by apply not_elem_of_nil in Hq. }
    split; [|done]. by rewrite union_empty_r_L. }
  pose proof Hrepr as (Ho & _). simpl root_of. cbv iota.
  rewrite Ho. simpl. unfold alloc.
  set (c := fresh (dom (store other))).
  assert (c ∉ dom (store other)) as Hfresh by apply is_fresh.
  set (h0 := <[c := mkNode v None None None]> (store other)).
  assert (∀ q, q ∈ dom (store other) → h0 !! q = store other !! q) as Hh0.
  { intros q Hq. unfold h0. rewrite lookup_insert_ne; [done|]. by intros <-. }
  assert (dom h0 = {[c]} ∪ dom (store other)) as Hdom0.
  { unfold h0. by rewrite dom_insert_L. }
  destruct (copy_helper_copies (Fork l o v r) (fuel_of (store other)))
    with (h := h0) (par := @None loc) (c := c) (pc := @None loc)
    as (h' & l' & r' & Hrun & Hsl & Hsr & Hrepr' & Hnd' & Hnew & Hdom' & Hsame).
  { lia. }
  { eapply repr_agree; [|exact Hrepr]. intros q Hq. apply Hh0.
    by eapply repr_dom. }
  { unfold h0. by rewrite lookup_insert_eq. }
  { intros Hin'. apply Hfresh. by eapply repr_dom. }
  rewrite Hrun. simpl.
  assert (c ∈ dom h0) as Hc0.
  { rewrite Hdom0. apply elem_of_union. left. by apply elem_of_singleton. }
  exists (mkBST h' (Some c) (tree_size_ other)), (Fork l' c v r').
  split; [done|]. split; [done|]. split.
  { split; [done|]. split; [done|]. rewrite locs_Fork.
    rewrite <- Permutation_middle. apply NoDup_cons. split; [|done].
    intros Hin'. by apply (Hnew c). }
  split; [done|]. simpl. split.
  { intros q Hq. rewrite locs_Fork in Hq.
    rewrite elem_of_app, elem_of_cons in Hq.
    destruct Hq as [Hq|[->|Hq]]; [|done|].
    + intros Hqd. apply (Hnew q); [apply elem_of_app; by left|].
      rewrite Hdom0. apply elem_of_union. by right.
    + intros Hqd. apply (Hnew q); [apply elem_of_app; by right|].
      rewrite Hdom0. apply elem_of_union. by right. }
  split.
  { rewrite Hdom', Hdom0. apply set_eq. intros q. rewrite locs_Fork.
    rewrite !elem_of_union, !elem_of_list_to_set, !elem_of_app, elem_of_cons,
      elem_of_singleton. tauto. }
  intros q Hq. rewrite Hsame.
  - by apply Hh0.
  - rewrite Hdom0. apply elem_of_union. by right.
  - by intros ->.
Qed.

(** X18. The copy constructor builds, out of new nodes, a tree that gives the
    same pre-order, in-order and post-order sequences as the original and
    has its count; the nodes of the original are left as they are. *)
Theorem copy_construct_copies (other : @BinarySearchTree T) :
  wf other →
  ∃ s t' pre ino post,
    copy_construct other = Some s
    ∧ size s = size other
    ∧ pre_order_traversal other = Some pre
    ∧ in_order_traversal other = Some ino
    ∧ post_order_traversal other = Some post
    ∧ pre_order_traversal s = Some pre
    ∧ in_order_traversal s = Some ino
    ∧ post_order_traversal s = Some post
    ∧ root_ s = root_of t' ∧ repr (store s) None t'
    ∧ (∀ q, q ∈ locs t' → q ∉ dom (store other))
    ∧ (∀ q, q ∈ dom (store other) → store s !! q = store other !! q).
Proof.
  intros (t & Hrep & Hb & Hsz & Hlt).
  pose proof (represents_owns _ _ Hrep) as Hown.
  destruct (copy_construct_owns _ _ Hown)
    as (s & t' & Hrun & Hs & Hown' & Hsz' & Hnew & _ & Hsame).
  exists s, t', (pre_order t), (in_order t), (post_order t).
  split; [done|]. split.
  { unfold size. rewrite Hsz'. destruct t; [by rewrite Hsz|done]. }
  split; [by apply owns_pre_order|]. split; [by apply owns_in_order|].
  split; [by apply owns_post_order|].
  rewrite <- (same_values_pre_order _ _ Hs), <- (same_values_in_order _ _ Hs),
    <- (same_values_post_order _ _ Hs).
  split; [by apply owns_pre_order|]. split; [by apply owns_in_order|].
  split; [by apply owns_post_order|].
  destruct Hown' as (Hroot' & Hrepr' & _). done.
Qed.

Lemma emplace_frame s t val :
  owns s t →
  ∃ s' res,
    emplace val s = Some (s', res)
    ∧ ∀ q, q ∈ dom (store s) → q ∉ locs t → store s' !! q = store s !! q.
Proof.
  intros (Hroot & Hrepr & Hnd).
  pose proof (repr_height_fuel _ _ _ Hrepr Hnd) as Hfuel.
  assert (∀ q, q ∈ dom (store s) → q ≠ fresh (dom (store s))) as Hfresh.
  { intros q Hq ->. by apply (is_fresh (dom (store s))). }
  unfold emplace. rewrite Hroot. destruct t as [|l p v r].
  { simpl. eexists _, _. split; [done|]. simpl. intros q Hq _.
    apply lookup_insert_ne. intros Heq. by apply (Hfresh q). }
  simpl root_of. cbv iota.
  change (Some p) with (root_of (Fork l p v r)).
  rewrite (emplace_loop_root _ _ _ _ Hrepr Hfuel).
  pose proof (descend_plug val [] (Fork l p v r)) as Hplug.
  destruct (descend val [] (Fork l p v r)) as [ctx [|l1 p1 v1 r1]] eqn:Hd;
    simpl in Hplug |- *.
  - destruct ctx as [|f c]; [done|]. simpl.
    rewrite <- Hplug in Hrepr, Hnd. apply repr_plug in Hrepr as [_ Hctx].
    destruct (repr_ctx_head _ _ _ _ Hctx) as [pn Hpn]. rewrite Hpn. simpl.
    eexists _, _. split; [done|]. simpl. intros q Hq Hqt.
    assert (q ≠ frame_loc f) as Hqf.
    { intros ->. apply Hqt. rewrite <- Hplug.
      rewrite (locs_plug_perm (f :: c) Leaf). apply frame_loc_ctx_locs. }
    destruct (ltb val (data pn)); rewrite !lookup_insert_ne;
      try done; intros Heq; by apply (Hfresh q).
  - eexists _, _. split; [done|]. done.
Qed.

(** X19. A copy and its original are independent under insertion: inserting
    into either leaves every node of the other as it is, so the sequence
    and the lookups of the other tree are what they were. *)
Theorem copy_is_independent (other : @BinarySearchTree T) :
  wf other →
  ∃ copy,
    copy_construct other = Some copy
    ∧ (∀ val, ∃ copy' res,
         emplace val copy = Some (copy', res)
         ∧ (∀ q, q ∈ dom (store other) → store copy' !! q = store other !! q)
         ∧ in_order_traversal (with_store (store copy') other)
           = in_order_traversal other
         ∧ ∀ key, contains key (with_store (store copy') other)
                  = contains key other)
    ∧ (∀ val, ∃ other' res,
         emplace val (with_store (store copy) other) = Some (other', res)
         ∧ in_order_traversal (with_store (store other') copy)
           = in_order_traversal copy
         ∧ ∀ key, contains key (with_store (store other') copy)
                  = contains key copy).
Proof.
  intros (t & Hrep & _).
  pose proof (represents_owns _ _ Hrep) as Hown.
  destruct (copy_construct_owns _ _ Hown)
    as (copy & t' & Hrun & Hs & Hown' & _ & Hnew & Hdom & Hsame).
  exists copy. split; [done|]. split.
  - intros val.
    destruct (emplace_frame copy t' val Hown') as (copy' & res & He & Hfr).
    exists copy', res. split; [done|].
    assert (∀ q, q ∈ dom (store other) → store copy' !! q = store other !! q)
      as Hkeep.
    { intros q Hq. rewrite Hfr.
      - by apply Hsame.
      - rewrite Hdom. apply elem_of_union. by left.
      - intros Hin. by apply (Hnew q). }
    split; [done|].
    assert (owns (with_store (store copy') other) t) as Hown2.
    { destruct Hown as (Hroot & Hrepr & Hnd). split; [done|]. split; [|done].
      simpl. eapply repr_agree; [|exact Hrepr]. intros q Hq. apply Hkeep.
      by eapply repr_dom. }
    split.
    + by rewrite (owns_in_order _ _ Hown2), (owns_in_order _ _ Hown).
    + intros key.
      by rewrite (owns_contains _ _ _ Hown2), (owns_contains _ _ _ Hown).
  - intros val.
    assert (owns (with_store (store copy) other) t) as Hown1.
    { destruct Hown as (Hroot & Hrepr & Hnd). split; [done|]. split; [|done].
      simpl. eapply repr_agree; [|exact Hrepr]. intros q Hq. apply Hsame.
      by eapply repr_dom. }
    destruct (emplace_frame _ t val Hown1) as (other' & res & He & Hfr).
    exists other', res. split; [done|].
    assert (owns (with_store (store other') copy) t') as Hown2.
    { destruct Hown' as (Hroot & Hrepr & Hnd). split; [done|]. split; [|done].
      simpl. eapply repr_agree; [|exact Hrepr]. intros q Hq. apply Hfr.
      - simpl. by eapply repr_dom.
      - intros Hin. apply (Hnew q Hq). destruct Hown as (_ & Hrepr0 & _).
        by eapply repr_dom. }
    split.
    + by rewrite (owns_in_order _ _ Hown2), (owns_in_order _ _ Hown').
    + intros key.
      by rewrite (owns_contains _ _ _ Hown2), (owns_contains _ _ _ Hown').
Qed.

(** X20. Copy assignment [this = rhs], also with [this] and [rhs] the same
    object: [this] gets the count and the three sequences of [rhs]; its
    tree is made of newly allocated nodes, at addresses that were not in use
    before the assignment; the nodes it owned before are released, and all
    other nodes, those of [rhs] among them unless it is [this] itself, are
    left as they are. *)
Theorem copy_assign_replaces (this rhs : @BinarySearchTree T) ta tb :
  store this = store rhs → owns this ta → owns rhs tb → counted rhs tb →
  ∃ s t' pre ino post,
    copy_assign this rhs = Some s
    ∧ size s = size rhs
    ∧ pre_order_traversal rhs = Some pre
    ∧ in_order_traversal rhs = Some ino
    ∧ post_order_traversal rhs = Some post
    ∧ pre_order_traversal s = Some pre
    ∧ in_order_traversal s = Some ino
    ∧ post_order_traversal s = Some post
    ∧ root_ s = root_of t' ∧ repr (store s) None t'
    ∧ (∀ q, q ∈ locs t' → q ∉ dom (store rhs))
    ∧ (∀ q, q ∈ locs ta → store s !! q = None)
    ∧ (∀ q, q ∈ dom (store rhs) → q ∉ locs ta →
            store s !! q = store rhs !! q).
Proof.
  intros Hst (Hroota & Hrepra & Hnda) Hownb [Hsz _].
  destruct (copy_construct_owns _ _ Hownb)
    as (cp & t' & Hrun & Hs & (Hroot' & Hrepr' & Hnd') & Hsz' & Hnew & Hdom
        & Hsame).
  rewrite Hst in Hrepra.
  assert (repr (store cp) None ta) as Hrepra'.
  { eapply repr_agree; [|exact Hrepra]. intros q Hq. apply Hsame.
    by eapply repr_dom. }
  destruct (destroy_repr (store cp) None ta (fuel_of (store cp)) Hrepra' Hnda)
    as (h & Hdes & Hdomh & Hkeep).
  { by eapply repr_height_fuel. }
  assert (∀ q, q ∈ locs t' → q ∉ locs ta) as Hdisj.
  { intros q Hq Hin. apply (Hnew q Hq). by eapply repr_dom. }
  assert (owns (mkBST h (root_ cp) (tree_size_ cp)) t') as Hown.
  { split; [done|]. split; [|done]. simpl.
    eapply repr_agree; [|exact Hrepr']. intros q Hq. apply Hkeep.
    by apply Hdisj. }
  exists (mkBST h (root_ cp) (tree_size_ cp)), t',
    (pre_order tb), (in_order tb), (post_order tb).
  split.
  { unfold copy_assign. rewrite Hrun. simpl. unfold destructor. simpl.
    rewrite Hroota, Hdes. done. }
  split.
  { unfold size. simpl. rewrite Hsz'. destruct tb; [by rewrite Hsz|done]. }
  split; [by apply owns_pre_order|]. split; [by apply owns_in_order|].
  split; [by apply owns_post_order|].
  rewrite <- (same_values_pre_order _ _ Hs), <- (same_values_in_order _ _ Hs),
    <- (same_values_post_order _ _ Hs).
  split; [by apply owns_pre_order|]. split; [by apply owns_in_order|].
  split; [by apply owns_post_order|].
  split; [by destruct Hown|]. split; [by destruct Hown as (_ & ? & _)|].
  split; [exact Hnew|]. simpl. split.
  - intros q Hq. apply not_elem_of_dom. rewrite Hdomh.
    rewrite elem_of_difference, elem_of_list_to_set. tauto.
  - intros q Hq Hqa. rewrite Hkeep by done. by apply Hsame.
Qed.

(** X21. Move assignment [this = std::move(rhs)] between two objects with
    disjoint nodes: [this] takes over the tree of [rhs] as it is, node by
    node at the same addresses, with its count and its sequence; [rhs] is
    left empty; the nodes [this] owned before are released. *)
Theorem move_assign_transfers (this rhs : @BinarySearchTree T) ta tb :
  store this = store rhs → owns this ta → owns rhs tb →
  (∀ q, q ∈ locs ta → q ∉ locs tb) →
  ∃ this' rhs',
    move_assign_from this rhs = Some (this', rhs')
    ∧ owns this' tb
    ∧ size this' = size rhs
    ∧ in_order_traversal this' = in_order_traversal rhs
    ∧ root_ rhs' = None ∧ size rhs' = 0 ∧ empty rhs' = true
    ∧ in_order_traversal rhs' = Some []
    ∧ store rhs' = store this'
    ∧ (∀ q, q ∈ locs ta → store this' !! q = None)
    ∧ (∀ q, q ∉ locs ta → store this' !! q = store rhs !! q).
Proof.
  intros Hst (Hroota & Hrepra & Hnda) Hownb Hdisj.
  pose proof Hownb as (Hrootb & Hreprb & Hndb).
  rewrite Hst in Hrepra.
  destruct (destroy_repr (store rhs) None ta (fuel_of (store rhs)) Hrepra Hnda)
    as (h & Hdes & Hdomh & Hkeep).
  { by eapply repr_height_fuel. }
  assert (owns (mkBST h (root_ rhs) (tree_size_ rhs)) tb) as Hown.
  { split; [done|]. split; [|done]. simpl.
    eapply repr_agree; [|exact Hreprb]. intros q Hq. apply Hkeep.
    intros Hin. by apply (Hdisj q). }
  exists (mkBST h (root_ rhs) (tree_size_ rhs)), (mkBST h None 0).
  split.
  { unfold move_assign_from. simpl. unfold destructor. simpl.
    rewrite Hroota, Hdes. done. }
  split; [done|]. split; [done|]. split.
  { by rewrite (owns_in_order _ _ Hown), (owns_in_order _ _ Hownb). }
  split; [done|]. split; [done|]. split; [done|]. split.
  { unfold in_order_traversal. simpl. by rewrite fuel_of_S. }
  split; [done|]. simpl. split; [|done].
  intros q Hq. apply not_elem_of_dom. rewrite Hdomh.
  rewrite elem_of_difference, elem_of_list_to_set. tauto.
Qed.

(** ** The traversal constructors on arbitrary input *)

Lemma built_ordered_iff s t t' :
  represents s t' → same_values t t' →
  ordered s ↔ StronglySorted lt (in_order t).
Proof.
  intros Hrep Hs. rewrite <- (same_values_in_order _ _ Hs). split.
  - intros (t'' & Hrep'' & Hb).
    rewrite (represents_functional _ _ _ Hrep Hrep''). by apply bst_sorted.
  - intros Hsorted. exists t'. split; [done|]. by apply bst_sorted.
Qed.

(** X22. The traversal constructors rebuild any binary tree with pairwise
    distinct values and at most [INT_MAX] of them from its sequences,
    whether it is a search tree or not: the tree built gives back the three
    sequences and has their length as its count, and it satisfies the
    ordering invariant only if the in-order sequence given is ascending. *)
Theorem builders_accept_any_shape t :
  NoDup (in_order t) → Z.of_nat (length (in_order t)) ≤ INT_MAX →
  ∃ s1 s2 : @BinarySearchTree T,
    from_pre_in (pre_order t) (in_order t) = Some s1
    ∧ from_in_post (in_order t) (post_order t) = Some s2
    ∧ pre_order_traversal s1 = Some (pre_order t)
    ∧ in_order_traversal s1 = Some (in_order t)
    ∧ post_order_traversal s1 = Some (post_order t)
    ∧ pre_order_traversal s2 = Some (pre_order t)
    ∧ in_order_traversal s2 = Some (in_order t)
    ∧ post_order_traversal s2 = Some (post_order t)
    ∧ size s1 = Z.of_nat (length (in_order t))
    ∧ size s2 = Z.of_nat (length (in_order t))
    ∧ (ordered s1 ↔ StronglySorted lt (in_order t))
    ∧ (ordered s2 ↔ StronglySorted lt (in_order t)).
Proof.
  intros Hnd Hmax. rewrite length_in_order in Hmax.
  destruct (from_pre_in_round_trip t Hnd Hmax)
    as (s1 & t1 & H1 & Hrep1 & Hs1 & Hn1).
  destruct (from_in_post_round_trip t Hnd Hmax)
    as (s2 & t2 & H2 & Hrep2 & Hs2 & Hn2).
  exists s1, s2. split; [done|]. split; [done|].
  rewrite (pre_order_traversal_represents _ _ Hrep1),
    (in_order_traversal_represents _ _ Hrep1),
    (post_order_traversal_represents _ _ Hrep1),
    (pre_order_traversal_represents _ _ Hrep2),
    (in_order_traversal_represents _ _ Hrep2),
    (post_order_traversal_represents _ _ Hrep2).
  rewrite (same_values_pre_order _ _ Hs1), (same_values_in_order _ _ Hs1),
    (same_values_post_order _ _ Hs1), (same_values_pre_order _ _ Hs2),
    (same_values_in_order _ _ Hs2), (same_values_post_order _ _ Hs2).
  unfold size. rewrite Hn1, Hn2, length_in_order.
  split; [done|]. split; [done|]. split; [done|]. split; [done|].
  split; [done|]. split; [done|]. split; [done|]. split; [done|].
  split; [by eapply built_ordered_iff|by eapply built_ordered_iff].
Qed.

(** X23. When the sequences have the same length and the value that is to
    become the root, the first of the pre-order or the last of the
    post-order sequence, does not occur in the in-order sequence, the
    constructors do not return a tree: the lookup [inorder_map.at]
    throws. *)
Theorem builders_fail_on_unknown_root (x : T) (rest inorder : list T) :
  x ∉ inorder → length inorder = S (length rest) →
  from_pre_in (x :: rest) inorder = None
  ∧ from_in_post inorder (rest ++ [x]) = None.
Proof.
  clear ltb_trans ltb_irrefl equivb_trans. intros Hx Hlen.
  assert (inorder ≠ []) as Hne by (by intros ->).
  assert (∀ mp, index_inorder inorder 0 ∅ = Some mp →
                mp !! x = None
                ∧ int_of_size_t (size_decr (Z.of_nat (length inorder)))
                  = Z.of_nat (length inorder) - 1
                ∧ Z.of_nat (length inorder) ≤ INT_MAX) as Hidx.
  { intros mp Hmp.
    pose proof (index_inorder_bound _ _ _ _ Hmp Hne) as Hb.
    split; [by rewrite (index_inorder_notin _ _ _ _ _ Hmp Hx)|].
    split; [|lia]. apply int_of_length; lia. }
  split.
  - unfold from_pre_in.
    rewrite (bool_decide_eq_false_2 (length (x :: rest) = 0%nat)) by done.
    rewrite (bool_decide_eq_true_2 (length (x :: rest) = length inorder))
      by (simpl; lia).
    cbn [orb negb].
    destruct (index_inorder inorder 0 ∅) as [mp|] eqn:Hmp; [|done].
    destruct (Hidx mp eq_refl) as (Hmap & -> & Hmax).
    cbn [mbind option_bind length build_from_pre_in].
    rewrite bool_decide_eq_false_2 by lia.
    change (at_index (x :: rest) 0) with (Some x). cbn [mbind option_bind].
    rewrite int_range_Some by (unfold INT_MIN, INT_MAX; lia).
    cbn [mbind option_bind]. unfold alloc. by rewrite Hmap.
  - unfold from_in_post.
    rewrite (bool_decide_eq_false_2 (length (rest ++ [x]) = 0%nat))
      by (rewrite length_app; simpl; lia).
    rewrite (bool_decide_eq_true_2 (length (rest ++ [x]) = length inorder))
      by (rewrite length_app; simpl; lia).
    cbn [orb negb].
    destruct (index_inorder inorder 0 ∅) as [mp|] eqn:Hmp; [|done].
    destruct (Hidx mp eq_refl) as (Hmap & Hint & Hmax).
    assert (length (rest ++ [x]) = length inorder) as Hl
      by (rewrite length_app; simpl; lia).
    rewrite Hl, Hint.
    cbn [mbind option_bind build_from_post_in].
    rewrite bool_decide_eq_false_2 by lia.
    replace (Z.of_nat (length inorder) - 1) with (Z.of_nat (length rest))
      by lia.
    rewrite at_index_nat, list_lookup_middle by done.
    cbn [mbind option_bind].
    rewrite int_range_Some by (unfold INT_MIN, INT_MAX in *; lia).
    cbn [mbind option_bind]. unfold alloc. by rewrite Hmap.
Qed.


(** ** Removal after insertion *)

Lemma repr_store_eq h h' par t q :
  repr h par t → repr h' par t → q ∈ locs t → h !! q = h' !! q.
Proof.
  revert par. induction t as [|l IHl p v r IHr]; intros par; simpl.
  { intros _ _ Hq. by apply not_elem_of_nil in Hq. }
  intros (Hp & Hl & Hr) (Hp' & Hl' & Hr'). rewrite locs_Fork.
  rewrite elem_of_app, elem_of_cons. intros [Hq|[->|Hq]].
  - by eapply IHl.
  - by rewrite Hp, Hp'.
  - by eapply IHr.
Qed.

(** The tree and the count determine the state. *)
Lemma represents_state_eq s s' t :
  represents s t → represents s' t → tree_size_ s = tree_size_ s' → s = s'.
Proof.
  destruct s as [h rt n], s' as [h' rt' n'].
  intros (Hroot & Hrepr & _ & Hdom) (Hroot' & Hrepr' & _ & Hdom') Hn.
  simpl in *. subst n' rt rt'. f_equal. apply map_eq. intros q.
  destruct (decide (q ∈ locs t)) as [Hq|Hq].
  - by eapply repr_store_eq.
  - assert (q ∉ dom h) as Hqh.
    { rewrite Hdom. by rewrite elem_of_list_to_set. }
    assert (q ∉ dom h') as Hqh'.
    { rewrite Hdom'. by rewrite elem_of_list_to_set. }
    apply not_elem_of_dom in Hqh, Hqh'. by rewrite Hqh, Hqh'.
Qed.

Lemma erase_leaf s ctx key e v :
  represents s (plug ctx (Fork Leaf e v Leaf)) →
  descend key [] (plug ctx (Fork Leaf e v Leaf)) = (ctx, Fork Leaf e v Leaf) →
  ∃ s' it,
    erase key s = Some (s', it)
    ∧ represents s' (plug ctx Leaf)
    ∧ tree_size_ s' = size_decr (tree_size_ s).
Proof.
  intros Hrep Hd. pose proof Hrep as Hrep'.
  apply represents_plug in Hrep' as (_ & (He & _ & _) & _).
  destruct (erase_leaf_step _ _ _ _ Hrep) as (s' & Hs' & Hrep1 & Hsz).
  eexists _, _. split.
  { unfold erase. rewrite (find_node_represents _ _ _ Hrep), Hd.
    cbn [snd root_of mbind option_bind].
    unfold pre_increment. cbn [ptr_ tree_].
    rewrite (successor_spec _ _ _ _ _ _ Hrep). cbn [mbind option_bind].
    rewrite He. simpl. rewrite Hs'. simpl. done. }
  split; [by apply represents_with_size|]. simpl. by rewrite Hsz.
Qed.

(** X24. Erasing a key right after it was inserted as a new element restores
    the state the tree had before: the same nodes at the same addresses
    and the same count. *)
Theorem erase_undoes_insert val (s : @BinarySearchTree T) :
  wf s → contains val s = Some false → size s + 1 < SIZE_MOD →
  ∃ s1 it it',
    insert val s = Some (s1, it) ∧ erase val s1 = Some (s, it').
Proof.
  unfold size. intros (t & Hrep & Hb & Hsz & Hlt) Hc Hroom.
  rewrite (contains_represents _ _ _ Hrep) in Hc.
  destruct (descend val [] t) as [ctx [|l p v r]] eqn:Hd; [|done]. clear Hc.
  destruct (emplace_absent_find _ _ _ _ Hrep Hd)
    as (s1 & He & Hrep1 & Hsz1 & _).
  pose proof (descend_plug val [] t) as Hp. rewrite Hd in Hp. simpl in Hp.
  pose proof (descend_cmp val [] t (Forall_nil_2 _)) as Hcmp.
  rewrite Hd in Hcmp. simpl in Hcmp.
  set (new := fresh (dom (store s))) in *.
  destruct (erase_leaf s1 ctx val new val Hrep1)
    as (s2 & it' & Her & Hrep2 & Hsz2).
  { rewrite (descend_along_path _ _ _ _ Hcmp), app_nil_r. simpl.
    by rewrite ltb_irrefl. }
  exists s1, (mkIt (Some new) true), it'. unfold insert. rewrite He. simpl.
  split; [done|]. rewrite Her. do 2 f_equal.
  apply (represents_state_eq _ _ t); [by rewrite <- Hp|done|].
  rewrite Hsz2, Hsz1. unfold size_decr, size_incr.
  rewrite Zminus_mod_idemp_l.
  replace (tree_size_ s + 1 - 1) with (tree_size_ s) by lia.
  apply Z.mod_small. lia.
Qed.


End Proofs.

(** * The container of integers

    The ordering of [int] is a strict weak order; the general results are
    applied to concrete trees of the test suite. *)

Lemma Z_ltb_trans (a b c : Z) : ltb a b = true → ltb b c = true → ltb a c = true.
Proof. unfold ltb, Z_LessThan. rewrite !Z.ltb_lt. lia. Defined.

Lemma Z_ltb_irrefl (a : Z) : ltb a a = false.
Proof. apply Z.ltb_irrefl. Defined.

Lemma Z_equivb_trans (a b c : Z) :
  equivb a b = true → equivb b c = true → equivb a c = true.
Proof.
  unfold equivb, ltb, Z_LessThan.
  rewrite !andb_true_iff, !negb_true_iff, !Z.ltb_ge. lia.
Defined.

Lemma Z_move_keeps_below : move_keeps_below (T := Z).
Proof. intros a b y _ Hby. exact Hby. Defined.

Lemma example_state_built :
  from_initializer_list [10; 5; 15] = Some example_state.
Proof. vm_compute. reflexivity. Qed.

Lemma example_state_wf : wf example_state.
Proof.
  exists example_shape. split; [|split].
  - split; [reflexivity|]. split; [|split].
    + simpl. repeat split; reflexivity.
    + unfold locs. simpl. repeat constructor; set_solver.
    + vm_compute. reflexivity.
  - simpl. repeat split; repeat constructor.
  - split; [reflexivity|]. vm_compute. reflexivity.
Defined.

Lemma insertions_visited_in_sorted_order_witness :
  ∃ s L,
    apply_insertions
      [via_insert 10; via_emplace 5; via_insert 15; via_emplace 10] empty_tree
    = Some s
    ∧ (∀ vals, [via_insert 10; via_emplace 5; via_insert 15; via_emplace 10]
               = via_insert <$> vals → from_initializer_list vals = Some s)
    ∧ in_order_traversal s = Some L
    ∧ range_for s = Some L
    ∧ StronglySorted lt L
    ∧ NoDup L
    ∧ (∀ x, x ∈ L →
            x ∈ inserted_value
                  <$> [via_insert 10; via_emplace 5; via_insert 15; via_emplace 10])
    ∧ (∀ x, x ∈ inserted_value
                  <$> [via_insert 10; via_emplace 5; via_insert 15; via_emplace 10] →
            ∃ xs y ys, L = xs ++ y :: ys ∧ equivb x y = true
                       ∧ Forall (λ z, equivb x z = false) (xs ++ ys)).
Proof.
  exact (insertions_visited_in_sorted_order Z_ltb_trans Z_ltb_irrefl
           Z_equivb_trans
           [via_insert 10; via_emplace 5; via_insert 15; via_emplace 10]).
Defined.

Lemma example_state_ordered : ordered example_state.
Proof.
  destruct example_state_wf as (t & Hrep & Hb & _). by exists t.
Defined.

Lemma mutations_preserve_ordering_witness :
  move_keeps_below (T := Z)
  ∧ ordered example_state
  ∧ ∃ s', mutate (do_erase 10) example_state = Some s' ∧ ordered s'.
Proof.
  split; [exact Z_move_keeps_below|]. split; [exact example_state_ordered|].
  exact (mutations_preserve_ordering Z_ltb_trans Z_ltb_irrefl
           (do_erase 10) example_state Z_move_keeps_below
           example_state_ordered).
Defined.

Lemma erase_present_removes_exactly_one_witness :
  move_keeps_below (T := Z)
  ∧ wf example_state
  ∧ contains 10 example_state = Some true
  ∧ ∃ s' it xs x ys,
      erase 10 example_state = Some (s', it)
      ∧ wf s'
      ∧ size s' = size example_state - 1
      ∧ in_order_traversal example_state = Some (xs ++ x :: ys)
      ∧ equivb 10 x = true
      ∧ in_order_traversal s' = Some (xs ++ ys)
      ∧ Forall (λ y, equivb 10 y = false) (xs ++ ys).
Proof.
  split; [exact Z_move_keeps_below|].
  split; [exact example_state_wf|]. split; [vm_compute; reflexivity|].
  apply (erase_present_removes_exactly_one Z_ltb_trans Z_ltb_irrefl
           Z_equivb_trans 10 example_state Z_move_keeps_below
           example_state_wf).
  vm_compute. reflexivity.
Defined.

Lemma insert_present_is_noop_witness :
  wf example_state
  ∧ contains 15 example_state = Some true
  ∧ ∃ it x,
      emplace 15 example_state = Some (example_state, (it, false))
      ∧ insert 15 example_state = Some (example_state, it)
      ∧ find 15 example_state = Some it
      ∧ deref example_state it = Some x
      ∧ equivb 15 x = true.
Proof.
  split; [exact example_state_wf|]. split; [vm_compute; reflexivity|].
  apply (insert_present_is_noop 15 example_state example_state_wf).
  vm_compute. reflexivity.
Defined.

Lemma erase_absent_is_noop_witness :
  wf example_state
  ∧ contains 999 example_state = Some false
  ∧ erase 999 example_state = Some (example_state, end_ example_state).
Proof.
  split; [exact example_state_wf|]. split; [vm_compute; reflexivity|].
  apply (erase_absent_is_noop 999 example_state example_state_wf).
  vm_compute. reflexivity.
Defined.


Lemma builders_degenerate_input_gives_empty_witness :
  ([1; 2] = [] ∨ [1] = [] ∨ length [1; 2] ≠ length [1])
  ∧ from_pre_in [1; 2] [1] = Some empty_tree
  ∧ from_in_post [1; 2] [1] = Some empty_tree
  ∧ size (T:=Z) empty_tree = 0
  ∧ root_ (T:=Z) empty_tree = None
  ∧ in_order_traversal (T:=Z) empty_tree = Some [].
Proof.
  split; [right; right; simpl; lia|].
  apply (builders_degenerate_input_gives_empty [1; 2] [1]).
  right. right. simpl. lia.
Defined.

Lemma contains_agrees_with_find_witness :
  wf example_state
  ∧ contains 5 example_state
    = (λ it, negb (it_eqb it (end_ example_state))) <$> find 5 example_state
  ∧ (∃ x, deref example_state (mkIt (Some 2%positive) true) = Some x
          ∧ equivb 5 x = true)
  ∧ ∃ it, find 5 example_state = Some it.
Proof.
  split; [exact example_state_wf|].
  destruct (contains_agrees_with_find 5 example_state)
    as (Hc & Hf & _ & _ & Htotal).
  split; [exact Hc|]. split.
  - apply Hf; vm_compute; reflexivity.
  - exact (Htotal example_state_wf).
Defined.

(** C3. Erasing the root [50] of the tree [{50,30,70,20,40,60,80,35,45}], a
    node with two children: the value [60] of the successor moves into the
    root node, the node that held [60] is released, and the iterator
    returned still points to that released node, while the successor
    position is now the root node. *)
Theorem erase_two_children_returns_dangling_iterator :
  ∃ s s' it q,
    from_initializer_list [50; 30; 70; 20; 40; 60; 80; 35; 45] = Some s
    ∧ erase 50 s = Some (s', it)
    ∧ in_order_traversal s' = Some [20; 30; 35; 40; 45; 60; 70; 80]
    ∧ ptr_ it = Some q
    ∧ store s' !! q = None
    ∧ deref s' it = None
    ∧ find 60 s' = Some (mkIt (root_ s') true)
    ∧ root_ s' ≠ Some q.
Proof.
  eexists _, _, _, _.
  split; [vm_compute; reflexivity|].
  split; [vm_compute; reflexivity|].
  repeat split; try (vm_compute; reflexivity).
  vm_compute. discriminate.
Qed.

(** C2. Elements whose move leaves zero behind, in the tree
    [{-10, -20, -3, -5, 0}]: erasing the root [-10], which has two
    children, moves the successor [-5] into the root and then looks for
    the node to remove by the moved-from value of the successor, [0]; the
    search ends at the node of the element [0] and removes that one.  The
    node that held [-5] stays, with the value [0], to the left of [-3]: the
    tree no longer satisfies the ordering invariant, and [0], which the
    traversal still visits, is not found. *)
Theorem erase_by_moved_from_key_breaks_ordering :
  ∃ s s' it,
    from_initializer_list [-10; -20; -3; -5; 0] = Some s
    ∧ ordered s
    ∧ erase (move := zeroing_move) (-10) s = Some (s', it)
    ∧ in_order_traversal s' = Some [-20; -5; 0; -3]
    ∧ contains 0 s' = Some false
    ∧ ¬ ordered s'.
Proof.
  eexists _, _, _.
  split; [vm_compute; reflexivity|]. split.
  { exists (negatives_shape 0). split.
    - split; [reflexivity|]. split; [|split].
      + simpl. repeat split; reflexivity.
      + unfold locs. simpl. repeat constructor; set_solver.
      + vm_compute. reflexivity.
    - simpl. repeat split; repeat constructor. }
  split; [vm_compute; reflexivity|].
  match goal with
  | |- in_order_traversal ?x = _ ∧ _ =>
      assert (in_order_traversal x = Some [-20; -5; 0; -3]) as Htr
        by (vm_compute; reflexivity)
  end.
  split; [exact Htr|]. split; [vm_compute; reflexivity|].
  intros (t & Hrep & Hb).
  rewrite (in_order_traversal_represents _ _ Hrep) in Htr.
  injection Htr as Htr. apply (bst_sorted Z_ltb_trans) in Hb.
  rewrite Htr in Hb.
  apply StronglySorted_inv in Hb as [Hb _].
  apply StronglySorted_inv in Hb as [Hb _].
  apply StronglySorted_inv in Hb as [_ Hb].
  apply Forall_inv in Hb. discriminate Hb.
Qed.

(** C4. The same elements in the tree [{-10, -20, -3, -5, -1}]: erasing
    [-10] moves the successor [-5] into the root; the search by the
    moved-from value [0] runs past [-3] and [-1] and finds no node, so no
    node is removed.  The count is raised and lowered and stays [5], and
    the sequence holds a [0] that was never inserted. *)
Theorem erase_by_moved_from_key_keeps_count :
  ∃ s s' it,
    from_initializer_list [-10; -20; -3; -5; -1] = Some s
    ∧ wf s
    ∧ contains (-10) s = Some true
    ∧ in_order_traversal s = Some [-20; -10; -5; -3; -1]
    ∧ size s = 5
    ∧ erase (move := zeroing_move) (-10) s = Some (s', it)
    ∧ size s' = 5
    ∧ in_order_traversal s' = Some [-20; -5; 0; -3; -1].
Proof.
  eexists _, _, _.
  split; [vm_compute; reflexivity|]. split.
  { exists (negatives_shape (-1)). split; [|split].
    - split; [reflexivity|]. split; [|split].
      + simpl. repeat split; reflexivity.
      + unfold locs. simpl. repeat constructor; set_solver.
      + vm_compute. reflexivity.
    - simpl. repeat split; repeat constructor.
    - split; [reflexivity|]. vm_compute. reflexivity. }
  split; [vm_compute; reflexivity|]. split; [vm_compute; reflexivity|].
  split; [reflexivity|]. split; [vm_compute; reflexivity|].
  split; vm_compute; reflexivity.
Qed.

(** ** Further instances on the example tree *)

Lemma contains_decides_membership_witness :
  wf example_state
  ∧ ∃ L, in_order_traversal example_state = Some L
         ∧ contains 5 example_state = Some (existsb (equivb 5) L).
Proof.
  split; [exact example_state_wf|].
  exact (contains_decides_membership Z_ltb_trans 5 example_state
           example_state_wf).
Defined.

Lemma emplace_absent_adds_one_witness :
  wf example_state
  ∧ contains 7 example_state = Some false
  ∧ size example_state + 1 < SIZE_MOD
  ∧ ∃ s' it xs ys,
      emplace 7 example_state = Some (s', (it, true))
      ∧ wf s'
      ∧ size s' = size example_state + 1
      ∧ deref s' it = Some 7
      ∧ find 7 s' = Some it
      ∧ in_order_traversal example_state = Some (xs ++ ys)
      ∧ in_order_traversal s' = Some (xs ++ 7 :: ys).
Proof.
  split; [exact example_state_wf|]. split; [vm_compute; reflexivity|].
  split; [vm_compute; reflexivity|].
  apply (emplace_absent_adds_one Z_ltb_trans Z_ltb_irrefl 7 example_state
           example_state_wf); vm_compute; reflexivity.
Defined.

Lemma emplace_keeps_iterators_witness :
  wf example_state
  ∧ deref example_state (mkIt (Some 2%positive) true) = Some 5
  ∧ ∃ s' res,
      emplace 7 example_state = Some (s', res)
      ∧ deref s' (mkIt (Some 2%positive) true) = Some 5.
Proof.
  split; [exact example_state_wf|]. split; [vm_compute; reflexivity|].
  apply (emplace_keeps_iterators Z_ltb_trans 7 example_state
           (mkIt (Some 2%positive) true) 5 example_state_wf).
  vm_compute. reflexivity.
Defined.

Lemma insert_then_lookup_witness :
  wf example_state
  ∧ size example_state + 1 < SIZE_MOD
  ∧ ∃ s' it x,
      insert 7 example_state = Some (s', it) ∧ wf s'
      ∧ find 7 s' = Some it ∧ contains 7 s' = Some true
      ∧ deref s' it = Some x ∧ equivb 7 x = true
      ∧ ∀ key, equivb key 7 = false →
               contains key s' = contains key example_state.
Proof.
  split; [exact example_state_wf|]. split; [vm_compute; reflexivity|].
  apply (insert_then_lookup Z_ltb_trans Z_ltb_irrefl 7 example_state
           example_state_wf).
  vm_compute. reflexivity.
Defined.

Lemma erase_then_lookup_witness :
  move_keeps_below (T := Z)
  ∧ wf example_state
  ∧ ∃ s' it,
      erase 10 example_state = Some (s', it) ∧ wf s'
      ∧ contains 10 s' = Some false
      ∧ ∀ k, equivb k 10 = false → contains k s' = contains k example_state.
Proof.
  split; [exact Z_move_keeps_below|]. split; [exact example_state_wf|].
  exact (erase_then_lookup Z_ltb_trans Z_ltb_irrefl Z_equivb_trans 10
           example_state Z_move_keeps_below example_state_wf).
Defined.

Lemma erase_maximum_returns_end_witness :
  wf example_state
  ∧ in_order_traversal example_state = Some ([5; 10] ++ [15])
  ∧ equivb 15 15 = true
  ∧ ∃ s', erase 15 example_state = Some (s', end_ s')
          ∧ in_order_traversal s' = Some [5; 10].
Proof.
  split; [exact example_state_wf|]. split; [vm_compute; reflexivity|].
  split; [vm_compute; reflexivity|].
  apply (erase_maximum_returns_end Z_ltb_trans Z_ltb_irrefl Z_equivb_trans
           15 example_state [5; 10] 15 example_state_wf);
    vm_compute; reflexivity.
Defined.

Lemma erase_keeps_other_iterators_witness :
  move_keeps_below (T := Z)
  ∧ wf example_state
  ∧ ∃ s' it,
      erase 10 example_state = Some (s', it)
      ∧ ∀ j x, deref example_state j = Some x → equivb 10 x = false →
               ptr_ j ≠ ptr_ it → deref s' j = Some x.
Proof.
  split; [exact Z_move_keeps_below|]. split; [exact example_state_wf|].
  exact (erase_keeps_other_iterators Z_ltb_trans Z_ltb_irrefl 10
           example_state Z_move_keeps_below example_state_wf).
Defined.

Lemma erase_at_most_one_child_returns_successor_witness :
  wf example_state
  ∧ find 5 example_state = Some (mkIt (Some 2%positive) true)
  ∧ store example_state !! 2%positive
    = Some (mkNode 5 None None (Some 1%positive))
  ∧ ∃ s' it xs ys,
      erase 5 example_state = Some (s', it)
      ∧ equivb 5 (data (mkNode 5 None None (Some 1%positive))) = true
      ∧ in_order_traversal example_state
        = Some (xs ++ data (mkNode 5 None None (Some 1%positive)) :: ys)
      ∧ in_order_traversal s' = Some (xs ++ ys)
      ∧ deref s' it = head ys
      ∧ (it_eqb it (end_ s') = true ↔ ys = [])
      ∧ iterate (fuel_of (store s')) s' it = Some ys.
Proof.
  split; [exact example_state_wf|]. split; [vm_compute; reflexivity|].
  split; [vm_compute; reflexivity|].
  apply (erase_at_most_one_child_returns_successor Z_ltb_trans Z_ltb_irrefl
           5 example_state 2%positive
           (mkNode 5 None None (Some 1%positive)) example_state_wf).
  - vm_compute. reflexivity.
  - vm_compute. reflexivity.
  - left. reflexivity.
Defined.

Lemma erase_undoes_insert_witness :
  wf example_state
  ∧ contains 7 example_state = Some false
  ∧ size example_state + 1 < SIZE_MOD
  ∧ ∃ s1 it it',
      insert 7 example_state = Some (s1, it)
      ∧ erase 7 s1 = Some (example_state, it').
Proof.
  split; [exact example_state_wf|]. split; [vm_compute; reflexivity|].
  split; [vm_compute; reflexivity|].
  apply (erase_undoes_insert Z_ltb_trans Z_ltb_irrefl 7 example_state
           example_state_wf); vm_compute; reflexivity.
Defined.

Lemma clear_gives_empty_tree_witness :
  wf example_state ∧ clear example_state = Some empty_tree.
Proof.
  split; [exact example_state_wf|].
  exact (clear_gives_empty_tree Z_ltb_trans Z_ltb_irrefl example_state
           example_state_wf).
Defined.

Lemma size_counts_elements_witness :
  move_keeps_below (T := Z)
  ∧ Z.of_nat
      (length [do_insert 10; do_emplace 5; do_erase 10; do_clear; do_insert 3])
    < SIZE_MOD
  ∧ ∃ s L,
      apply_mutations
        [do_insert 10; do_emplace 5; do_erase 10; do_clear; do_insert 3]
        empty_tree = Some s
      ∧ in_order_traversal s = Some L
      ∧ size s = Z.of_nat (length L)
      ∧ (empty s = true ↔ L = []).
Proof.
  split; [exact Z_move_keeps_below|]. split; [vm_compute; reflexivity|].
  apply (size_counts_elements Z_ltb_trans Z_ltb_irrefl
           [do_insert 10; do_emplace 5; do_erase 10; do_clear; do_insert 3]
           Z_move_keeps_below).
  vm_compute. reflexivity.
Defined.

Lemma traversals_are_permutations_witness :
  wf example_state
  ∧ ∃ pre ino post,
      pre_order_traversal example_state = Some pre
      ∧ in_order_traversal example_state = Some ino
      ∧ post_order_traversal example_state = Some post
      ∧ pre ≡ₚ ino ∧ post ≡ₚ ino
      ∧ size example_state = Z.of_nat (length ino).
Proof.
  split; [exact example_state_wf|].
  exact (traversals_are_permutations example_state example_state_wf).
Defined.

Lemma pre_increment_next_witness :
  wf example_state
  ∧ in_order_traversal example_state = Some ([5] ++ 10 :: [15])
  ∧ deref example_state (mkIt (Some 1%positive) true) = Some 10
  ∧ ∃ it', pre_increment example_state (mkIt (Some 1%positive) true)
           = Some it'
           ∧ deref example_state it' = head [15]
           ∧ (it_eqb it' (end_ example_state) = true ↔ [15] = []).
Proof.
  split; [exact example_state_wf|]. split; [vm_compute; reflexivity|].
  split; [vm_compute; reflexivity|].
  apply (pre_increment_next Z_ltb_trans Z_ltb_irrefl example_state
           (mkIt (Some 1%positive) true) [5] 10 [15] example_state_wf);
    vm_compute; reflexivity.
Defined.

Lemma pre_decrement_previous_witness :
  wf example_state
  ∧ in_order_traversal example_state = Some ([5] ++ 10 :: [15])
  ∧ deref example_state (mkIt (Some 1%positive) true) = Some 10
  ∧ ∃ it', pre_decrement example_state (mkIt (Some 1%positive) true)
           = Some it'
           ∧ deref example_state it' = last [5]
           ∧ (it_eqb it' (end_ example_state) = true ↔ [5] = []).
Proof.
  split; [exact example_state_wf|]. split; [vm_compute; reflexivity|].
  split; [vm_compute; reflexivity|].
  apply (pre_decrement_previous Z_ltb_trans Z_ltb_irrefl example_state
           (mkIt (Some 1%positive) true) [5] 10 [15] example_state_wf);
    vm_compute; reflexivity.
Defined.

Lemma increment_then_decrement_witness :
  wf example_state
  ∧ deref example_state (mkIt (Some 3%positive) true) = Some 15
  ∧ ∃ it', pre_increment example_state (mkIt (Some 3%positive) true)
           = Some it'
           ∧ pre_decrement example_state it'
             = Some (mkIt (Some 3%positive) true).
Proof.
  split; [exact example_state_wf|]. split; [vm_compute; reflexivity|].
  apply (increment_then_decrement Z_ltb_trans example_state
           (mkIt (Some 3%positive) true) 15 example_state_wf).
  - vm_compute. reflexivity.
  - reflexivity.
Defined.

Lemma decrement_then_increment_witness :
  wf example_state
  ∧ ptr_ (end_ example_state) = None
  ∧ ∃ it', pre_decrement example_state (end_ example_state) = Some it'
           ∧ (ptr_ it' ≠ None →
              pre_increment example_state it' = Some (end_ example_state)).
Proof.
  split; [exact example_state_wf|]. split; [reflexivity|].
  apply (decrement_then_increment Z_ltb_trans example_state
           (end_ example_state) example_state_wf).
  - reflexivity.
  - left. reflexivity.
Defined.

Lemma begin_is_minimum_witness :
  wf example_state
  ∧ ∃ it L,
      begin example_state = Some it
      ∧ in_order_traversal example_state = Some L
      ∧ deref example_state it = head L
      ∧ it_eqb it (end_ example_state) = empty example_state
      ∧ ∀ m rest, L = m :: rest → Forall (lt m) rest.
Proof.
  split; [exact example_state_wf|].
  exact (begin_is_minimum Z_ltb_trans example_state example_state_wf).
Defined.

Lemma pre_decrement_end_reaches_maximum_witness :
  wf example_state
  ∧ size example_state ≠ 0
  ∧ ∃ it m xs,
      pre_decrement example_state (end_ example_state) = Some it
      ∧ deref example_state it = Some m
      ∧ in_order_traversal example_state = Some (xs ++ [m])
      ∧ Forall (λ x, lt x m) xs.
Proof.
  split; [exact example_state_wf|]. split; [vm_compute; discriminate|].
  apply (pre_decrement_end_reaches_maximum Z_ltb_trans example_state
           example_state_wf).
  vm_compute. discriminate.
Defined.

Lemma copy_construct_copies_witness :
  wf example_state
  ∧ ∃ s t' pre ino post,
      copy_construct example_state = Some s
      ∧ size s = size example_state
      ∧ pre_order_traversal example_state = Some pre
      ∧ in_order_traversal example_state = Some ino
      ∧ post_order_traversal example_state = Some post
      ∧ pre_order_traversal s = Some pre
      ∧ in_order_traversal s = Some ino
      ∧ post_order_traversal s = Some post
      ∧ root_ s = root_of t' ∧ repr (store s) None t'
      ∧ (∀ q, q ∈ locs t' → q ∉ dom (store example_state))
      ∧ (∀ q, q ∈ dom (store example_state) →
              store s !! q = store example_state !! q).
Proof.
  split; [exact example_state_wf|].
  exact (copy_construct_copies example_state example_state_wf).
Defined.

Lemma copy_is_independent_witness :
  wf example_state
  ∧ ∃ copy,
      copy_construct example_state = Some copy
      ∧ (∀ val, ∃ copy' res,
           emplace val copy = Some (copy', res)
           ∧ (∀ q, q ∈ dom (store example_state) →
                   store copy' !! q = store example_state !! q)
           ∧ in_order_traversal (with_store (store copy') example_state)
             = in_order_traversal example_state
           ∧ ∀ key, contains key (with_store (store copy') example_state)
                    = contains key example_state)
      ∧ (∀ val, ∃ other' res,
           emplace val (with_store (store copy) example_state)
           = Some (other', res)
           ∧ in_order_traversal (with_store (store other') copy)
             = in_order_traversal copy
           ∧ ∀ key, contains key (with_store (store other') copy)
                    = contains key copy).
Proof.
  split; [exact example_state_wf|].
  exact (copy_is_independent example_state example_state_wf).
Defined.

Lemma example_this_owns : owns example_this example_this_shape.
Proof.
  split; [reflexivity|]. split.
  - simpl. repeat split; reflexivity.
  - unfold locs. simpl. repeat constructor; set_solver.
Defined.

Lemma example_rhs_owns : owns example_rhs example_shape.
Proof.
  split; [reflexivity|]. split.
  - simpl. repeat split; reflexivity.
  - unfold locs. simpl. repeat constructor; set_solver.
Defined.

Lemma copy_assign_replaces_witness :
  store example_this = store example_rhs
  ∧ owns example_this example_this_shape
  ∧ owns example_rhs example_shape
  ∧ counted example_rhs example_shape
  ∧ ∃ s t' pre ino post,
      copy_assign example_this example_rhs = Some s
      ∧ size s = size example_rhs
      ∧ pre_order_traversal example_rhs = Some pre
      ∧ in_order_traversal example_rhs = Some ino
      ∧ post_order_traversal example_rhs = Some post
      ∧ pre_order_traversal s = Some pre
      ∧ in_order_traversal s = Some ino
      ∧ post_order_traversal s = Some post
      ∧ root_ s = root_of t' ∧ repr (store s) None t'
      ∧ (∀ q, q ∈ locs t' → q ∉ dom (store example_rhs))
      ∧ (∀ q, q ∈ locs example_this_shape → store s !! q = None)
      ∧ (∀ q, q ∈ dom (store example_rhs) → q ∉ locs example_this_shape →
              store s !! q = store example_rhs !! q).
Proof.
  assert (counted example_rhs example_shape) as Hc.
  { split; [reflexivity|]. vm_compute. reflexivity. }
  split; [reflexivity|]. split; [exact example_this_owns|].
  split; [exact example_rhs_owns|]. split; [exact Hc|].
  exact (copy_assign_replaces Z_ltb_trans Z_ltb_irrefl example_this
           example_rhs example_this_shape example_shape eq_refl
           example_this_owns example_rhs_owns Hc).
Defined.

Lemma move_assign_transfers_witness :
  store example_this = store example_rhs
  ∧ owns example_this example_this_shape
  ∧ owns example_rhs example_shape
  ∧ (∀ q, q ∈ locs example_this_shape → q ∉ locs example_shape)
  ∧ ∃ this' rhs',
      move_assign_from example_this example_rhs = Some (this', rhs')
      ∧ owns this' example_shape
      ∧ size this' = size example_rhs
      ∧ in_order_traversal this' = in_order_traversal example_rhs
      ∧ root_ rhs' = None ∧ size rhs' = 0 ∧ empty rhs' = true
      ∧ in_order_traversal rhs' = Some []
      ∧ store rhs' = store this'
      ∧ (∀ q, q ∈ locs example_this_shape → store this' !! q = None)
      ∧ (∀ q, q ∉ locs example_this_shape →
              store this' !! q = store example_rhs !! q).
Proof.
  assert (∀ q, q ∈ locs example_this_shape → q ∉ locs example_shape) as Hd.
  { unfold locs. simpl. set_solver. }
  split; [reflexivity|]. split; [exact example_this_owns|].
  split; [exact example_rhs_owns|]. split; [exact Hd|].
  exact (move_assign_transfers Z_ltb_trans Z_ltb_irrefl example_this
           example_rhs example_this_shape example_shape eq_refl
           example_this_owns example_rhs_owns Hd).
Defined.

Lemma builders_accept_any_shape_witness :
  NoDup (in_order unordered_shape)
  ∧ Z.of_nat (length (in_order unordered_shape)) ≤ INT_MAX
  ∧ ∃ s1 s2 : BinarySearchTree,
      from_pre_in (pre_order unordered_shape) (in_order unordered_shape)
      = Some s1
      ∧ from_in_post (in_order unordered_shape) (post_order unordered_shape)
        = Some s2
      ∧ pre_order_traversal s1 = Some (pre_order unordered_shape)
      ∧ in_order_traversal s1 = Some (in_order unordered_shape)
      ∧ post_order_traversal s1 = Some (post_order unordered_shape)
      ∧ pre_order_traversal s2 = Some (pre_order unordered_shape)
      ∧ in_order_traversal s2 = Some (in_order unordered_shape)
      ∧ post_order_traversal s2 = Some (post_order unordered_shape)
      ∧ size s1 = Z.of_nat (length (in_order unordered_shape))
      ∧ size s2 = Z.of_nat (length (in_order unordered_shape))
      ∧ (ordered s1 ↔ StronglySorted lt (in_order unordered_shape))
      ∧ (ordered s2 ↔ StronglySorted lt (in_order unordered_shape)).
Proof.
  assert (NoDup (in_order unordered_shape)) as Hnd.
  { apply (bool_decide_unpack _). vm_compute. exact I. }
  assert (Z.of_nat (length (in_order unordered_shape)) ≤ INT_MAX) as Hmax
    by (unfold INT_MAX; simpl; lia).
  split; [exact Hnd|]. split; [exact Hmax|].
  exact (builders_accept_any_shape Z_ltb_trans Z_ltb_irrefl unordered_shape
           Hnd Hmax).
Defined.

Lemma builders_fail_on_unknown_root_witness :
  (9 ∉ [1; 2])
  ∧ length [1; 2] = S (length [1])
  ∧ from_pre_in [9; 1] [1; 2] = None
  ∧ from_in_post [1; 2] ([1] ++ [9]) = None.
Proof.
  assert (9 ∉ [1; 2]) as Hx.
  { apply (bool_decide_unpack _). vm_compute. exact I. }
  split; [exact Hx|]. split; [reflexivity|].
  exact (builders_fail_on_unknown_root 9 [1] [1; 2] Hx eq_refl).
Defined.

(** The scenarios of the test suite. *)

Example test_initializer_list_in_order :
  (s ← from_initializer_list [10; 5; 15; 3; 7; 12; 18];
   a ← in_order_traversal s; b ← range_for s; Some (a, b, size s))
  = Some ([3; 5; 7; 10; 12; 15; 18], [3; 5; 7; 10; 12; 15; 18], 7).
Proof. vm_compute. reflexivity. Qed.

Example test_erase_three_cases :
  (s ← from_initializer_list [50; 30; 70; 20; 40; 60; 80; 35; 45];
   '(s1, _) ← erase 20 s;
   '(s2, _) ← erase 30 s1;
   '(s3, _) ← erase 50 s2;
   a ← in_order_traversal s3;
   '(s4, it) ← erase 999 s3;
   Some (size s1, size s2, size s3, a, size s4, ptr_ it))
  = Some (8, 7, 6, [35; 40; 45; 60; 70; 80], 6, None).
Proof. vm_compute. reflexivity. Qed.

Example test_build_from_traversals :
  (s1 ← from_pre_in [10; 5; 3; 7; 15; 12; 18] [3; 5; 7; 10; 12; 15; 18];
   a ← post_order_traversal s1;
   s2 ← from_in_post [3; 5; 7; 10; 12; 15; 18] [3; 7; 5; 12; 18; 15; 10];
   b ← pre_order_traversal s2;
   Some (size s1, a, size s2, b))
  = Some (7, [3; 7; 5; 12; 18; 15; 10], 7, [10; 5; 3; 7; 15; 12; 18]).
Proof. vm_compute. reflexivity. Qed.

Example test_bidirectional_iteration :
  (s ← from_initializer_list [10; 5; 15; 3; 7; 12; 18];
   it1 ← pre_decrement s (end_ s);
   a ← deref s it1;
   it2 ← pre_decrement s it1;
   b ← deref s it2;
   it3 ← pre_increment s it2;
   c ← deref s it3;
   Some (a, b, c))
  = Some (18, 15, 18).
Proof. vm_compute. reflexivity. Qed.
